(** * AudioPlayer: decoder, transport, progress clock and segment locator

    A shallow embedding of the [AudioPlayer] component (the audio playback
    and script synchronisation engine of the application).

    JavaScript numbers are IEEE 754 binary64 values and are modelled by Rocq's
    primitive [float]s, whose operations are specified against [SpecFloat] by
    the axioms of [FloatAxioms].  Array indices and lengths are integers
    ([Z], because the locator can return [-1]); strings are [string]s whose
    [String.length] stands for the JavaScript [length]. *)

From Stdlib Require Uint63.
From Stdlib Require Import ZArith List String Ascii Bool Lia Lqa QArith Qpower Floats.
From Stdlib Require Import Strings.Byte.
Import ListNotations.

#[local] Set Warnings "-inexact-float".
#[local] Open Scope Z_scope.

(** ** JavaScript numbers *)

Module JS.

(** The number a length converts to (exactly, below [2^53]). *)
Definition of_nat (n : nat) : float := of_uint63 (Uint63.of_Z (Z.of_nat n)).

(** The number an integer converts to (exactly, within [2^53]). *)
Definition of_Z (z : Z) : float :=
  match z with
  | Zneg p => (- of_uint63 (Uint63.of_Z (Zpos p)))%float
  | _ => of_uint63 (Uint63.of_Z z)
  end.

(** [!x] on a number: true for [+0], [-0] and [NaN]. *)
Definition not (x : float) : bool := is_nan x || is_zero x.

(** [x === y] on numbers. *)
Definition strict_eq (x y : float) : bool := (x =? y)%float.

(** [x >= y]. *)
Definition geb (x y : float) : bool := (y <=? x)%float.

(** [Math.min(x, y)]: [NaN] if either is [NaN], and [-0] is below [+0]. *)
Definition min (x y : float) : float :=
  if is_nan x || is_nan y then nan
  else if (x <? y)%float then x
  else if (y <? x)%float then y
  else if is_zero x && get_sign y then y
  else x.

End JS.

(** ** Segment locator ([activeParagraphIndex]) *)

(** [script.reduce((acc, p) => acc + p.length, 0)] and its prefixes. *)
Definition charCount (acc : float) (segs : list string) : float :=
  fold_left (fun acc p => (acc + JS.of_nat (String.length p))%float) segs acc.

Definition totalChars (script : list string) : float := charCount 0%float script.

(** The [for] loop: [i] is the index of the head of [rest], [n] is
    [script.length]. *)
Fixpoint locate (progress total : float) (n : Z)
         (charCountSoFar : float) (i : Z) (rest : list string) : Z :=
  match rest with
  | [] => n - 1
  | p :: rest' =>
      let pLen := JS.of_nat (String.length p) in
      let pEndRatio := ((charCountSoFar + pLen) / total)%float in
      if (progress <=? pEndRatio)%float then i
      else locate progress total n (charCountSoFar + pLen)%float (i + 1) rest'
  end.

Definition activeParagraphIndex (currentTime duration : float)
           (script : list string) : Z :=
  if JS.not duration || JS.strict_eq duration 0%float then 0
  else
    let progress := (currentTime / duration)%float in
    locate progress (totalChars script) (Z.of_nat (List.length script))
           0%float 0 script.

(** [charCountSoFar] when the loop reaches index [i], and the end ratio
    [(charCountSoFar + pLen) / totalChars] it computes there. *)
Definition charCountSoFar (script : list string) (i : nat) : float :=
  charCount 0%float (firstn i script).

Definition pEndRatio (script : list string) (i : nat) : float :=
  ((charCountSoFar script i + JS.of_nat (String.length (nth i script ""%string)))
   / totalChars script)%float.

(** What the loop returns, in terms of the comparisons it makes: started at
    index [k] with [charCountSoFar] the count of the first [k] segments. *)
Inductive walk_result (progress : float) (script : list string) (k : nat) (r : Z) : Prop :=
| walk_found (i : nat) :
    (k <= i < List.length script)%nat ->
    r = Z.of_nat i ->
    (progress <=? pEndRatio script i)%float = true ->
    (forall j, (k <= j < i)%nat -> (progress <=? pEndRatio script j)%float = false) ->
    walk_result progress script k r
| walk_fallthrough :
    r = Z.of_nat (List.length script) - 1 ->
    (forall j, (k <= j < List.length script)%nat ->
               (progress <=? pEndRatio script j)%float = false) ->
    walk_result progress script k r.

(** A script without characters. *)
Definition all_empty (script : list string) : Prop :=
  Forall (fun p => String.length p = 0%nat) script.

(** ** Decoder ([initAudio]) *)

(** Exceptions the platform raises on the decode path. *)
Inductive Exception : Set :=
| InvalidCharacterError   (* [atob] on text that is not base64 *)
| RangeError              (* a typed-array view over a misaligned length *)
| NotSupportedError.      (* [createBuffer] with no frames *)

Inductive result (A : Type) : Type :=
| Ok (a : A)
| Throw (e : Exception).
Arguments Ok {A} a.
Arguments Throw {A} e.

Definition bind {A B} (r : result A) (k : A -> result B) : result B :=
  match r with
  | Ok a => k a
  | Throw e => Throw e
  end.

Notation "'let*' x ':=' r 'in' k" := (bind r (fun x => k))
  (at level 10, x name, r at level 100, k at level 200).

(** [atob]: the forgiving base64 decoding of the payload. *)
Module Base64.

Definition is_whitespace (c : ascii) : bool :=
  match N_of_ascii c with
  | 9%N | 10%N | 12%N | 13%N | 32%N => true
  | _ => false
  end.

Definition value (c : ascii) : option N :=
  let n := N_of_ascii c in
  if ((65 <=? n) && (n <=? 90))%N then Some (n - 65)%N
  else if ((97 <=? n) && (n <=? 122))%N then Some (n - 71)%N
  else if ((48 <=? n) && (n <=? 57))%N then Some (n + 4)%N
  else if (n =? 43)%N then Some 62%N
  else if (n =? 47)%N then Some 63%N
  else None.

Fixpoint values (cs : list ascii) : option (list N) :=
  match cs with
  | [] => Some []
  | c :: cs' =>
      match value c, values cs' with
      | Some v, Some vs => Some (v :: vs)
      | _, _ => None
      end
  end.

Definition strip_padding (cs : list ascii) : list ascii :=
  if (List.length cs mod 4 =? 0)%nat then
    match rev cs with
    | "="%char :: "="%char :: r => rev r
    | "="%char :: r => rev r
    | _ => cs
    end
  else cs.

Definition byte_of (n : N) : byte :=
  match Byte.of_N (n mod 256) with
  | Some b => b
  | None => x00
  end.

Fixpoint bytes_of (vs : list N) : list byte :=
  match vs with
  | a :: b :: c :: d :: rest =>
      let w := (a * 262144 + b * 4096 + c * 64 + d)%N in
      byte_of (w / 65536) :: byte_of (w / 256) :: byte_of w :: bytes_of rest
  | [a; b; c] =>
      let w := (a * 4096 + b * 64 + c)%N in
      [byte_of (w / 1024); byte_of (w / 4)]
  | [a; b] => [byte_of ((a * 64 + b) / 16)]
  | _ => []
  end.

Definition atob (data : string) : result (list byte) :=
  let cs := strip_padding
              (filter (fun c => negb (is_whitespace c)) (list_ascii_of_string data)) in
  if (List.length cs mod 4 =? 1)%nat then Throw InvalidCharacterError
  else
    match values cs with
    | Some vs => Ok (bytes_of vs)
    | None => Throw InvalidCharacterError
    end.

End Base64.

(** [Math.fround]: the binary32 value a [Float32Array] element keeps of the
    number stored in it, read back as a number. *)
Definition fround (x : float) : float :=
  match Prim2SF x with
  | S754_finite s m e => SF2Prim (binary_round 24 128 s m e)
  | _ => x
  end.

Record AudioBuffer : Set := {
  numberOfChannels : Z;
  sampleRate : Z;
  channelData : list float       (* channel 0, a [Float32Array] *)
}.

(** [buffer.duration]: frames over sample rate. *)
Definition bufferDuration (b : AudioBuffer) : float :=
  (JS.of_nat (List.length (channelData b)) / JS.of_Z (sampleRate b))%float.

(** The element of an [Int16Array] held in two bytes (little-endian). *)
Definition int16_of (lo hi : byte) : Z :=
  let u := Z.of_N (Byte.to_N lo) + 256 * Z.of_N (Byte.to_N hi) in
  if u <? 32768 then u else u - 65536.

Fixpoint int16_elements (bytes : list byte) : list Z :=
  match bytes with
  | lo :: hi :: rest => int16_of lo hi :: int16_elements rest
  | _ => []
  end.

(** [new Int16Array(bytes.buffer)]: a view over the whole buffer exists only
    when its byte length is a multiple of the element size. *)
Definition newInt16Array (bytes : list byte) : result (list Z) :=
  if Nat.even (List.length bytes) then Ok (int16_elements bytes)
  else Throw RangeError.

(** [ctx.createBuffer(channels, frames, rate)]: zero-filled. *)
Definition createBuffer (channels : Z) (frames : nat) (rate : Z) : result AudioBuffer :=
  match frames with
  | O => Throw NotSupportedError
  | _ => Ok {| numberOfChannels := channels; sampleRate := rate;
               channelData := repeat 0%float frames |}
  end.

(** [channelData[i] = dataInt16[i] / 32768.0]. *)
Definition sampleOfInt16 (v : Z) : float := fround (JS.of_Z v / 32768)%float.

(** The body of the [try] block after the context is created, on the decoded
    bytes: the loop stores a sample at every index of the fresh buffer. *)
Definition decodeBytes (bytes : list byte) : result AudioBuffer :=
  let* dataInt16 := newInt16Array bytes in
  let* buffer := createBuffer 1 (List.length dataInt16) 24000 in
  Ok {| numberOfChannels := numberOfChannels buffer;
        sampleRate := sampleRate buffer;
        channelData := map sampleOfInt16 dataInt16 |}.

Definition decode (base64Audio : string) : result AudioBuffer :=
  let* bytes := Base64.atob base64Audio in
  decodeBytes bytes.

(** ** Component state *)

Inductive AudioContextState : Set := suspended | running | closed.

Record AudioContext : Set := {
  ctxSampleRate : Z;
  state : AudioContextState
}.

(** A started [AudioBufferSourceNode]: [source.start(when, offset)]. *)
Record AudioBufferSourceNode : Set := {
  buffer : AudioBuffer;
  startWhen : float;
  startOffset : float
}.

(** The hooks of the component, and the pending [requestAnimationFrame]
    request of the progress effect.  The audio clock
    ([audioContextRef.current.currentTime]) belongs to the environment: each
    operation that reads it takes the reading as its argument [now]. *)
Record Player : Set := {
  isPlaying : bool;
  audioContextRef : option AudioContext;
  audioSourceRef : option AudioBufferSourceNode;
  startTimeRef : float;
  currentTime : float;
  duration : float;
  audioBuffer : option AudioBuffer;
  animationFrame : bool
}.

Definition initialPlayer : Player :=
  {| isPlaying := false; audioContextRef := None; audioSourceRef := None;
     startTimeRef := 0%float; currentTime := 0%float; duration := 0%float;
     audioBuffer := None; animationFrame := false |}.

(** [initAudio], for a non-empty payload: the context is stored first, then
    the decoded buffer and its duration; the [catch] only logs. *)
Definition initAudio (ctxState : AudioContextState) (base64Audio : string)
           (st : Player) : Player :=
  let ctx := {| ctxSampleRate := 24000; state := ctxState |} in
  match decode base64Audio with
  | Ok b =>
      {| isPlaying := isPlaying st; audioContextRef := Some ctx;
         audioSourceRef := audioSourceRef st; startTimeRef := startTimeRef st;
         currentTime := currentTime st; duration := bufferDuration b;
         audioBuffer := Some b; animationFrame := animationFrame st |}
  | Throw _ =>
      {| isPlaying := isPlaying st; audioContextRef := Some ctx;
         audioSourceRef := audioSourceRef st; startTimeRef := startTimeRef st;
         currentTime := currentTime st; duration := duration st;
         audioBuffer := audioBuffer st; animationFrame := animationFrame st |}
  end.

(** ** Transport ([handlePlay], [handlePause]) *)

(** [audioContextRef.current.resume()] when the context is suspended. *)
Definition resume (ctx : AudioContext) : AudioContext :=
  match state ctx with
  | suspended => {| ctxSampleRate := ctxSampleRate ctx; state := running |}
  | _ => ctx
  end.

(** [currentTime >= duration ? 0 : currentTime]. *)
Definition playOffset (st : Player) : float :=
  if JS.geb (currentTime st) (duration st) then 0%float else currentTime st.

(** [source.start(0, offset)] takes a finite, non-negative offset; it throws
    otherwise, which ends [handlePlay] before any state is written. *)
Definition startAccepts (offset : float) : bool :=
  is_finite offset && (0 <=? offset)%float.

Definition handlePlay (now : float) (st : Player) : Player :=
  match audioBuffer st, audioContextRef st with
  | Some b, Some ctx =>
      let offset := playOffset st in
      if startAccepts offset then
        {| isPlaying := true;
           audioContextRef := Some (resume ctx);
           audioSourceRef :=
             Some {| buffer := b; startWhen := 0%float; startOffset := offset |};
           startTimeRef := (now - offset)%float;
           currentTime := currentTime st; duration := duration st;
           audioBuffer := audioBuffer st; animationFrame := animationFrame st |}
      else
        {| isPlaying := isPlaying st;
           audioContextRef := Some (resume ctx);
           audioSourceRef := audioSourceRef st; startTimeRef := startTimeRef st;
           currentTime := currentTime st; duration := duration st;
           audioBuffer := audioBuffer st; animationFrame := animationFrame st |}
  | _, _ => st
  end.

Definition handlePause (st : Player) : Player :=
  match audioSourceRef st with
  | Some _ =>
      {| isPlaying := false; audioContextRef := audioContextRef st;
         audioSourceRef := None; startTimeRef := startTimeRef st;
         currentTime := currentTime st; duration := duration st;
         audioBuffer := audioBuffer st; animationFrame := animationFrame st |}
  | None => st
  end.

(** ** Progress clock (the effect on [[isPlaying, duration]]) *)

(** One run of [updateProgress], the frame callback; [now] is the audio clock
    it samples.  [animationFrame] records whether it asked for another
    frame. *)
Definition updateProgress (now : float) (st : Player) : Player :=
  match isPlaying st, audioContextRef st with
  | true, Some _ =>
      let elapsed := (now - startTimeRef st)%float in
      if (elapsed <=? duration st)%float then
        {| isPlaying := isPlaying st; audioContextRef := audioContextRef st;
           audioSourceRef := audioSourceRef st; startTimeRef := startTimeRef st;
           currentTime := JS.min elapsed (duration st); duration := duration st;
           audioBuffer := audioBuffer st; animationFrame := true |}
      else
        {| isPlaying := false; audioContextRef := audioContextRef st;
           audioSourceRef := audioSourceRef st; startTimeRef := startTimeRef st;
           currentTime := duration st; duration := duration st;
           audioBuffer := audioBuffer st; animationFrame := animationFrame st |}
  | _, _ => st
  end.

(** The effect is run again when a dependency changed ([Object.is]): its
    cleanup cancels the pending frame, and its body requests one exactly when
    [isPlaying]. *)
Definition progressEffect (before after : Player) : Player :=
  if Bool.eqb (isPlaying before) (isPlaying after)
     && PrimFloat.Leibniz.eqb (duration before) (duration after)
  then after
  else
    {| isPlaying := isPlaying after; audioContextRef := audioContextRef after;
       audioSourceRef := audioSourceRef after; startTimeRef := startTimeRef after;
       currentTime := currentTime after; duration := duration after;
       audioBuffer := audioBuffer after; animationFrame := isPlaying after |}.

Definition clearFrame (st : Player) : Player :=
  {| isPlaying := isPlaying st; audioContextRef := audioContextRef st;
     audioSourceRef := audioSourceRef st; startTimeRef := startTimeRef st;
     currentTime := currentTime st; duration := duration st;
     audioBuffer := audioBuffer st; animationFrame := false |}.

(** What the component does on each event, effects included. *)
Inductive Event : Set :=
| Play (now : float)      (* [handlePlay], the clock read after [start] *)
| Pause                   (* [handlePause] *)
| Frame (now : float).    (* a display frame, the clock read by the callback *)

Definition step (st : Player) (ev : Event) : Player :=
  match ev with
  | Play now => progressEffect st (handlePlay now st)
  | Pause => progressEffect st (handlePause st)
  | Frame now =>
      if animationFrame st
      then progressEffect st (updateProgress now (clearFrame st))
      else st
  end.

Definition run (st : Player) (evs : list Event) : Player := fold_left step evs st.

(** The number of times the frame callback samples the clock along a run. *)
Fixpoint samples (st : Player) (evs : list Event) : nat :=
  match evs with
  | [] => 0
  | ev :: evs' =>
      (match ev with
       | Frame _ =>
           match animationFrame st, isPlaying st, audioContextRef st with
           | true, true, Some _ => 1
           | _, _, _ => 0
           end
       | _ => 0
       end + samples (step st ev) evs')%nat
  end.

(** A player whose payload decoded to [frames] frames of silence, with a
    running context, before the first play. *)
Definition silence (frames : nat) : AudioBuffer :=
  {| numberOfChannels := 1; sampleRate := 24000;
     channelData := repeat 0%float frames |}.

Definition loaded (frames : nat) : Player :=
  {| isPlaying := false;
     audioContextRef := Some {| ctxSampleRate := 24000; state := running |};
     audioSourceRef := None; startTimeRef := 0%float; currentTime := 0%float;
     duration := bufferDuration (silence frames);
     audioBuffer := Some (silence frames); animationFrame := false |}.

(** The audio clock after [quanta] render quanta of 128 frames at 24 kHz. *)
Definition clockAt (quanta : Z) : float := (JS.of_Z (128 * quanta) / 24000)%float.

(** ** Clock readings along a run *)

(** The clock an event reads, if it reads it. *)
Definition reading (ev : Event) : option float :=
  match ev with
  | Play now | Frame now => Some now
  | Pause => None
  end.

(** The readings of [evs] are finite and none is before the one before it,
    nor before [c]: the audio clock does not go back. *)
Fixpoint clockAdvances (c : float) (evs : list Event) : bool :=
  match evs with
  | [] => true
  | ev :: evs' =>
      match reading ev with
      | Some now => is_finite now && (c <=? now)%float && clockAdvances now evs'
      | None => clockAdvances c evs'
      end
  end.

(** What the transport keeps true while the clock reads [c] or more: the
    published position and the duration are offsets [start] accepts, and the
    start-time anchor is not in the future. *)
Definition wellTimed (c : float) (st : Player) : Prop :=
  (0 <=? c)%float = true /\
  startAccepts (currentTime st) = true /\
  startAccepts (duration st) = true /\
  (startTimeRef st <=? c)%float = true.

(** ** The mounted player, its button and its rows *)

(** The component once mounted with the payload of its props: [initAudio]
    runs when the payload is there (and not the empty string); [ctxState] is
    the state the platform creates the context in. *)
Definition mounted (ctxState : AudioContextState) (base64Audio : option string) : Player :=
  match base64Audio with
  | Some s => if (String.length s =? 0)%nat then initialPlayer
              else initAudio ctxState s initialPlayer
  | None => initialPlayer
  end.

(** The frame request follows the playing state, and playing goes with a
    context, a started source and a buffer. *)
Definition scheduled (st : Player) : Prop :=
  animationFrame st = isPlaying st /\
  (isPlaying st = true ->
   audioContextRef st <> None /\ audioSourceRef st <> None /\ audioBuffer st <> None).

(** The published position is a finite number between [0] and the duration,
    and the start-time anchor is finite. *)
Definition inTrack (c : float) (st : Player) : Prop :=
  wellTimed c st /\ (currentTime st <=? duration st)%float = true /\
  is_finite (startTimeRef st) = true.

(** The last clock reading of a list of events, [c] when there is none. *)
Definition lastReading (c : float) (evs : list Event) : float :=
  fold_left (fun c ev => match reading ev with Some now => now | None => c end) evs c.

(** [!base64Audio] on [string | null]. *)
Definition noPayload (base64Audio : option string) : bool :=
  match base64Audio with
  | Some s => (String.length s =? 0)%nat
  | None => true
  end.

(** What [togglePlay] does: it asks the parent for audio ([onGenerate]), or
    it drives the transport, after which the effects have run. *)
Inductive Toggled : Set :=
| Generate
| Transported (st : Player).

Definition togglePlay (base64Audio : option string) (isLoading : bool)
           (now : float) (st : Player) : Toggled :=
  if noPayload base64Audio && negb isLoading then Generate
  else if isPlaying st then Transported (step st Pause)
  else Transported (step st (Play now)).

(** [idx === activeParagraphIndex && isPlaying]: the condition under which
    the row of segment [idx] is drawn as the active one. *)
Definition isActiveRow (st : Player) (script : list string) (idx : nat) : bool :=
  (Z.of_nat idx =? activeParagraphIndex (currentTime st) (duration st) script)
  && isPlaying st.

(** The rows [script.map] draws as active. *)
Definition activeRows (st : Player) (script : list string) : list nat :=
  filter (isActiveRow st script) (seq 0 (List.length script)).

(** The number of characters of a list of segments. *)
Definition charsOf (segs : list string) : nat := list_sum (map String.length segs).

(** ** The lesson view, parent of the player

    The part of the application state the player depends on, and of its
    records the fields these functions read: in [LISTEN] mode the view of a
    lesson unit mounts the player with [audioData] as payload,
    [isAudioLoading] as [isLoading] and [handleGenerateAudio] as
    [onGenerate].  Telemetry ([trackEvent]) is not part of the state. *)

Record Unit : Set := { unitId : string }.

Record Chapter : Set := { units : list Unit }.

Record Syllabus : Set := { chapters : list Chapter }.

(** [UnitContent]: a lesson has a podcast script, an exam has none. *)
Inductive UnitContent : Set :=
| LessonContent (podcastScript : list string)
| ExamContent.

Inductive AppScreen : Set := HOME | SYLLABUS | LESSON | LIBRARY | PROFILE.

Inductive LessonMode : Set := READ | LISTEN | QUIZ.

Record App : Set := {
  screen : AppScreen;
  syllabus : option Syllabus;
  courseContent : list (string * UnitContent);
  currentChapterIdx : nat;
  currentUnitIdx : nat;
  lessonMode : LessonMode;
  audioData : option string;
  isAudioLoading : bool;
  quizSelectedId : option string;
  isQuizSubmitted : bool;
  examAnswers : list (nat * string);
  isExamSubmitted : bool;
  flashcardFlipped : list (nat * bool)
}.










(** [enterUnit]. *)
Definition enterUnit (chapterIdx unitIdx : nat) (app : App) : App :=
  {| screen := LESSON; syllabus := syllabus app;
     courseContent := courseContent app;
     currentChapterIdx := chapterIdx; currentUnitIdx := unitIdx;
     lessonMode := READ;
     audioData := None; isAudioLoading := isAudioLoading app;
     quizSelectedId := None; isQuizSubmitted := false;
     examAnswers := []; isExamSubmitted := false;
     flashcardFlipped := [] |}.

(** [setScreen]. *)
Definition setScreen (s : AppScreen) (app : App) : App :=
  {| screen := s; syllabus := syllabus app;
     courseContent := courseContent app;
     currentChapterIdx := currentChapterIdx app; currentUnitIdx := currentUnitIdx app;
     lessonMode := lessonMode app;
     audioData := audioData app; isAudioLoading := isAudioLoading app;
     quizSelectedId := quizSelectedId app; isQuizSubmitted := isQuizSubmitted app;
     examAnswers := examAnswers app; isExamSubmitted := isExamSubmitted app;
     flashcardFlipped := flashcardFlipped app |}.

(** [handleNextUnit]: [None] when it throws (there is no chapter at the
    current index). *)
Definition handleNextUnit (app : App) : option App :=
  match syllabus app with
  | None => Some app
  | Some s =>
      match nth_error (chapters s) (currentChapterIdx app) with
      | None => None
      | Some chapter =>
          let nextU := (currentUnitIdx app + 1)%nat in
          let nextC := currentChapterIdx app in
          let next :=
            if (List.length (units chapter) <=? nextU)%nat
            then (0%nat, (currentChapterIdx app + 1)%nat)
            else (nextU, nextC) in
          if (snd next <? List.length (chapters s))%nat
          then Some (enterUnit (snd next) (fst next) app)
          else Some (setScreen SYLLABUS app)
      end
  end.

(** The number of units before chapter [c], and the place of unit [u] of
    chapter [c] in reading order. *)
Definition unitsBefore (s : Syllabus) (c : nat) : nat :=
  list_sum (map (fun chapter => List.length (units chapter)) (firstn c (chapters s))).

Definition placeOf (s : Syllabus) (c u : nat) : nat := (unitsBefore s c + u)%nat.

(** Unit [u] of chapter [c] exists. *)
Definition unitAt (s : Syllabus) (c u : nat) : Prop :=
  exists chapter unit,
    nth_error (chapters s) c = Some chapter /\ nth_error (units chapter) u = Some unit.

(** ** The exact value of a number *)

Definition SF2Q (x : spec_float) : Q :=
  match x with
  | S754_finite s m e =>
      (inject_Z (if s then Zneg m else Zpos m) * (2 ^ e))%Q
  | _ => 0%Q
  end.

Definition valueOf (x : float) : Q := SF2Q (Prim2SF x).

(** The integers from [start], [count] of them. *)
Fixpoint Zrange (start : Z) (count : nat) : list Z :=
  match count with
  | O => []
  | S count' => start :: Zrange (start + 1) count'
  end.

(** Every value an [Int16Array] element can hold. *)
Definition int16_values : list Z := Zrange (-32768) (Z.to_nat 65536).

(** The check that the sample of the 16-bit value [v] is the double
    [v / 32768] itself, and that this double is [v * 2^-15] exactly. *)
Definition sample_exact (v : Z) : bool :=
  let x := (JS.of_Z v / 32768)%float in
  match Prim2SF x with
  | S754_finite s m e =>
      PrimFloat.Leibniz.eqb (SF2Prim (binary_round 24 128 s m e)) x
      && (e + 15 <=? 0)
      && (Z.abs v * 2 ^ (- (e + 15)) =? Zpos m)
      && Bool.eqb s (v <? 0)
  | S754_zero _ => v =? 0
  | _ => false
  end.

(** ** Rounding in binary64

    The vocabulary in which the division of [SpecFloat] is followed: the
    rational [m * 2^e]; where a positive rational lies with respect to the
    cell [[m * 2^e, (m + 1) * 2^e)] (the meaning of a [location]); the cells
    of the binary64 grid; and the float that rounding to nearest (ties to
    even) makes of a cell and a location. *)

Definition F2Q (m e : Z) : Q := (inject_Z m * 2 ^ e)%Q.

Definition located (m e : Z) (l : location) (x : Q) : Prop :=
  match l with
  | loc_Exact => (x == F2Q m e)%Q
  | loc_Inexact c =>
      (F2Q m e < x)%Q /\ (x < F2Q (m + 1) e)%Q /\
      Qcompare (x + x) (F2Q (2 * m + 1) e) = c
  end.

Definition rec_located (mrs : shr_record) (e : Z) (x : Q) : Prop :=
  0 <= shr_m mrs /\ located (shr_m mrs) e (loc_of_shr_record mrs) x.

(** A cell of the binary64 grid: mantissa below [2^53], exponent at least
    [-1074], and a full mantissa unless the exponent is the least one. *)
Definition cell (m e : Z) : Prop :=
  0 <= m < 2 ^ 53 /\ -1074 <= e /\ (e = -1074 \/ 2 ^ 52 <= m).

(** The float of a rounded mantissa: a carry into bit 53 moves to the next
    exponent, and an exponent above [971] overflows. *)
Definition finish (s : bool) (r e : Z) : spec_float :=
  match r with
  | Z0 => S754_zero s
  | Zpos p => if e <=? 971 then S754_finite s p e else S754_infinity s
  | Zneg _ => S754_nan
  end.

Definition renorm (r e : Z) : Z * Z :=
  if r <? 2 ^ 53 then (r, e) else (2 ^ 52, e + 1).

Definition rounded (s : bool) (m e : Z) (l : location) : spec_float :=
  let (r, e') := renorm (round_nearest_even m l) e in finish s r e'.

(** * Properties *)

(** ** Numbers: comparisons *)

Lemma leb_nan_r (x : float) : (x <=? nan)%float = false.
Proof.
  rewrite leb_spec. change (Prim2SF nan) with S754_nan.
  unfold SFleb, SFcompare. now destruct (Prim2SF x).
Qed.

Lemma leb_is_nan_l (x y : float) : (x <=? y)%float = true -> is_nan x = false.
Proof.
  unfold is_nan. rewrite leb_spec, eqb_spec. unfold SFleb, SFeqb.
  destruct (Prim2SF x) as [s|s| |s m e]; cbn; try discriminate; intros _.
  - reflexivity.
  - now destruct s.
  - destruct s; cbn; now rewrite Z.compare_refl, Pos.compare_cont_refl.
Qed.

Lemma leb_is_nan_r (x y : float) : (x <=? y)%float = true -> is_nan y = false.
Proof.
  unfold is_nan. rewrite leb_spec, eqb_spec. unfold SFleb, SFeqb.
  destruct (Prim2SF y) as [s|s| |s m e]; cbn.
  - reflexivity.
  - now destruct s.
  - now destruct (Prim2SF x).
  - intros _. destruct s; cbn; now rewrite Z.compare_refl, Pos.compare_cont_refl.
Qed.

Lemma leb_nan_l (x y : float) : is_nan x = true -> (x <=? y)%float = false.
Proof.
  intros Hn. destruct (x <=? y)%float eqn:E; [|reflexivity].
  apply leb_is_nan_l in E. congruence.
Qed.

Lemma SFcompare_swap (x y : spec_float) :
  SFcompare y x = option_map CompOpp (SFcompare x y).
Proof.
  destruct x as [sx|sx| |sx mx ex], y as [sy|sy| |sy my ey]; cbn;
    try reflexivity;
    try (destruct sx; reflexivity); try (destruct sy; reflexivity);
    try (destruct sx, sy; reflexivity).
  assert (Pos.compare_cont Eq my mx = CompOpp (Pos.compare_cont Eq mx my)) as Hm
      by (symmetry; apply (Pos.compare_cont_antisym mx my Eq)).
  destruct sx, sy; cbn; try reflexivity;
    rewrite (Z.compare_antisym ex ey), Hm;
    destruct (ex ?= ey)%Z; cbn; try reflexivity;
    destruct (Pos.compare_cont Eq mx my); reflexivity.
Qed.

Lemma ltb_leb (x y : float) : (x <? y)%float = true -> (x <=? y)%float = true.
Proof.
  rewrite ltb_spec, leb_spec. unfold SFltb, SFleb.
  now destruct (SFcompare (Prim2SF x) (Prim2SF y)) as [[]|].
Qed.

Lemma ltb_not_leb (x y : float) : (x <? y)%float = true -> (y <=? x)%float = false.
Proof.
  rewrite ltb_spec, leb_spec. unfold SFltb, SFleb.
  rewrite (SFcompare_swap (Prim2SF x) (Prim2SF y)).
  now destruct (SFcompare (Prim2SF x) (Prim2SF y)) as [[]|].
Qed.

Lemma leb_not_ltb (x y : float) : (x <=? y)%float = true -> (y <? x)%float = false.
Proof.
  rewrite ltb_spec, leb_spec. unfold SFltb, SFleb.
  rewrite (SFcompare_swap (Prim2SF x) (Prim2SF y)).
  now destruct (SFcompare (Prim2SF x) (Prim2SF y)) as [[]|].
Qed.

Ltac cmp_cases :=
  repeat match goal with
    | |- context [Z.compare ?a ?b] => destruct (Z.compare_spec a b)
    | |- context [Pos.compare ?a ?b] => destruct (Pos.compare_spec a b)
    | H : context [Z.compare ?a ?b] |- _ => destruct (Z.compare_spec a b)
    | H : context [Pos.compare ?a ?b] |- _ => destruct (Pos.compare_spec a b)
    end.

Lemma SFleb_trans (x y z : spec_float) :
  SFleb x y = true -> SFleb y z = true -> SFleb x z = true.
Proof.
  unfold SFleb, SFcompare.
  destruct x as [[]|[]| |[] mx ex], y as [[]|[]| |[] my ey], z as [[]|[]| |[] mz ez];
    try discriminate; try reflexivity;
    change (Pos.compare_cont Eq) with Pos.compare;
    intros H1 H2; cmp_cases; cbn in *; try discriminate; try reflexivity;
    exfalso; lia.
Qed.

Lemma leb_trans (x y z : float) :
  (x <=? y)%float = true -> (y <=? z)%float = true -> (x <=? z)%float = true.
Proof. rewrite !leb_spec. apply SFleb_trans. Qed.

Lemma ltb_pos_not (d : float) : (0 <? d)%float = true -> JS.not d = false.
Proof.
  unfold JS.not, is_nan, is_zero. rewrite ltb_spec, !eqb_spec.
  change (Prim2SF 0) with (S754_zero false). change (Prim2SF zero) with (S754_zero false).
  unfold SFltb, SFeqb, SFcompare.
  destruct (Prim2SF d) as [s|s| |s m e]; try discriminate; try reflexivity.
  - now destruct s.
  - destruct s; try discriminate. intros _. cbn.
    now rewrite Z.compare_refl, Pos.compare_cont_refl.
Qed.

Lemma ltb_pos_guard (d : float) :
  (0 <? d)%float = true -> JS.not d || JS.strict_eq d 0%float = false.
Proof.
  intros H. rewrite (ltb_pos_not d H). cbn.
  generalize (ltb_pos_not d H). unfold JS.not, JS.strict_eq, is_zero.
  now intros [_ Hz]%orb_false_iff.
Qed.

Lemma pos_of_between (x y : float) :
  (0 <=? x)%float = true -> (x <? y)%float = true -> (0 <? y)%float = true.
Proof.
  rewrite leb_spec, !ltb_spec. change (Prim2SF 0) with (S754_zero false).
  unfold SFleb, SFltb.
  destruct (Prim2SF x) as [s|s| |s m e], (Prim2SF y) as [sy|sy| |sy my ey]; cbn;
    try discriminate; try (destruct s; discriminate);
    try (destruct sy; discriminate); try (destruct s, sy; discriminate);
    try (destruct s, sy; cbn; congruence).
Qed.

(** A non-negative number below another number is finite. *)
Lemma between_is_finite (x y : float) :
  (0 <=? x)%float = true -> (x <? y)%float = true -> is_finite x = true.
Proof.
  intros H0 Hlt. unfold is_finite. rewrite (leb_is_nan_r _ _ H0). cbn.
  unfold is_infinity. rewrite eqb_spec, abs_spec.
  change (Prim2SF infinity) with (S754_infinity false).
  rewrite ltb_spec in Hlt. rewrite leb_spec in H0.
  change (Prim2SF 0) with (S754_zero false) in H0.
  unfold SFltb in Hlt. unfold SFleb in H0. unfold SFeqb.
  destruct (Prim2SF x) as [s|s| |s m e]; cbn in *; try reflexivity.
  destruct s; [discriminate|].
  destruct (Prim2SF y) as [sy|sy| |sy my ey]; cbn in Hlt; try discriminate.
  now destruct sy.
Qed.

Lemma get_sign_pos (y : float) : (0 <? y)%float = true -> get_sign y = false.
Proof.
  intros H. unfold get_sign.
  pose proof (ltb_pos_not y H) as Hn. unfold JS.not in Hn.
  apply orb_false_iff in Hn as [_ Hz]. rewrite Hz. cbv zeta.
  change zero with 0%float.
  destruct (y <? 0)%float eqn:E; [|reflexivity].
  apply ltb_not_leb in E. apply ltb_leb in H. congruence.
Qed.

Lemma min_le (x y : float) :
  (0 <? y)%float = true -> (x <=? y)%float = true -> JS.min x y = x.
Proof.
  intros Hy H. unfold JS.min.
  rewrite (leb_is_nan_l _ _ H), (leb_is_nan_r _ _ H). cbn [orb].
  destruct (x <? y)%float; [reflexivity|].
  rewrite (leb_not_ltb _ _ H), (get_sign_pos _ Hy), andb_false_r. reflexivity.
Qed.

Lemma leibniz_eqb_refl (x : float) : PrimFloat.Leibniz.eqb x x = true.
Proof. now apply FloatAxioms.Leibniz.eqb_spec. Qed.

Lemma float_neq (x y : float) : PrimFloat.Leibniz.eqb x y = false -> x <> y.
Proof.
  intros H E. apply FloatAxioms.Leibniz.eqb_spec in E. congruence.
Qed.

(** ** Numbers: subtraction *)

Lemma sub_0_r (x : float) : (x - 0)%float = x.
Proof.
  apply Prim2SF_inj. rewrite sub_spec.
  change (Prim2SF 0) with (S754_zero false).
  now destruct (Prim2SF x) as [[]|[]| |s m e].
Qed.

Lemma sub_diag (x : float) : is_finite x = true -> (x - x)%float = 0%float.
Proof.
  intros Hf. apply Prim2SF_inj. rewrite sub_spec.
  change (Prim2SF 0) with (S754_zero false).
  unfold is_finite, is_nan, is_infinity in Hf.
  rewrite !eqb_spec, abs_spec in Hf.
  change (Prim2SF infinity) with (S754_infinity false) in Hf.
  destruct (Prim2SF x) as [[]|[]| |s m e]; try discriminate; try reflexivity.
  unfold SF64sub, SFsub. now rewrite Z.sub_diag.
Qed.

(** ** Numbers: rounding of quotients and sums

    [SFdiv] divides the mantissas, locates the quotient in a cell of the
    binary64 grid and rounds it to nearest; [SFadd] aligns the mantissas, adds
    them and rounds the sum.  The lemmas follow the exact rational result
    through these steps: division by a positive number is monotone in a
    non-negative numerator, and adding a non-negative number does not
    decrease a non-negative number. *)

Lemma Q2_neq_0 : ~ (2 == 0)%Q.
Proof. discriminate. Qed.

Lemma pow2_pos (e : Z) : (0 < 2 ^ e)%Q.
Proof. apply Qpower_0_lt. reflexivity. Qed.

Lemma pow2_succ (e : Z) : (2 ^ (e + 1) == 2 * 2 ^ e)%Q.
Proof. rewrite Qpower_plus by exact Q2_neq_0. change (2 ^ 1)%Q with 2%Q. ring. Qed.

Lemma pow2_add (a b : Z) : (2 ^ (a + b) == 2 ^ a * 2 ^ b)%Q.
Proof. apply Qpower_plus. exact Q2_neq_0. Qed.

Lemma pow2_le (a b : Z) : a <= b -> (2 ^ a <= 2 ^ b)%Q.
Proof. intros H. apply Qpower_le_compat_l; [exact H|]. discriminate. Qed.

Lemma pow2_inject (n : Z) : 0 <= n -> (inject_Z (2 ^ n) == 2 ^ n)%Q.
Proof. intros H. now rewrite Zpower_Qpower. Qed.

Lemma pow2_split (a b : Z) : 0 <= a -> 0 <= b -> 2 ^ (a + b) = 2 ^ a * 2 ^ b.
Proof. intros. apply Z.pow_add_r; assumption. Qed.

Lemma pow2_gt0 (a : Z) : 0 <= a -> 0 < 2 ^ a.
Proof. intros. apply Z.pow_pos_nonneg; lia. Qed.

Lemma F2Q_le (m n e : Z) : m <= n -> (F2Q m e <= F2Q n e)%Q.
Proof.
  intros H. unfold F2Q. apply Qmult_le_compat_r.
  - now rewrite <- Zle_Qle.
  - apply Qlt_le_weak, pow2_pos.
Qed.

Lemma F2Q_lt (m n e : Z) : m < n -> (F2Q m e < F2Q n e)%Q.
Proof.
  intros H. unfold F2Q. apply Qmult_lt_r; [apply pow2_pos|]. now rewrite <- Zlt_Qlt.
Qed.

Lemma F2Q_lt_inv (m n e : Z) : (F2Q m e < F2Q n e)%Q -> m < n.
Proof.
  unfold F2Q. intros H. apply Qmult_lt_r in H; [|apply pow2_pos]. now rewrite Zlt_Qlt.
Qed.

Lemma F2Q_le_inv (m n e : Z) : (F2Q m e <= F2Q n e)%Q -> m <= n.
Proof.
  intros H. destruct (Z.le_gt_cases m n) as [|Hlt]; [assumption|].
  apply (F2Q_lt n m e) in Hlt. lra.
Qed.

Lemma F2Q_succ (m e : Z) : (F2Q m (e + 1) == F2Q (2 * m) e)%Q.
Proof. unfold F2Q. rewrite pow2_succ, inject_Z_mult. ring. Qed.

Lemma F2Q_exp_le (m e e' : Z) : 0 <= m -> e <= e' -> (F2Q m e <= F2Q m e')%Q.
Proof.
  intros Hm He. unfold F2Q.
  rewrite (Qmult_comm _ (2 ^ e)), (Qmult_comm _ (2 ^ e')).
  apply Qmult_le_compat_r.
  - apply pow2_le. exact He.
  - now rewrite <- (Zle_Qle 0).
Qed.

Lemma F2Q_pos (m e : Z) : 0 < m -> (0 < F2Q m e)%Q.
Proof.
  intros H. unfold F2Q. apply Qmult_lt_0_compat; [|apply pow2_pos].
  now rewrite <- (Zlt_Qlt 0).
Qed.

Lemma digits2_size (p : positive) : digits2_pos p = Pos.size p.
Proof. induction p; cbn; congruence. Qed.

Lemma digits2_bounds (p : positive) :
  2 ^ (Zpos (digits2_pos p) - 1) <= Zpos p < 2 ^ Zpos (digits2_pos p).
Proof.
  rewrite digits2_size. pose proof (Pos.size_gt p) as Hgt. pose proof (Pos.size_le p) as Hle.
  assert (Zpos (2 ^ Pos.size p) = 2 ^ Zpos (Pos.size p)) as E by apply Pos2Z.inj_pow.
  split.
  - assert (2 ^ Zpos (Pos.size p) = 2 * 2 ^ (Zpos (Pos.size p) - 1)) as E2.
    { rewrite <- Z.pow_succ_r by lia. f_equal. lia. }
    assert (Zpos (2 ^ Pos.size p) <= Zpos p~0) by (apply Pos2Z.pos_le_pos; exact Hle).
    rewrite Pos2Z.inj_xO in *. lia.
  - rewrite <- E. apply Pos2Z.pos_lt_pos. exact Hgt.
Qed.

Lemma Zdigits2_bounds (m : Z) : 0 <= m -> 0 <= Zdigits2 m /\ m < 2 ^ Zdigits2 m /\
   (0 < m -> 2 ^ (Zdigits2 m - 1) <= m).
Proof.
  intros H. destruct m as [|p|p]; [cbn; lia| |lia].
  pose proof (digits2_bounds p). cbn [Zdigits2]. repeat split; lia.
Qed.

Lemma Zdigits2_le (r k : Z) : 0 <= r < 2 ^ k -> 0 <= k -> Zdigits2 r <= k.
Proof.
  intros [H0 H1] Hk. destruct (Z.eq_dec r 0) as [->|Hne]; [cbn; lia|].
  destruct (Zdigits2_bounds r H0) as (Hd0 & _ & Hdl).
  specialize (Hdl ltac:(lia)).
  assert (2 ^ (Zdigits2 r - 1) < 2 ^ k) as Hlt by lia.
  apply Z.pow_lt_mono_r_iff in Hlt; lia.
Qed.

Lemma fexp64 (e : Z) : fexp 53 1024 e = Z.max (e - 53) (-1074).
Proof. reflexivity. Qed.

Lemma shr_1_eq (m : Z) (r s : bool) :
  0 <= m ->
  shr_1 {| shr_m := m; shr_r := r; shr_s := s |}
  = {| shr_m := Z.div2 m; shr_r := Z.odd m; shr_s := r || s |}.
Proof. intros H. destruct m as [|[p|p|]|]; try reflexivity. lia. Qed.

Lemma located_cell (m e : Z) (l : location) (x : Q) :
  located m e l x -> (F2Q m e <= x)%Q /\ (x < F2Q (m + 1) e)%Q.
Proof.
  destruct l as [|c]; cbn.
  - intros ->. split; [apply Qle_refl|]. apply F2Q_lt. lia.
  - intros (H1 & H2 & _). split; [now apply Qlt_le_weak|assumption].
Qed.

Lemma located_compare (m e : Z) (c : comparison) (x : Q) :
  located m e (loc_Inexact c) x ->
  match c with
  | Lt => (x + x < F2Q (2 * m + 1) e)%Q
  | Eq => (x + x == F2Q (2 * m + 1) e)%Q
  | Gt => (F2Q (2 * m + 1) e < x + x)%Q
  end.
Proof.
  intros (_ & _ & H). destruct c.
  - now apply Qeq_alt. - now apply Qlt_alt. - now apply Qgt_alt.
Qed.

Lemma shr_1_located (mrs : shr_record) (e : Z) (x : Q) :
  rec_located mrs e x -> rec_located (shr_1 mrs) (e + 1) x.
Proof.
  destruct mrs as [m r s]. unfold rec_located. cbn [shr_m]. intros [Hm H].
  rewrite (shr_1_eq m r s Hm). cbn [shr_m].
  assert (0 <= Z.div2 m) as Hh by (rewrite Z.div2_div; apply Z.div_pos; lia).
  split; [exact Hh|].
  pose proof (Z.div2_odd m) as Em. set (h := Z.div2 m) in *.
  pose proof (pow2_pos e) as HP.
  set (b := (if Z.odd m then 1 else 0)%Q).
  assert (inject_Z m == 2 * inject_Z h + b)%Q as EM.
  { rewrite Em at 1. rewrite inject_Z_plus, inject_Z_mult.
    subst b. destruct (Z.odd m); reflexivity. }
  assert (F2Q m e == 2 * F2Q h e + b * 2 ^ e)%Q as K1.
  { unfold F2Q. rewrite EM. ring. }
  assert (F2Q (m + 1) e == 2 * F2Q h e + b * 2 ^ e + 2 ^ e)%Q as K2.
  { unfold F2Q. rewrite inject_Z_plus, EM. change (inject_Z 1) with 1%Q. ring. }
  assert (F2Q (2 * m + 1) e == 4 * F2Q h e + 2 * b * 2 ^ e + 2 ^ e)%Q as K3.
  { unfold F2Q. rewrite inject_Z_plus, inject_Z_mult, EM.
    change (inject_Z 1) with 1%Q. change (inject_Z 2) with 2%Q. ring. }
  assert (F2Q h (e + 1) == 2 * F2Q h e)%Q as K4.
  { unfold F2Q. rewrite pow2_succ. ring. }
  assert (F2Q (h + 1) (e + 1) == 2 * F2Q h e + 2 * 2 ^ e)%Q as K5.
  { unfold F2Q. rewrite pow2_succ, inject_Z_plus. change (inject_Z 1) with 1%Q. ring. }
  assert (F2Q (2 * h + 1) (e + 1) == 4 * F2Q h e + 2 * 2 ^ e)%Q as K6.
  { unfold F2Q. rewrite pow2_succ, inject_Z_plus, inject_Z_mult.
    change (inject_Z 1) with 1%Q. change (inject_Z 2) with 2%Q. ring. }
  set (A := F2Q h e) in *. set (P := (2 ^ e)%Q) in *.
  assert (forall c, located m e (loc_Inexact c) x ->
            (2 * A + b * P < x)%Q /\ (x < 2 * A + b * P + P)%Q /\
            Qcompare (x + x) (4 * A + 2 * b * P + P) = c) as HI.
  { intros c (H1 & H2 & H3). now rewrite K1 in H1; rewrite K2 in H2; rewrite K3 in H3. }
  assert (located m e loc_Exact x -> x == 2 * A + b * P)%Q as HE.
  { cbn. now rewrite K1. }
  assert (x == 2 * A -> located h (e + 1) loc_Exact x)%Q as HGE.
  { cbn. now rewrite K4. }
  assert (forall c, (2 * A < x)%Q -> (x < 2 * A + 2 * P)%Q ->
                    Qcompare (x + x) (4 * A + 2 * P) = c ->
                    located h (e + 1) (loc_Inexact c) x) as HG.
  { intros c H1 H2 H3. cbn. now rewrite K4, K5, K6. }
  clearbody A P. clear K1 K2 K3 K4 K5 K6 EM Em.
  destruct r, s; cbn [loc_of_shr_record orb] in *.
  1-3: apply HI in H; destruct H as (H1 & H2 & H3).
  1: apply Qgt_alt in H3. 2: apply Qeq_alt in H3. 3: apply Qlt_alt in H3.
  4: apply HE in H.
  all: subst b; destruct (Z.odd m); cbn [loc_of_shr_record].
  all: try (apply HG; [lra | lra | first [apply (proj1 (Qlt_alt _ _)); lra
                                          | apply (proj1 (Qgt_alt _ _)); lra
                                          | apply (proj1 (Qeq_alt _ _)); lra]]).
  apply HGE. lra.
Qed.

Lemma shr_1_m (mrs : shr_record) :
  0 <= shr_m mrs -> shr_m (shr_1 mrs) = shr_m mrs / 2.
Proof.
  destruct mrs as [m r s]. cbn [shr_m]. intros H.
  rewrite (shr_1_eq m r s H). cbn [shr_m]. apply Z.div2_div.
Qed.

Lemma iter_shr_1 (p : positive) :
  forall (mrs : shr_record) (e : Z) (x : Q),
    rec_located mrs e x ->
    rec_located (iter_pos shr_1 p mrs) (e + Zpos p) x /\
    shr_m (iter_pos shr_1 p mrs) = shr_m mrs / 2 ^ Zpos p.
Proof.
  induction p as [p IH|p IH|]; intros mrs e x H; cbn [iter_pos].
  - pose proof (shr_1_located _ _ _ H) as H1.
    destruct (IH _ _ _ H1) as [H2 E2]. destruct (IH _ _ _ H2) as [H3 E3].
    split.
    + replace (e + Zpos p~1) with (e + 1 + Zpos p + Zpos p) by lia. exact H3.
    + rewrite E3, E2, (shr_1_m _ (proj1 H)).
      rewrite !Z.div_div by lia. f_equal.
      rewrite <- !Z.pow_add_r by lia. change 2 with (2 ^ 1) at 1.
      rewrite <- Z.pow_add_r by lia. f_equal. lia.
  - destruct (IH _ _ _ H) as [H2 E2]. destruct (IH _ _ _ H2) as [H3 E3].
    split.
    + replace (e + Zpos p~0) with (e + Zpos p + Zpos p) by lia. exact H3.
    + rewrite E3, E2. rewrite !Z.div_div by lia. f_equal.
      rewrite <- !Z.pow_add_r by lia. f_equal. lia.
  - split; [exact (shr_1_located _ _ _ H)|]. rewrite (shr_1_m _ (proj1 H)). reflexivity.
Qed.

Lemma loc_of_record_of_loc (m : Z) (l : location) :
  loc_of_shr_record (shr_record_of_loc m l) = l /\ shr_m (shr_record_of_loc m l) = m.
Proof. destruct l as [|[]]; split; reflexivity. Qed.

Lemma shr_fexp_cell (m e : Z) (l : location) (x : Q) :
  0 <= m -> located m e l x -> e <= fexp 53 1024 (Zdigits2 m + e) ->
  exists (m1 e1 : Z) (l1 : location),
    shr_fexp 53 1024 m e l = (shr_record_of_loc m1 l1, e1) /\
    located m1 e1 l1 x /\ cell m1 e1.
Proof.
  intros Hm Hl He. unfold shr_fexp, shr.
  destruct (Zdigits2_bounds m Hm) as (Hd0 & Hdu & Hdl).
  rewrite fexp64 in *. set (d := Zdigits2 m) in *.
  destruct (loc_of_record_of_loc m l) as [El Em].
  assert (rec_located (shr_record_of_loc m l) e x) as Hrec.
  { split; [now rewrite Em|]. now rewrite El, Em. }
  destruct (Z.max (d + e - 53) (-1074) - e) as [|p|p] eqn:En; [| |lia].
  - exists m, e, l. split; [reflexivity|]. split; [exact Hl|].
    assert (d <= 53) by lia.
    assert (2 ^ d <= 2 ^ 53) by (apply Z.pow_le_mono_r; lia).
    repeat split; try lia.
    destruct (Z.eq_dec e (-1074)) as [|Hne]; [now left|right].
    assert (d = 53) as Hd by lia.
    assert (0 < m) as Hpos by (destruct m; cbn in *; lia).
    specialize (Hdl Hpos). rewrite Hd in Hdl. exact Hdl.
  - destruct (iter_shr_1 p _ _ _ Hrec) as [[Hm1 Hl1] Em1].
    set (mrs := iter_pos shr_1 p (shr_record_of_loc m l)) in *.
    exists (shr_m mrs), (e + Zpos p), (loc_of_shr_record mrs).
    split.
    { f_equal. destruct mrs as [m' [] []]; reflexivity. }
    split; [exact Hl1|].
    rewrite Em in Em1.
    assert (0 < 2 ^ Zpos p) by (apply pow2_gt0; lia).
    repeat split; try lia.
    + rewrite Em1. apply Z.div_lt_upper_bound; [lia|].
      rewrite <- pow2_split by lia.
      apply Z.lt_le_trans with (1 := Hdu). apply Z.pow_le_mono_r; lia.
    + destruct (Z.eq_dec (e + Zpos p) (-1074)) as [|Hne]; [now left|right].
      assert (Zpos p = d - 53) as Hp by lia.
      assert (0 < m) as Hpos by (destruct m; cbn in *; lia).
      specialize (Hdl Hpos).
      rewrite Em1. apply Z.div_le_lower_bound; [lia|].
      rewrite Hp, <- pow2_split by lia.
      replace (d - 53 + 52) with (d - 1) by lia. exact Hdl.
Qed.

Lemma round_nearest_even_range (m : Z) (l : location) :
  round_nearest_even m l = m \/ round_nearest_even m l = m + 1.
Proof. destruct l as [|[]]; cbn; auto. destruct (Z.even m); auto. Qed.

Lemma binary_round_aux_cell (s : bool) (m e : Z) (l : location) (x : Q) :
  0 <= m -> located m e l x -> e <= fexp 53 1024 (Zdigits2 m + e) ->
  exists (m1 e1 : Z) (l1 : location),
    located m1 e1 l1 x /\ cell m1 e1 /\
    binary_round_aux 53 1024 s m e l = rounded s m1 e1 l1.
Proof.
  intros Hm Hl He.
  destruct (shr_fexp_cell m e l x Hm Hl He) as (m1 & e1 & l1 & E & Hl1 & Hc).
  exists m1, e1, l1. split; [exact Hl1|]. split; [exact Hc|].
  unfold binary_round_aux. rewrite E.
  destruct (loc_of_record_of_loc m1 l1) as [-> ->].
  destruct Hc as ((Hm0 & Hm1) & He1 & Hn).
  unfold rounded, renorm.
  set (r := round_nearest_even m1 l1).
  assert (0 <= r <= 2 ^ 53) as Hr
      by (destruct (round_nearest_even_range m1 l1); fold r in H; lia).
  destruct (Z.ltb_spec r (2 ^ 53)) as [Hlt|Hge].
  - unfold shr_fexp, shr. rewrite fexp64.
    pose proof (Zdigits2_le r 53 ltac:(lia) ltac:(lia)) as Hd.
    destruct (Z.max (Zdigits2 r + e1 - 53) (-1074) - e1) as [|p|p] eqn:En; [| lia |];
      cbn [shr_record_of_loc shr_m]; unfold finish; destruct r; reflexivity.
  - assert (r = 2 ^ 53) as -> by lia.
    unfold shr_fexp, shr. rewrite fexp64.
    change (Zdigits2 (2 ^ 53)) with 54.
    replace (Z.max (54 + e1 - 53) (-1074) - e1) with 1 by lia.
    cbn [shr_record_of_loc iter_pos]. reflexivity.
Qed.

Lemma SFleb_finite (p1 p2 : positive) (e1 e2 : Z) :
  e1 < e2 \/ (e1 = e2 /\ Zpos p1 <= Zpos p2) ->
  SFleb (S754_finite false p1 e1) (S754_finite false p2 e2) = true.
Proof.
  intros H. unfold SFleb, SFcompare.
  destruct (Z.compare_spec e1 e2) as [E|E|E]; [|reflexivity|lia].
  change (Pos.compare_cont Eq p1 p2) with (Pos.compare p1 p2).
  destruct (Pos.compare_spec p1 p2) as [E'|E'|E']; try reflexivity. lia.
Qed.

Lemma SFleb_finish (r1 e1 r2 e2 : Z) :
  0 <= r1 <= 2 ^ 53 -> 0 <= r2 <= 2 ^ 53 ->
  (e1 = e2 /\ r1 <= r2) \/ (e1 < e2 /\ 2 ^ 52 <= r2) ->
  SFleb (let (r, e) := renorm r1 e1 in finish false r e)
        (let (r, e) := renorm r2 e2 in finish false r e) = true.
Proof.
  intros H1 H2 H. unfold renorm.
  destruct (Z.ltb_spec r1 (2 ^ 53)), (Z.ltb_spec r2 (2 ^ 53)); unfold finish.
  all: change (2 ^ 52) with 4503599627370496 in *.
  all: change (2 ^ 53) with 9007199254740992 in *.
  all: destruct r1 as [|p1|p1]; try lia; destruct r2 as [|p2|p2]; try lia.
  all: repeat match goal with
         | |- context [?a <=? 971] => destruct (Z.leb_spec a 971)
         end.
  all: try reflexivity.
  all: try (apply SFleb_finite; lia).
  all: exfalso; lia.
Qed.

Lemma round_same_cell (m e : Z) (l1 l2 : location) (x1 x2 : Q) :
  (x1 <= x2)%Q -> located m e l1 x1 -> located m e l2 x2 ->
  round_nearest_even m l1 <= round_nearest_even m l2.
Proof.
  intros Hx H1 H2.
  assert (F2Q (2 * m + 1) e == 2 * F2Q m e + 2 ^ e)%Q as K.
  { unfold F2Q. rewrite inject_Z_plus, inject_Z_mult.
    change (inject_Z 1) with 1%Q. change (inject_Z 2) with 2%Q. ring. }
  assert (F2Q (m + 1) e == F2Q m e + 2 ^ e)%Q as K'.
  { unfold F2Q. rewrite inject_Z_plus. change (inject_Z 1) with 1%Q. ring. }
  pose proof (pow2_pos e) as HP.
  pose proof (located_cell _ _ _ _ H1) as [A1 B1].
  pose proof (located_cell _ _ _ _ H2) as [A2 B2].
  destruct l1 as [|c1], l2 as [|c2].
  - cbn. lia.
  - destruct (round_nearest_even_range m (loc_Inexact c2)) as [-> | ->]; cbn; lia.
  - exfalso. destruct H1 as (H1 & _). cbn in H2. rewrite H2 in Hx. lra.
  - apply located_compare in H1 as C1. apply located_compare in H2 as C2.
    destruct c1, c2; rewrite K in C1, C2;
      cbn; try lia; try (destruct (Z.even m); lia); exfalso; lra.
Qed.

Lemma rounded_mono (m1 e1 m2 e2 : Z) (l1 l2 : location) (x1 x2 : Q) :
  (x1 <= x2)%Q ->
  located m1 e1 l1 x1 -> cell m1 e1 ->
  located m2 e2 l2 x2 -> cell m2 e2 ->
  SFleb (rounded false m1 e1 l1) (rounded false m2 e2 l2) = true.
Proof.
  intros Hx H1 ((Hm1 & Hm1') & He1 & Hn1) H2 ((Hm2 & Hm2') & He2 & Hn2).
  pose proof (located_cell _ _ _ _ H1) as [A1 B1].
  pose proof (located_cell _ _ _ _ H2) as [A2 B2].
  unfold rounded. apply SFleb_finish.
  - destruct (round_nearest_even_range m1 l1) as [-> | ->]; lia.
  - destruct (round_nearest_even_range m2 l2) as [-> | ->]; lia.
  - destruct (Z.lt_trichotomy e1 e2) as [Hlt | [Heq | Hgt]].
    + right. split; [exact Hlt|].
      destruct (round_nearest_even_range m2 l2) as [-> | ->]; lia.
    + left. split; [exact Heq|]. subst e2.
      assert (m1 <= m2) as Hle.
      { assert (F2Q m1 e1 < F2Q (m2 + 1) e1)%Q as Hlt by lra.
        apply F2Q_lt_inv in Hlt. lia. }
      destruct (Z.eq_dec m1 m2) as [->|Hne].
      * exact (round_same_cell m2 e1 l1 l2 x1 x2 Hx H1 H2).
      * destruct (round_nearest_even_range m1 l1) as [-> | ->],
                 (round_nearest_even_range m2 l2) as [-> | ->]; lia.
    + exfalso.
      assert (2 ^ 52 <= m1) as Hfull by lia.
      pose proof (F2Q_le _ _ e1 Hfull) as L1.
      assert (m2 + 1 <= 2 ^ 53) as Hm2'' by lia.
      pose proof (F2Q_le _ _ e2 Hm2'') as L2.
      pose proof (F2Q_succ (2 ^ 52) e2) as L3.
      change (2 * 2 ^ 52) with (2 ^ 53) in L3.
      pose proof (F2Q_exp_le (2 ^ 52) (e2 + 1) e1 ltac:(lia) ltac:(lia)) as L4.
      lra.
Qed.

(** The rounded value of a cell is a number, and it is not negative. *)
Lemma rounded_nonneg (m e : Z) (l : location) :
  0 <= m ->
  rounded false m e l = S754_zero false \/
  rounded false m e l = S754_infinity false \/
  exists p e', rounded false m e l = S754_finite false p e'.
Proof.
  intros Hm. unfold rounded, renorm.
  assert (0 <= round_nearest_even m l)
    by (destruct (round_nearest_even_range m l) as [-> | ->]; lia).
  destruct (round_nearest_even m l <? 2 ^ 53); unfold finish.
  - destruct (round_nearest_even m l) as [|p|p]; [now left| |lia].
    destruct (e <=? 971); [right; right; eauto|right; now left].
  - change (2 ^ 52) with (Zpos 4503599627370496).
    destruct (e + 1 <=? 971); [right; right; eauto|right; now left].
Qed.

Lemma rounded_signed (s : bool) (m e : Z) (l : location) :
  0 <= m ->
  rounded s m e l = S754_zero s \/
  rounded s m e l = S754_infinity s \/
  exists p e', rounded s m e l = S754_finite s p e'.
Proof.
  intros Hm. unfold rounded, renorm.
  assert (0 <= round_nearest_even m l)
    by (destruct (round_nearest_even_range m l) as [-> | ->]; lia).
  destruct (round_nearest_even m l <? 2 ^ 53); unfold finish.
  - destruct (round_nearest_even m l) as [|p|p]; [now left| |lia].
    destruct (e <=? 971); [right; right; eauto|right; now left].
  - change (2 ^ 52) with (Zpos 4503599627370496).
    destruct (e + 1 <=? 971); [right; right; eauto|right; now left].
Qed.

Lemma new_location_spec (n k : Z) :
  0 < n -> 0 <= k < n ->
  new_location n k = if k =? 0 then loc_Exact else loc_Inexact (Z.compare (2 * k) n).
Proof.
  intros Hn Hk. unfold new_location, new_location_even, new_location_odd.
  destruct (Z.even n) eqn:Ev; [reflexivity|].
  destruct (k =? 0); [reflexivity|]. f_equal.
  assert (Z.odd n = true) as Ho by (rewrite <- Z.negb_even, Ev; reflexivity).
  apply Z.odd_spec in Ho as [a Ha].
  destruct (Z.compare_spec (2 * k + 1) n), (Z.compare_spec (2 * k) n);
    try reflexivity; lia.
Qed.

Lemma SFdiv_core_located (mx my : positive) (ex ey : Z) :
  exists (q e : Z) (l : location),
    SFdiv_core_binary 53 1024 (Zpos mx) ex (Zpos my) ey = (q, e, l) /\
    0 <= q /\
    located q e l (F2Q (Zpos mx) ex / F2Q (Zpos my) ey) /\
    e <= fexp 53 1024 (Zdigits2 q + e).
Proof.
  unfold SFdiv_core_binary. rewrite !fexp64.
  cbn [Zdigits2].
  pose proof (digits2_bounds mx) as [Hx1 Hx2].
  pose proof (digits2_bounds my) as [Hy1 Hy2].
  set (d1 := Zpos (digits2_pos mx)) in *. set (d2 := Zpos (digits2_pos my)) in *.
  assert (0 < d1) as Hd1 by (subst d1; lia).
  assert (0 < d2) as Hd2 by (subst d2; lia).
  set (E := d1 + ex - (d2 + ey)).
  set (e' := Z.min (Z.max (E - 53) (-1074)) (ex - ey)).
  set (s := ex - ey - e').
  assert (0 <= s) as Hs by (subst s e'; lia).
  set (m' := match s with
             | 0 => Z.pos mx
             | Z.pos _ => Z.shiftl (Z.pos mx) s
             | Z.neg _ => 0
             end).
  assert (m' = Zpos mx * 2 ^ s) as Em'.
  { subst m'. destruct s as [|p|p] eqn:Es; [lia| |lia].
    now rewrite Z.shiftl_mul_pow2 by lia. }
  clearbody m'.
  pose proof (Z_div_mod m' (Zpos my) ltac:(lia)) as Hdiv.
  destruct (Z.div_eucl m' (Zpos my)) as [q r]. destruct Hdiv as [Hqr Hr].
  assert (0 < 2 ^ s) as Hps by (apply pow2_gt0; lia).
  assert (0 < m') as Hm' by (rewrite Em'; apply Z.mul_pos_pos; lia).
  assert (0 <= q) as Hq.
  { destruct (Z_le_gt_dec 0 q) as [|Hneg]; [assumption|exfalso].
    assert (Zpos my * q <= Zpos my * (-1)) by (apply Z.mul_le_mono_nonneg_l; lia).
    lia. }
  exists q, e', (new_location (Zpos my) r).
  split; [reflexivity|]. split; [exact Hq|]. split.
  - (* the quotient lies in the cell of q *)
    rewrite (new_location_spec (Zpos my) r (Pos2Z.is_pos my) Hr).
    set (X := (F2Q (Zpos mx) ex / F2Q (Zpos my) ey)%Q).
    pose proof (F2Q_pos (Zpos my) ey ltac:(lia)) as HY.
    pose proof (pow2_pos e') as HP.
    assert (0 < inject_Z (Zpos my))%Q as HMY by (now rewrite <- (Zlt_Qlt 0)).
    assert (X * inject_Z (Zpos my) == (inject_Z q * inject_Z (Zpos my) + inject_Z r) * 2 ^ e')%Q
      as HX.
    { subst X. unfold F2Q.
      replace ex with (s + e' + ey) at 1 by (subst s; lia).
      rewrite !pow2_add, <- (pow2_inject s Hs).
      assert (inject_Z (Zpos mx) * inject_Z (2 ^ s)
              == inject_Z (Zpos my) * inject_Z q + inject_Z r)%Q as Hmul.
      { rewrite <- !inject_Z_mult, <- inject_Z_plus.
        apply inject_Z_injective. lia. }
      transitivity ((inject_Z (Zpos mx) * inject_Z (2 ^ s)) * 2 ^ e')%Q.
      - field. split.
        + pose proof (pow2_pos ey). lra.
        + lra.
      - rewrite Hmul. ring. }
    assert (forall k, F2Q k e' * inject_Z (Zpos my)
                      == (inject_Z k * inject_Z (Zpos my)) * 2 ^ e')%Q as HF
        by (intros k; unfold F2Q; ring).
    set (Y := inject_Z (Zpos my)) in *.
    assert (forall a b : Q, (a * Y < b * Y -> a < b)%Q) as Hlt
        by (intros a b Hab; now apply Qmult_lt_r in Hab).
    assert (forall a b : Q, (a * Y == b * Y -> a == b)%Q) as Heq
        by (intros a b Hab; apply Qmult_inj_r in Hab; [exact Hab|lra]).
    assert (inject_Z (q + 1) == inject_Z q + 1)%Q as ES
        by (rewrite inject_Z_plus; reflexivity).
    assert (inject_Z (2 * q + 1) == 2 * inject_Z q + 1)%Q as ES2
        by (rewrite inject_Z_plus, inject_Z_mult; reflexivity).
    assert (inject_Z r < Y)%Q as HrY by (subst Y; rewrite <- Zlt_Qlt; lia).
    assert (0 <= inject_Z r)%Q as Hr0 by (rewrite <- (Zle_Qle 0); lia).
    destruct (Z.eqb_spec r 0) as [->|Hr0'].
    + cbn [located]. apply Heq. rewrite HX, HF. change (inject_Z 0) with 0%Q. ring.
    + assert (0 < inject_Z r)%Q as Hrp by (rewrite <- (Zlt_Qlt 0); lia).
      set (P := (2 ^ e')%Q) in *.
      assert (0 < inject_Z r * P)%Q as HRP by (apply Qmult_lt_0_compat; assumption).
      assert (inject_Z r * P < Y * P)%Q as HRP' by (now apply Qmult_lt_r).
      cbn [located]. split; [|split].
      * apply Hlt. rewrite HX, HF. lra.
      * apply Hlt. rewrite HX, HF, ES. lra.
      * assert ((X + X) * Y == (2 * inject_Z q * Y + 2 * inject_Z r) * P)%Q as HX2
            by (rewrite Qmult_plus_distr_l, HX; ring).
        assert (F2Q (2 * q + 1) e' * Y == (2 * inject_Z q * Y + Y) * P)%Q as HF2
            by (rewrite HF, ES2; ring).
        assert (inject_Z (2 * r) == 2 * inject_Z r)%Q as E2r
            by (rewrite inject_Z_mult; reflexivity).
        destruct (Z.compare_spec (2 * r) (Zpos my)) as [C|C|C].
        -- apply (proj1 (Qeq_alt _ _)). apply Heq. rewrite HX2, HF2.
           assert (2 * inject_Z r == Y)%Q as <- by (rewrite <- E2r; subst Y; now rewrite C).
           ring.
        -- apply (proj1 (Qlt_alt _ _)). apply Hlt. rewrite HX2, HF2.
           assert (2 * inject_Z r < Y)%Q as C' by (rewrite <- E2r; subst Y; now rewrite <- Zlt_Qlt).
           assert (2 * inject_Z r * P < Y * P)%Q by (now apply Qmult_lt_r). lra.
        -- apply (proj1 (Qgt_alt _ _)). apply Hlt. rewrite HX2, HF2.
           assert (Y < 2 * inject_Z r)%Q as C' by (rewrite <- E2r; subst Y; now rewrite <- Zlt_Qlt).
           assert (Y * P < 2 * inject_Z r * P)%Q by (now apply Qmult_lt_r). lra.
  - (* the exponent is not above the one of the format *)
    rewrite fexp64.
    destruct (Z.eq_dec q 0) as [->|Hq0].
    + cbn [Zdigits2]. 
      (* q = 0: the exponent is at most the least one *)
      destruct (Z_le_gt_dec e' (-1074)) as [|Hgt]; [lia|exfalso].
      assert (e' <= E - 53) as He by (subst e'; lia).
      assert (d2 + 52 <= d1 - 1 + s) as Hk by (subst s E; lia).
      assert (2 ^ (d2 + 52) <= 2 ^ (d1 - 1 + s)) as Hp by (apply Z.pow_le_mono_r; lia).
      rewrite (pow2_split (d1 - 1) s) in Hp by lia.
      assert (2 ^ d2 <= 2 ^ (d2 + 52)) by (apply Z.pow_le_mono_r; lia).
      nia.
    + assert (0 < q) as Hqp by lia.
      destruct (Zdigits2_bounds q Hq) as (Hdq0 & Hdq & _).
      set (dq := Zdigits2 q) in *.
      assert (E <= dq + e').
      { destruct (Z_le_gt_dec (d1 + s - d2) dq) as [|Hgt]; [subst s E; lia|exfalso].
        (* otherwise q would be below 2^(d1+s-d2-1) *)
        assert (2 ^ dq <= 2 ^ (d1 + s - d2 - 1)) as Hp by (apply Z.pow_le_mono_r; lia).
        assert (2 ^ (d1 - 1 + s) = 2 ^ (d1 + s - d2 - 1) * 2 ^ d2) as Hsplit.
        { rewrite <- pow2_split by lia. f_equal. lia. }
        assert (2 ^ (d1 - 1 + s) = 2 ^ (d1 - 1) * 2 ^ s) as Hsplit2
            by (apply pow2_split; lia).
        assert (0 < 2 ^ d2) by (apply pow2_gt0; lia).
        assert (0 < 2 ^ (d1 + s - d2 - 1)) by (apply pow2_gt0; lia).
        nia. }
      subst e'. lia.
Qed.

Lemma bounded_cell (m : positive) (e : Z) :
  bounded 53 1024 m e = true -> cell (Zpos m) e.
Proof.
  unfold bounded, canonical_mantissa. rewrite fexp64.
  intros [Hc _]%andb_true_iff. apply Z.eqb_eq in Hc.
  pose proof (digits2_bounds m) as [Hl Hu].
  set (d := Zpos (digits2_pos m)) in *.
  assert (d <= 53) by lia.
  assert (2 ^ d <= 2 ^ 53) by (apply Z.pow_le_mono_r; lia).
  repeat split; try lia.
  destruct (Z.eq_dec e (-1074)) as [|Hne]; [now left|right].
  assert (d = 53) as Hd by lia. rewrite Hd in Hl. exact Hl.
Qed.

Lemma SFleb_value (m1 m2 : positive) (e1 e2 : Z) :
  cell (Zpos m1) e1 -> cell (Zpos m2) e2 ->
  SFleb (S754_finite false m1 e1) (S754_finite false m2 e2) = true ->
  (F2Q (Zpos m1) e1 <= F2Q (Zpos m2) e2)%Q.
Proof.
  intros ((_ & Hm1) & He1 & _) (_ & He2 & Hn2). unfold SFleb, SFcompare.
  destruct (Z.compare_spec e1 e2) as [E|E|E]; [| |discriminate].
  - subst e2. change (Pos.compare_cont Eq m1 m2) with (Pos.compare m1 m2).
    destruct (Pos.compare_spec m1 m2) as [E'|E'|E']; try discriminate; intros _;
      apply F2Q_le; lia.
  - intros _.
    assert (2 ^ 52 <= Zpos m2) as Hfull by lia.
    pose proof (F2Q_le _ _ e2 Hfull) as L1.
    assert (Zpos m1 <= 2 ^ 53) as Hm1' by lia.
    pose proof (F2Q_le _ _ e1 Hm1') as L2.
    pose proof (F2Q_succ (2 ^ 52) e1) as L3.
    change (2 * 2 ^ 52) with (2 ^ 53) in L3.
    pose proof (F2Q_exp_le (2 ^ 52) (e1 + 1) e2 ltac:(lia) ltac:(lia)) as L4.
    lra.
Qed.

Lemma SFdiv_finite (s1 s2 : bool) (mx my : positive) (ex ey : Z) :
  exists (m e : Z) (l : location),
    located m e l (F2Q (Zpos mx) ex / F2Q (Zpos my) ey) /\ cell m e /\
    SFdiv 53 1024 (S754_finite s1 mx ex) (S754_finite s2 my ey)
    = rounded (xorb s1 s2) m e l.
Proof.
  destruct (SFdiv_core_located mx my ex ey) as (q & e & l & E & Hq & Hl & He).
  destruct (binary_round_aux_cell (xorb s1 s2) q e l _ Hq Hl He)
    as (m1 & e1 & l1 & Hl1 & Hc & Er).
  exists m1, e1, l1. split; [exact Hl1|]. split; [exact Hc|].
  cbn [SFdiv]. rewrite E. exact Er.
Qed.

Lemma SFdiv_pos_mono (m1 m2 my : positive) (e1 e2 ey : Z) :
  bounded 53 1024 m1 e1 = true -> bounded 53 1024 m2 e2 = true ->
  SFleb (S754_finite false m1 e1) (S754_finite false m2 e2) = true ->
  SFleb (SFdiv 53 1024 (S754_finite false m1 e1) (S754_finite false my ey))
        (SFdiv 53 1024 (S754_finite false m2 e2) (S754_finite false my ey)) = true.
Proof.
  intros B1 B2 Hle.
  pose proof (SFleb_value _ _ _ _ (bounded_cell _ _ B1) (bounded_cell _ _ B2) Hle) as Hv.
  destruct (SFdiv_finite false false m1 my e1 ey) as (a1 & b1 & l1 & H1 & C1 & ->).
  destruct (SFdiv_finite false false m2 my e2 ey) as (a2 & b2 & l2 & H2 & C2 & ->).
  cbn [xorb]. refine (rounded_mono a1 b1 a2 b2 l1 l2 _ _ _ H1 C1 H2 C2).
  pose proof (F2Q_pos (Zpos my) ey ltac:(lia)) as HY.
  unfold Qdiv. apply Qmult_le_compat_r; [exact Hv|].
  apply Qlt_le_weak, Qinv_lt_0_compat, HY.
Qed.

Lemma iter_xO (m p : positive) :
  Zpos (Pos.iter xO m p) = Zpos m * 2 ^ Zpos p /\
  Zpos (digits2_pos (Pos.iter xO m p)) = Zpos (digits2_pos m) + Zpos p.
Proof.
  apply (Pos.iter_ind positive xO m
           (fun p a => Zpos a = Zpos m * 2 ^ Zpos p /\
                       Zpos (digits2_pos a) = Zpos (digits2_pos m) + Zpos p)).
  - cbn [digits2_pos]. split; lia.
  - intros q a [Ha Hd]. cbn [digits2_pos]. split.
    + rewrite Pos2Z.inj_xO, Ha, Pos2Z.inj_succ, Z.pow_succ_r by lia. lia.
    + lia.
Qed.

(** Aligning a mantissa to a lower exponent keeps the value and the
    magnitude. *)
Lemma shl_align_spec (m : positive) (e e' : Z) :
  (F2Q (Zpos (fst (shl_align m e e'))) (snd (shl_align m e e')) == F2Q (Zpos m) e)%Q /\
  snd (shl_align m e e') = Z.min e e' /\
  Zpos (digits2_pos (fst (shl_align m e e'))) + snd (shl_align m e e')
  = Zpos (digits2_pos m) + e.
Proof.
  unfold shl_align. destruct (e' - e) as [|d|d] eqn:E; cbn [fst snd].
  - repeat split; try lia; reflexivity.
  - repeat split; try lia; reflexivity.
  - destruct (iter_xO m d) as [Hv Hd]. repeat split; try lia.
    unfold F2Q. rewrite Hv, inject_Z_mult, pow2_inject by lia.
    replace e with (Zpos d + e') by lia. rewrite pow2_add. ring.
Qed.

Lemma binary_round_cell (s : bool) (m : positive) (e : Z) :
  exists (m1 e1 : Z) (l1 : location),
    located m1 e1 l1 (F2Q (Zpos m) e) /\ cell m1 e1 /\
    binary_round 53 1024 s m e = rounded s m1 e1 l1.
Proof.
  unfold binary_round.
  destruct (shl_align_spec m e (fexp 53 1024 (Zpos (digits2_pos m) + e)))
    as (Hv & He & Hd).
  destruct (shl_align m e (fexp 53 1024 (Zpos (digits2_pos m) + e))) as [mz ez].
  cbn [fst snd] in *.
  assert (located (Zpos mz) ez loc_Exact (F2Q (Zpos m) e)) as Hl
      by (cbn; now rewrite Hv).
  apply (binary_round_aux_cell s (Zpos mz) ez loc_Exact _ ltac:(lia) Hl).
  cbn [Zdigits2]. rewrite Hd. lia.
Qed.

Lemma binary_round_signed (s : bool) (m : positive) (e : Z) :
  binary_round 53 1024 s m e = S754_zero s \/
  binary_round 53 1024 s m e = S754_infinity s \/
  exists p e', binary_round 53 1024 s m e = S754_finite s p e'.
Proof.
  destruct (binary_round_cell s m e) as (m1 & e1 & l1 & _ & C & ->).
  apply rounded_signed. destruct C as ((? & _) & _). lia.
Qed.

Lemma rounded_valid (m : positive) (e : Z) :
  bounded 53 1024 m e = true ->
  rounded false (Zpos m) e loc_Exact = S754_finite false m e.
Proof.
  intros B. pose proof (bounded_cell m e B) as ((_ & Hm) & _).
  unfold bounded in B. apply andb_true_iff in B as [_ B].
  change (1024 - 53) with 971 in B.
  unfold rounded, renorm. cbn [round_nearest_even].
  destruct (Z.ltb_spec (Zpos m) (2 ^ 53)); [|lia].
  unfold finish. now rewrite B.
Qed.

Lemma SFleb_refl_finite (m : positive) (e : Z) :
  SFleb (S754_finite false m e) (S754_finite false m e) = true.
Proof. apply SFleb_finite. right. split; lia. Qed.

Lemma SFadd_le (ma mb : positive) (ea eb : Z) :
  bounded 53 1024 ma ea = true ->
  SFleb (S754_finite false ma ea)
        (SFadd 53 1024 (S754_finite false ma ea) (S754_finite false mb eb)) = true.
Proof.
  intros Ba. cbn [SFadd cond_Zopp].
  destruct (shl_align_spec ma ea (Z.min ea eb)) as (Va & Ea & _).
  destruct (shl_align_spec mb eb (Z.min ea eb)) as (Vb & Eb & _).
  set (ma' := fst (shl_align ma ea (Z.min ea eb))) in *.
  set (mb' := fst (shl_align mb eb (Z.min ea eb))) in *.
  replace (Z.min ea (Z.min ea eb)) with (Z.min ea eb) in Ea by lia.
  replace (Z.min eb (Z.min ea eb)) with (Z.min ea eb) in Eb by lia.
  rewrite Ea in Va. rewrite Eb in Vb.
  change (Zpos ma' + Zpos mb') with (Zpos (ma' + mb')). cbn [binary_normalize].
  destruct (binary_round_cell false (ma' + mb') (Z.min ea eb))
    as (m1 & e1 & l1 & Hl & Hc & ->).
  rewrite <- (rounded_valid ma ea Ba).
  apply (rounded_mono (Zpos ma) ea m1 e1 loc_Exact l1 (F2Q (Zpos ma) ea)
                      (F2Q (Zpos (ma' + mb')) (Z.min ea eb))).
  - rewrite <- Va. apply F2Q_le. lia.
  - cbn. reflexivity.
  - now apply bounded_cell.
  - exact Hl.
  - exact Hc.
Qed.

(** The aligned mantissas of two numbers compare as the numbers do. *)
Lemma aligned_le (mx my : positive) (ex ey : Z) :
  bounded 53 1024 mx ex = true -> bounded 53 1024 my ey = true ->
  SFleb (S754_finite false my ey) (S754_finite false mx ex) = true ->
  Zpos (fst (shl_align my ey (Z.min ex ey))) <= Zpos (fst (shl_align mx ex (Z.min ex ey))).
Proof.
  intros Bx By H.
  pose proof (SFleb_value my mx ey ex (bounded_cell _ _ By) (bounded_cell _ _ Bx) H) as V.
  destruct (shl_align_spec mx ex (Z.min ex ey)) as (Vx & Ex & _).
  destruct (shl_align_spec my ey (Z.min ex ey)) as (Vy & Ey & _).
  replace (Z.min ex (Z.min ex ey)) with (Z.min ex ey) in Ex by lia.
  replace (Z.min ey (Z.min ex ey)) with (Z.min ex ey) in Ey by lia.
  rewrite Ex in Vx. rewrite Ey in Vy.
  apply (F2Q_le_inv _ _ (Z.min ex ey)). rewrite Vx, Vy. exact V.
Qed.

Lemma SFsub_nonneg (mx my : positive) (ex ey : Z) (sy : bool) :
  bounded 53 1024 mx ex = true -> bounded 53 1024 my ey = true ->
  SFleb (S754_finite sy my ey) (S754_finite false mx ex) = true ->
  SFleb (S754_zero false)
        (SFsub 53 1024 (S754_finite false mx ex) (S754_finite sy my ey)) = true.
Proof.
  intros Bx By H. cbn [SFsub cond_Zopp].
  assert (forall p, SFleb (S754_zero false) (binary_round 53 1024 false p (Z.min ex ey)) = true)
    as Hr.
  { intros p. destruct (binary_round_signed false p (Z.min ex ey))
      as [-> | [-> | (q & e' & ->)]]; reflexivity. }
  destruct sy.
  - cbn [cond_Zopp Z.opp Z.sub Z.add]. cbn [binary_normalize]. apply Hr.
  - pose proof (aligned_le mx my ex ey Bx By H) as L. cbn [cond_Zopp].
    set (mx' := fst (shl_align mx ex (Z.min ex ey))) in *.
    set (my' := fst (shl_align my ey (Z.min ex ey))) in *.
    destruct (Zpos mx' - Zpos my') as [|p|p] eqn:E;
      cbn [binary_normalize]; [reflexivity|apply Hr|lia].
Qed.

Lemma SFsub_le (mx my : positive) (ex ey : Z) :
  bounded 53 1024 mx ex = true ->
  SFleb (SFsub 53 1024 (S754_finite false mx ex) (S754_finite false my ey))
        (S754_finite false mx ex) = true.
Proof.
  intros Bx. cbn [SFsub cond_Zopp].
  destruct (shl_align_spec mx ex (Z.min ex ey)) as (Vx & Ex & _).
  replace (Z.min ex (Z.min ex ey)) with (Z.min ex ey) in Ex by lia.
  rewrite Ex in Vx.
  set (mx' := fst (shl_align mx ex (Z.min ex ey))) in *.
  set (my' := fst (shl_align my ey (Z.min ex ey))) in *.
  destruct (Zpos mx' - Zpos my') as [|p|p] eqn:E; cbn [binary_normalize].
  - reflexivity.
  - destruct (binary_round_cell false p (Z.min ex ey)) as (m1 & e1 & l1 & Hl & Hc & ->).
    rewrite <- (rounded_valid mx ex Bx).
    apply (rounded_mono m1 e1 (Zpos mx) ex l1 loc_Exact
                        (F2Q (Zpos p) (Z.min ex ey)) (F2Q (Zpos mx) ex)).
    + rewrite <- Vx. apply F2Q_le. lia.
    + exact Hl.
    + exact Hc.
    + cbn. reflexivity.
    + now apply bounded_cell.
  - destruct (binary_round_signed true p (Z.min ex ey))
      as [-> | [-> | (q & e' & ->)]]; reflexivity.
Qed.

(** For [0 <= t1 <= t2] and [d > 0], [t1 / d <= t2 / d], unless [t2 / d] is
    [NaN] (both [t2] and [d] infinite). *)
Lemma div_mono (t1 t2 d : float) :
  (0 <=? t1)%float = true -> (t1 <=? t2)%float = true -> (0 <? d)%float = true ->
  (t1 / d <=? t2 / d)%float = true \/ is_nan (t2 / d)%float = true.
Proof.
  intros H0 H12 Hd.
  assert (is_nan (t2 / d) = negb (SFeqb (Prim2SF (t2 / d)) (Prim2SF (t2 / d)))) as En
      by (unfold is_nan; now rewrite eqb_spec).
  rewrite En. clear En.
  rewrite leb_spec, !div_spec. rewrite leb_spec in H0, H12. rewrite ltb_spec in Hd.
  change (Prim2SF 0) with (S754_zero false) in *.
  pose proof (Prim2SF_valid t1) as V1. pose proof (Prim2SF_valid t2) as V2.
  unfold SF64div.
  destruct (Prim2SF d) as [sd|sd| |sd md ed]; try discriminate;
    destruct sd; try discriminate; clear Hd;
    destruct (Prim2SF t1) as [s1|s1| |s1 m1 e1]; try discriminate;
    try (destruct s1; try discriminate);
    destruct (Prim2SF t2) as [s2|s2| |s2 m2 e2]; try discriminate;
    try (destruct s2; try discriminate);
    try (left; reflexivity); try (right; reflexivity).
  all: change prec with 53 in *; change emax with 1024 in *; cbn [valid_binary] in *.
  - (* -0 / d <= t2 / d *)
    left.
    destruct (SFdiv_finite false false m2 md e2 ed) as (a & b & l & _ & C & E).
    rewrite E. cbn [SFdiv xorb].
    destruct (rounded_nonneg a b l ltac:(destruct C as ((?&_)&_); lia))
      as [-> | [-> | (p & e' & ->)]]; reflexivity.
  - (* 0 / d <= t2 / d *)
    left.
    destruct (SFdiv_finite false false m2 md e2 ed) as (a & b & l & _ & C & E).
    rewrite E. cbn [SFdiv xorb].
    destruct (rounded_nonneg a b l ltac:(destruct C as ((?&_)&_); lia))
      as [-> | [-> | (p & e' & ->)]]; reflexivity.
  - (* t1 / d <= infinity *)
    left.
    destruct (SFdiv_finite false false m1 md e1 ed) as (a & b & l & _ & C & E).
    rewrite E. cbn [SFdiv xorb].
    destruct (rounded_nonneg a b l ltac:(destruct C as ((?&_)&_); lia))
      as [-> | [-> | (p & e' & ->)]]; reflexivity.
  - (* both finite *)
    left. apply SFdiv_pos_mono; assumption.
Qed.

(** Adding a non-negative number does not make a non-negative number
    smaller. *)
Lemma add_nonneg_le (a b : float) :
  (0 <=? a)%float = true -> (0 <=? b)%float = true -> (a <=? a + b)%float = true.
Proof.
  rewrite !leb_spec, add_spec. change (Prim2SF 0) with (S754_zero false).
  pose proof (Prim2SF_valid a) as Va. unfold SF64add.
  change prec with 53 in *. change emax with 1024 in *.
  destruct (Prim2SF a) as [sa|sa| |sa ma ea]; try discriminate;
    destruct (Prim2SF b) as [sb|sb| |sb mb eb]; try discriminate;
    try (destruct sa; try discriminate); try (destruct sb; try discriminate);
    intros _ _; try reflexivity.
  - apply SFleb_refl_finite.
  - apply SFleb_refl_finite.
  - apply SFadd_le. exact Va.
Qed.

Lemma of_nat_nonneg (n : nat) : (0 <=? JS.of_nat n)%float = true.
Proof.
  unfold JS.of_nat. rewrite leb_spec, of_uint63_spec.
  change (Prim2SF 0) with (S754_zero false).
  change prec with 53. change emax with 1024.
  pose proof (Uint63.to_Z_bounded (Uint63.of_Z (Z.of_nat n))) as [H _].
  destruct (Uint63.to_Z (Uint63.of_Z (Z.of_nat n))) as [|p|p]; [reflexivity| |lia].
  cbn [binary_normalize].
  destruct (binary_round_cell false p 0) as (m1 & e1 & l1 & _ & C & ->).
  destruct (rounded_nonneg m1 e1 l1 ltac:(destruct C as ((?&_)&_); lia))
    as [-> | [-> | (q & e' & ->)]]; reflexivity.
Qed.

Lemma add_nonneg (a b : float) :
  (0 <=? a)%float = true -> (0 <=? b)%float = true -> (0 <=? a + b)%float = true.
Proof.
  intros Ha Hb. exact (leb_trans _ _ _ Ha (add_nonneg_le a b Ha Hb)).
Qed.

Lemma startAccepts_spec (x : float) :
  startAccepts x = true <->
  (exists s, Prim2SF x = S754_zero s) \/ (exists m e, Prim2SF x = S754_finite false m e).
Proof.
  unfold startAccepts, is_finite, is_nan, is_infinity.
  rewrite leb_spec, !eqb_spec, abs_spec.
  change (Prim2SF 0) with (S754_zero false).
  change (Prim2SF infinity) with (S754_infinity false).
  destruct (Prim2SF x) as [s|s| |s m e]; cbn.
  - split; [eauto|]. intros _. now destruct s.
  - split; [now destruct s|]. intros [[? ?]|(? & ? & ?)]; discriminate.
  - split; [discriminate|]. intros [[? ?]|(? & ? & ?)]; discriminate.
  - rewrite Z.compare_refl, Pos.compare_cont_refl. cbn.
    destruct s; cbn.
    + split; [discriminate|]. intros [[? ?]|(? & ? & ?)]; discriminate.
    + split; eauto.
Qed.

(** Subtracting a number from a larger, non-negative and finite one leaves
    a non-negative number. *)
Lemma sub_nonneg (x y : float) :
  startAccepts x = true -> (y <=? x)%float = true -> (0 <=? x - y)%float = true.
Proof.
  intros Hx. apply startAccepts_spec in Hx.
  rewrite !leb_spec, sub_spec. change (Prim2SF 0) with (S754_zero false).
  pose proof (Prim2SF_valid x) as Vx. pose proof (Prim2SF_valid y) as Vy.
  unfold SF64sub. change prec with 53 in *. change emax with 1024 in *.
  destruct Hx as [[sx Ex] | (mx & ex & Ex)]; rewrite Ex in *;
    destruct (Prim2SF y) as [sy|sy| |sy my ey]; try discriminate.
  - destruct sx, sy; reflexivity.
  - destruct sx, sy; try discriminate; reflexivity.
  - destruct sx, sy; try discriminate; reflexivity.
  - intros _. cbn [SFsub]. destruct sy; try reflexivity.
  - destruct sy; try discriminate. reflexivity.
  - cbn [valid_binary] in *. intros H. now apply SFsub_nonneg.
Qed.

(** Subtracting a non-negative number from a non-negative, finite one does
    not make it larger. *)
Lemma sub_nonneg_le (x y : float) :
  startAccepts x = true -> (0 <=? y)%float = true -> (x - y <=? x)%float = true.
Proof.
  intros Hx. apply startAccepts_spec in Hx.
  rewrite !leb_spec, sub_spec. change (Prim2SF 0) with (S754_zero false).
  pose proof (Prim2SF_valid x) as Vx.
  unfold SF64sub. change prec with 53 in *. change emax with 1024 in *.
  destruct Hx as [[sx Ex] | (mx & ex & Ex)]; rewrite Ex in *;
    destruct (Prim2SF y) as [sy|sy| |sy my ey]; try discriminate.
  - destruct sx, sy; reflexivity.
  - destruct sx, sy; try discriminate; reflexivity.
  - destruct sx, sy; try discriminate; reflexivity.
  - intros _. cbn [SFsub]. apply SFleb_refl_finite.
  - destruct sy; try discriminate. reflexivity.
  - destruct sy; try discriminate. intros _. cbn [valid_binary] in *. now apply SFsub_le.
Qed.

Lemma startAccepts_between (x y : float) :
  (0 <=? x)%float = true -> (x <=? y)%float = true -> startAccepts y = true ->
  startAccepts x = true.
Proof.
  intros H0 Hxy Hy. apply startAccepts_spec in Hy. apply startAccepts_spec.
  rewrite !leb_spec in *. change (Prim2SF 0) with (S754_zero false) in *.
  destruct (Prim2SF x) as [s|s| |s m e]; try discriminate.
  - eauto.
  - destruct s; try discriminate.
    destruct Hy as [[sy Ey] | (my & ey & Ey)]; rewrite Ey in Hxy; discriminate.
  - destruct s; try discriminate. eauto.
Qed.

Lemma min_not_nan (x y : float) :
  is_nan x = false -> is_nan y = false ->
  JS.min x y = x \/ JS.min x y = y.
Proof.
  intros Hx Hy. unfold JS.min. rewrite Hx, Hy. cbn [orb].
  destruct (x <? y)%float; [now left|].
  destruct (y <? x)%float; [now right|].
  destruct (is_zero x && get_sign y); auto.
Qed.

(** A number between [0] and a zero is a zero. *)
Lemma zero_of_between (x t : float) :
  (0 <=? x)%float = true -> (x <=? t)%float = true -> (t =? 0)%float = true ->
  (x =? 0)%float = true.
Proof.
  rewrite !leb_spec, !eqb_spec. change (Prim2SF 0) with (S754_zero false).
  unfold SFleb, SFeqb.
  destruct (Prim2SF x) as [s|s| |s m e], (Prim2SF t) as [st|st| |st mt et]; cbn;
    try discriminate; try reflexivity;
    try (destruct s; discriminate); try (destruct st; discriminate);
    try (destruct s, st; discriminate).
Qed.

Lemma div_zero_zero (x t : float) :
  (x =? 0)%float = true -> (t =? 0)%float = true -> (x / t)%float = nan.
Proof.
  rewrite !eqb_spec. change (Prim2SF 0) with (S754_zero false). intros Hx Ht.
  apply Prim2SF_inj. rewrite div_spec. change (Prim2SF nan) with S754_nan.
  unfold SFeqb in *.
  destruct (Prim2SF x) as [s|s| |s m e], (Prim2SF t) as [st|st| |st mt et];
    cbn in *; try discriminate; try reflexivity;
    try (destruct s; discriminate); try (destruct st; discriminate).
Qed.

Lemma leb_refl_nonneg (x : float) :
  (0 <=? x)%float = true -> (x <=? x)%float = true.
Proof.
  rewrite !leb_spec. change (Prim2SF 0) with (S754_zero false). unfold SFleb.
  destruct (Prim2SF x) as [s|s| |s m e]; cbn; try discriminate; try reflexivity.
  - now destruct s.
  - destruct s; [discriminate|]. now rewrite Z.compare_refl, Pos.compare_cont_refl.
Qed.

(** ** Segment locator *)

Lemma charCount_app (acc : float) (l1 l2 : list string) :
  charCount acc (l1 ++ l2) = charCount (charCount acc l1) l2.
Proof. apply fold_left_app. Qed.

Lemma firstn_S_snoc {A} (l : list A) (k : nat) (x : A) :
  nth_error l k = Some x -> firstn (S k) l = firstn k l ++ [x].
Proof.
  revert k; induction l as [|a l IH]; intros [|k] H; try discriminate.
  - now inversion H.
  - cbn in H. change (firstn (S (S k)) (a :: l)) with (a :: firstn (S k) l).
    now rewrite (IH k H).
Qed.

Lemma locate_walk (progress : float) (script : list string) :
  forall (rest : list string) (k : nat),
    skipn k script = rest ->
    walk_result progress script k
      (locate progress (totalChars script) (Z.of_nat (List.length script))
              (charCountSoFar script k) (Z.of_nat k) rest).
Proof.
  induction rest as [|p rest IH]; intros k Hk.
  - cbn. apply walk_fallthrough; [reflexivity|].
    intros j [Hj1 Hj2]. exfalso.
    assert (List.length (skipn k script) = 0%nat) as E by now rewrite Hk.
    rewrite length_skipn in E. lia.
  - assert (nth_error script k = Some p) as Hn.
    { rewrite <- (firstn_skipn k script) at 1.
      assert (List.length (skipn k script) = S (List.length rest)) as E by now rewrite Hk.
      rewrite length_skipn in E.
      rewrite nth_error_app2 by (rewrite length_firstn; lia).
      rewrite length_firstn, Nat.min_l, Nat.sub_diag, Hk by lia. reflexivity. }
    assert (k < List.length script)%nat as Hlt by (apply nth_error_Some; congruence).
    assert ((charCountSoFar script k + JS.of_nat (String.length p))%float
            = charCountSoFar script (S k)) as Hc.
    { unfold charCountSoFar.
      rewrite (firstn_S_snoc _ _ _ Hn), charCount_app. reflexivity. }
    assert (((charCountSoFar script k + JS.of_nat (String.length p))
             / totalChars script)%float = pEndRatio script k) as Hq.
    { unfold pEndRatio. now rewrite (nth_error_nth _ _ _ Hn). }
    cbn [locate]. rewrite Hq, Hc.
    destruct (progress <=? pEndRatio script k)%float eqn:Hle.
    + apply walk_found with (i := k); auto; try lia.
    + assert (skipn (S k) script = rest) as Hk'.
      { rewrite <- (firstn_skipn k script) at 1.
        rewrite skipn_app, length_firstn, Nat.min_l by lia.
        replace (S k - k)%nat with 1%nat by lia.
        rewrite skipn_all2 by (rewrite length_firstn; lia).
        now rewrite Hk. }
      specialize (IH (S k) Hk').
      replace (Z.of_nat k + 1) with (Z.of_nat (S k)) by lia.
      destruct IH as [i Hi Hr Hp Hb | Hr Hb].
      * apply walk_found with (i := i); auto; try lia.
        intros j Hj. destruct (Nat.eq_dec j k) as [->|]; [assumption|apply Hb; lia].
      * apply walk_fallthrough; auto.
        intros j Hj. destruct (Nat.eq_dec j k) as [->|]; [assumption|apply Hb; lia].
Qed.

Lemma activeParagraphIndex_walk (script : list string) (currentTime duration : float) :
  (0 <? duration)%float = true ->
  walk_result (currentTime / duration)%float script 0
              (activeParagraphIndex currentTime duration script).
Proof.
  intros Hd. unfold activeParagraphIndex. rewrite (ltb_pos_guard _ Hd).
  exact (locate_walk (currentTime / duration)%float script script 0 eq_refl).
Qed.

(** C1: with a positive duration and a positive character total, the locator
    returns the first index whose end ratio is at least
    [progress = currentTime / duration] (the comparison is [<=], so a progress
    equal to a segment's end ratio selects that segment), and
    [script.length - 1] when no index qualifies.  For segments of lengths 4
    and 6: progress 0.4 gives 0, progress 0.4000001 gives 1, progress 1.0
    gives 1. *)
Theorem activeIndex_first_match
        (script : list string) (currentTime duration : float) :
  (0 <? totalChars script)%float = true ->
  (0 <? duration)%float = true ->
  let progress := (currentTime / duration)%float in
  let r := activeParagraphIndex currentTime duration script in
  ((exists i : nat,
       (i < List.length script)%nat /\ r = Z.of_nat i /\
       (progress <=? pEndRatio script i)%float = true /\
       forall j, (j < i)%nat -> (progress <=? pEndRatio script j)%float = false)
   \/ (r = Z.of_nat (List.length script) - 1 /\
       forall j, (j < List.length script)%nat ->
                 (progress <=? pEndRatio script j)%float = false))
  /\ (map String.length script = [4%nat; 6%nat] ->
      (progress = 0.4%float -> r = 0) /\
      (progress = 0.4000001%float -> r = 1) /\
      (progress = 1%float -> r = 1)).
Proof.
  intros Ht Hd progress r. split.
  - destruct (activeParagraphIndex_walk script currentTime duration Hd)
      as [i Hi Hr Hp Hb | Hr Hb].
    + left. exists i. repeat split; auto; try lia. intros j Hj. apply Hb. lia.
    + right. split; auto. intros j Hj. apply Hb. lia.
  - intros Hlen.
    destruct script as [|a [|b [|c l]]]; try discriminate.
    injection Hlen as Ha Hb.
    assert (forall p, progress = p ->
              r = locate p 10%float 2 0%float 0 [a; b]) as Hr.
    { intros p <-. subst r. unfold activeParagraphIndex.
      rewrite (ltb_pos_guard _ Hd). unfold totalChars, charCount. cbn [fold_left].
      rewrite Ha, Hb. reflexivity. }
    repeat split; intros Hp; rewrite (Hr _ Hp); cbn [locate]; rewrite Ha, ?Hb;
      reflexivity.
Qed.

Lemma activeIndex_first_match_witness :
  (0 <? totalChars ["abcd"%string; "abcdef"%string])%float = true /\
  (0 <? 1)%float = true /\
  activeParagraphIndex 0.4%float 1%float ["abcd"%string; "abcdef"%string] = 0.
Proof.
  split; [reflexivity|]. split; [reflexivity|].
  exact (proj1 (proj2 (activeIndex_first_match
                         ["abcd"%string; "abcdef"%string] 0.4%float 1%float
                         eq_refl eq_refl)
                      eq_refl) eq_refl).
Defined.

(** C9: for a non-empty script, a positive character total and a positive
    duration, the locator's result is an index of the script, whatever
    [currentTime] is (negative, beyond the duration, infinite or [NaN]). *)
Theorem activeIndex_in_range
        (script : list string) (currentTime duration : float) :
  script <> [] ->
  (0 <? totalChars script)%float = true ->
  (0 <? duration)%float = true ->
  0 <= activeParagraphIndex currentTime duration script
       <= Z.of_nat (List.length script) - 1.
Proof.
  intros Hne _ Hd.
  assert (0 < List.length script)%nat by (destruct script; [congruence|cbn; lia]).
  destruct (activeParagraphIndex_walk script currentTime duration Hd)
    as [i Hi Hr _ _ | Hr _]; lia.
Qed.

Lemma activeIndex_in_range_witness :
  0 <= activeParagraphIndex (-3)%float 2%float ["ab"%string; ""%string; "c"%string] <= 2.
Proof.
  apply (activeIndex_in_range ["ab"%string; ""%string; "c"%string] (-3)%float 2%float);
    [discriminate | reflexivity | reflexivity].
Defined.

Lemma totalChars_all_empty (script : list string) :
  all_empty script -> totalChars script = 0%float.
Proof.
  unfold totalChars. induction 1 as [|p l Hp _ IH]; [reflexivity|].
  unfold charCount in *. cbn [fold_left]. rewrite Hp. exact IH.
Qed.

(** The character counts are not negative and grow along the script. *)
Lemma charCount_le (segs : list string) :
  forall acc, (0 <=? acc)%float = true ->
              (acc <=? charCount acc segs)%float = true.
Proof.
  induction segs as [|p segs IH]; intros acc Ha.
  - now apply leb_refl_nonneg.
  - unfold charCount in *. cbn [fold_left].
    pose proof (of_nat_nonneg (String.length p)) as Hp.
    apply leb_trans with (1 := add_nonneg_le _ _ Ha Hp).
    apply IH. now apply add_nonneg.
Qed.

Lemma charCountSoFar_nonneg (script : list string) (i : nat) :
  (0 <=? charCountSoFar script i)%float = true.
Proof. unfold charCountSoFar. now apply charCount_le. Qed.

Lemma charCountSoFar_le_total (script : list string) (i : nat) :
  (charCountSoFar script i <=? totalChars script)%float = true.
Proof.
  unfold totalChars. rewrite <- (firstn_skipn i script) at 2.
  rewrite charCount_app. apply charCount_le. apply charCountSoFar_nonneg.
Qed.

Lemma pEndRatio_no_chars (script : list string) (i : nat) :
  (totalChars script =? 0)%float = true ->
  (i < List.length script)%nat ->
  pEndRatio script i = nan.
Proof.
  intros Ht Hi. unfold pEndRatio.
  destruct (nth_error script i) as [p|] eqn:Hn;
    [|apply nth_error_None in Hn; lia].
  rewrite (nth_error_nth _ _ _ Hn).
  assert ((charCountSoFar script i + JS.of_nat (String.length p))%float
          = charCountSoFar script (S i)) as ->.
  { unfold charCountSoFar. rewrite (firstn_S_snoc _ _ _ Hn), charCount_app. reflexivity. }
  apply div_zero_zero; [|exact Ht].
  exact (zero_of_between _ _ (charCountSoFar_nonneg script (S i))
                         (charCountSoFar_le_total script (S i)) Ht).
Qed.

(** C2 (as the code has it): when the character total is [0] (every segment
    is empty, or there is none) and the duration is positive, every end ratio
    is [0 / 0 = NaN], no comparison succeeds and the locator falls through to
    [script.length - 1]; it is a total function, so nothing is thrown.  The
    result is [0] only for a script of exactly one segment, and [-1] for the
    empty script. *)
Theorem activeIndex_no_chars
        (script : list string) (currentTime duration : float) :
  (totalChars script =? 0)%float = true ->
  (0 <? duration)%float = true ->
  activeParagraphIndex currentTime duration script
  = Z.of_nat (List.length script) - 1.
Proof.
  intros Ht Hd.
  destruct (activeParagraphIndex_walk script currentTime duration Hd)
    as [i Hi _ Hp _ | Hr _]; [|exact Hr].
  rewrite (pEndRatio_no_chars script i Ht) in Hp by lia.
  rewrite leb_nan_r in Hp. discriminate.
Qed.

Lemma activeIndex_no_chars_witness :
  (totalChars [""%string; ""%string; ""%string] =? 0)%float = true /\
  activeParagraphIndex 1%float 2%float [""%string; ""%string; ""%string] = 2.
Proof.
  split; [reflexivity|].
  exact (activeIndex_no_chars [""%string; ""%string; ""%string] 1%float 2%float
                              eq_refl eq_refl).
Defined.

(** The locator does not return [0] on a script without characters: two empty
    segments give index [1], and the empty script gives [-1]. *)
Lemma activeIndex_no_chars_not_zero :
  ((totalChars [""%string; ""%string] =? 0)%float = true /\ (0 <? 2)%float = true /\
   activeParagraphIndex 1%float 2%float [""%string; ""%string] <> 0)
  /\ ((totalChars [] =? 0)%float = true /\
      activeParagraphIndex 1%float 2%float [] = -1).
Proof. repeat split; try reflexivity. vm_compute. discriminate. Qed.

Lemma walk_mono (script : list string) (p1 p2 : float) (r1 r2 : Z) :
  script <> [] ->
  walk_result p1 script 0 r1 -> walk_result p2 script 0 r2 ->
  (p1 <=? p2)%float = true \/ is_nan p2 = true ->
  r1 <= r2.
Proof.
  intros Hne W1 W2 Hp.
  assert (0 < List.length script)%nat as Hlen
      by (destruct script; [congruence|cbn; lia]).
  destruct W2 as [i2 Hi2 -> Hp2 Hb2 | -> Hb2].
  - destruct Hp as [Hp | Hn]; [|rewrite (leb_nan_l _ _ Hn) in Hp2; discriminate].
    pose proof (leb_trans _ _ _ Hp Hp2) as Hp1.
    destruct W1 as [i1 Hi1 -> _ Hb1 | -> Hb1].
    + destruct (Nat.le_gt_cases i1 i2) as [|Hgt]; [lia|].
      rewrite (Hb1 i2) in Hp1 by lia. discriminate.
    + rewrite (Hb1 i2) in Hp1 by lia. discriminate.
  - destruct W1 as [i1 Hi1 -> _ _ | -> _]; lia.
Qed.

(** C6: for a fixed script with a positive character total and a fixed
    positive duration, the locator is non-decreasing in [currentTime] over
    [[0, duration]]. *)
Theorem activeIndex_monotone (script : list string) (duration t1 t2 : float) :
  (0 <? totalChars script)%float = true ->
  (0 <? duration)%float = true ->
  (0 <=? t1)%float = true ->
  (t1 <=? t2)%float = true ->
  (t2 <=? duration)%float = true ->
  activeParagraphIndex t1 duration script <= activeParagraphIndex t2 duration script.
Proof.
  intros Ht Hd H0 H12 _.
  assert (script <> []) as Hne by (intros ->; discriminate).
  apply (walk_mono script (t1 / duration)%float (t2 / duration)%float).
  - exact Hne.
  - now apply activeParagraphIndex_walk.
  - now apply activeParagraphIndex_walk.
  - now apply div_mono.
Qed.

Lemma activeIndex_monotone_witness :
  (3 <=? 5)%float = true /\
  activeParagraphIndex 3%float 10%float ["abcd"%string; "abcdef"%string]
  <= activeParagraphIndex 5%float 10%float ["abcd"%string; "abcdef"%string].
Proof.
  split; [reflexivity|].
  exact (activeIndex_monotone ["abcd"%string; "abcdef"%string] 10%float 3%float 5%float
                              eq_refl eq_refl eq_refl eq_refl eq_refl).
Defined.

(** ** Transport and progress clock *)

(** C10: pausing writes only [isPlaying] and the stored source node (which
    becomes [null]); [currentTime], [duration], the decoded buffer, the
    start-time anchor and the context are as before.  Without a stored source
    node [handlePause] changes nothing at all. *)
Theorem handlePause_frame (st : Player) :
  currentTime (handlePause st) = currentTime st /\
  duration (handlePause st) = duration st /\
  audioBuffer (handlePause st) = audioBuffer st /\
  startTimeRef (handlePause st) = startTimeRef st /\
  audioContextRef (handlePause st) = audioContextRef st /\
  animationFrame (handlePause st) = animationFrame st /\
  (audioSourceRef st <> None ->
   isPlaying (handlePause st) = false /\ audioSourceRef (handlePause st) = None) /\
  (audioSourceRef st = None -> handlePause st = st).
Proof.
  unfold handlePause.
  destruct (audioSourceRef st) eqn:E; cbn; repeat split; auto; congruence.
Qed.

(** C5: [handlePlay] with a buffer and a context starts the source at offset
    [0] when [currentTime >= duration] (a finished track restarts from the
    beginning) and at [currentTime] otherwise; the anchor is the clock minus
    that offset.  [start] takes [currentTime] whenever it is finite and not
    negative, which it is along every run ([playOffset_accepted] below). *)
Theorem handlePlay_offset
        (now : float) (st : Player) (b : AudioBuffer) (ctx : AudioContext) :
  audioBuffer st = Some b ->
  audioContextRef st = Some ctx ->
  (JS.geb (currentTime st) (duration st) = true ->
   isPlaying (handlePlay now st) = true /\
   audioSourceRef (handlePlay now st)
   = Some {| buffer := b; startWhen := 0%float; startOffset := 0%float |} /\
   startTimeRef (handlePlay now st) = (now - 0)%float) /\
  (JS.geb (currentTime st) (duration st) = false ->
   playOffset st = currentTime st /\
   (startAccepts (currentTime st) = true ->
    isPlaying (handlePlay now st) = true /\
    audioSourceRef (handlePlay now st)
    = Some {| buffer := b; startWhen := 0%float; startOffset := currentTime st |} /\
    startTimeRef (handlePlay now st) = (now - currentTime st)%float)).
Proof.
  intros Hb Hc. unfold handlePlay, playOffset. rewrite Hb, Hc.
  split; intros Hge; rewrite Hge.
  - change (startAccepts 0%float) with true. cbn. auto.
  - split; [reflexivity|]. intros Ha. rewrite Ha. cbn. auto.
Qed.

Lemma handlePlay_offset_witness :
  JS.geb (currentTime (run (loaded 2400) [Play 1%float; Frame 4%float]))
         (duration (run (loaded 2400) [Play 1%float; Frame 4%float])) = true /\
  startTimeRef (handlePlay 9%float (run (loaded 2400) [Play 1%float; Frame 4%float]))
  = (9 - 0)%float.
Proof.
  assert (JS.geb (currentTime (run (loaded 2400) [Play 1%float; Frame 4%float]))
                 (duration (run (loaded 2400) [Play 1%float; Frame 4%float])) = true)
    as Hge by (vm_compute; reflexivity).
  split; [exact Hge|].
  exact (proj2 (proj2 (proj1 (handlePlay_offset
                                9%float (run (loaded 2400) [Play 1%float; Frame 4%float])
                                (silence 2400)
                                {| ctxSampleRate := 24000; state := running |}
                                eq_refl eq_refl) Hge))).
Defined.

(** *** The offset of a play along a run

    With clock readings that are finite and do not go back, the published
    position never leaves the range [start] accepts, so [handlePlay] never
    ends on the exception of [start]. *)

Lemma wellTimed_clearFrame (c : float) (st : Player) :
  wellTimed c st -> wellTimed c (clearFrame st).
Proof. auto. Qed.

Lemma wellTimed_later (c now : float) (st : Player) :
  (c <=? now)%float = true -> wellTimed c st -> wellTimed now st.
Proof.
  intros H (H0 & Hc & Hd & Ha). repeat split; try assumption.
  - exact (leb_trans _ _ _ H0 H).
  - exact (leb_trans _ _ _ Ha H).
Qed.

Lemma wellTimed_progressEffect (c : float) (before after : Player) :
  wellTimed c after -> wellTimed c (progressEffect before after).
Proof.
  unfold progressEffect.
  destruct (Bool.eqb _ _ && PrimFloat.Leibniz.eqb _ _); [auto|].
  intros H. exact H.
Qed.

Lemma startAccepts_playOffset (st : Player) :
  startAccepts (currentTime st) = true -> startAccepts (playOffset st) = true.
Proof.
  intros H. unfold playOffset. now destruct (JS.geb _ _).
Qed.

Lemma startAccepts_nonneg (x : float) : startAccepts x = true -> (0 <=? x)%float = true.
Proof. unfold startAccepts. now intros [_ H]%andb_true_iff. Qed.

Lemma wellTimed_handlePlay (c now : float) (st : Player) :
  is_finite now = true -> (c <=? now)%float = true ->
  wellTimed c st -> wellTimed now (handlePlay now st).
Proof.
  intros Hf Hle W. pose proof (wellTimed_later c now st Hle W) as (H0 & Hc & Hd & Ha).
  unfold handlePlay.
  destruct (audioBuffer st), (audioContextRef st); try (repeat split; assumption).
  destruct (startAccepts (playOffset st)) eqn:E; repeat split; cbn; try assumption.
  apply sub_nonneg_le.
  - unfold startAccepts. now rewrite Hf, H0.
  - now apply startAccepts_nonneg.
Qed.

Lemma wellTimed_handlePause (c : float) (st : Player) :
  wellTimed c st -> wellTimed c (handlePause st).
Proof.
  unfold handlePause. destruct (audioSourceRef st); auto.
Qed.

Lemma wellTimed_updateProgress (c now : float) (st : Player) :
  is_finite now = true -> (c <=? now)%float = true ->
  wellTimed c st -> wellTimed now (updateProgress now st).
Proof.
  intros Hf Hle W. pose proof (wellTimed_later c now st Hle W) as (H0 & Hc & Hd & Ha).
  unfold updateProgress.
  destruct (isPlaying st), (audioContextRef st); try (repeat split; assumption).
  assert ((0 <=? now - startTimeRef st)%float = true) as He.
  { apply sub_nonneg; [|assumption]. unfold startAccepts. now rewrite Hf, H0. }
  destruct (now - startTimeRef st <=? duration st)%float eqn:E;
    repeat split; cbn; try assumption.
  destruct (min_not_nan (now - startTimeRef st) (duration st)
              (leb_is_nan_l _ _ E) (leb_is_nan_r _ _ E)) as [-> | ->]; [|assumption].
  exact (startAccepts_between _ _ He E Hd).
Qed.

(** Along a run whose clock readings are finite and do not go back, the
    published position, and with it the offset of the next play, stays one
    that [start] accepts. *)
Lemma wellTimed_run (evs : list Event) (c : float) (st : Player) :
  wellTimed c st -> clockAdvances c evs = true ->
  exists c', wellTimed c' (run st evs).
Proof.
  revert c st. induction evs as [|ev evs IH]; intros c st W H; [now exists c|].
  cbn [run fold_left]. change (fold_left step evs (step st ev)) with (run (step st ev) evs).
  cbn [clockAdvances] in H. destruct ev as [now| |now]; cbn [reading] in H.
  - apply andb_true_iff in H as [[Hf Hle]%andb_true_iff H].
    apply (IH now); [|assumption]. cbn [step].
    apply wellTimed_progressEffect. now apply (wellTimed_handlePlay c).
  - apply (IH c); [|assumption]. cbn [step].
    apply wellTimed_progressEffect. now apply wellTimed_handlePause.
  - apply andb_true_iff in H as [[Hf Hle]%andb_true_iff H].
    apply (IH now); [|assumption]. cbn [step].
    destruct (animationFrame st).
    + apply wellTimed_progressEffect.
      apply (wellTimed_updateProgress c); [assumption|assumption|].
      now apply wellTimed_clearFrame.
    + now apply (wellTimed_later c).
Qed.

Lemma playOffset_accepted (evs : list Event) (c : float) (st : Player) :
  wellTimed c st -> clockAdvances c evs = true ->
  startAccepts (playOffset (run st evs)) = true.
Proof.
  intros W H. destruct (wellTimed_run evs c st W H) as (c' & _ & Hc & _).
  now apply startAccepts_playOffset.
Qed.

Lemma playOffset_accepted_loaded :
  startAccepts (playOffset (run (loaded 2400)
                                [Play 1%float; Frame 4%float; Play 9%float;
                                 Frame 9.05%float; Pause; Play 12%float])) = true.
Proof.
  apply (playOffset_accepted _ 0%float); [repeat split|reflexivity].
Qed.

Lemma progressEffect_same (before after : Player) :
  isPlaying after = isPlaying before -> duration after = duration before ->
  progressEffect before after = after.
Proof.
  intros Hp Hd. unfold progressEffect.
  now rewrite Hp, Hd, Bool.eqb_reflx, leibniz_eqb_refl.
Qed.

Lemma isPlaying_progressEffect (before after : Player) :
  isPlaying (progressEffect before after) = isPlaying after.
Proof. unfold progressEffect. now destruct (_ && _). Qed.

(** Once nothing is pending, frames do nothing: the callback is not run. *)
Lemma frames_idle (st : Player) (nows : list float) :
  animationFrame st = false ->
  run st (map Frame nows) = st /\ samples st (map Frame nows) = 0%nat.
Proof.
  intros H. induction nows as [|now nows [IH1 IH2]]; [now split|].
  unfold run in *. cbn [map fold_left samples step]. rewrite H. cbn. now split.
Qed.

Lemma step_frame_within (now : float) (st : Player) (ctx : AudioContext) :
  isPlaying st = true -> audioContextRef st = Some ctx -> animationFrame st = true ->
  (now - startTimeRef st <=? duration st)%float = true ->
  step st (Frame now) =
  {| isPlaying := true; audioContextRef := audioContextRef st;
     audioSourceRef := audioSourceRef st; startTimeRef := startTimeRef st;
     currentTime := JS.min (now - startTimeRef st)%float (duration st);
     duration := duration st;
     audioBuffer := audioBuffer st; animationFrame := true |}.
Proof.
  intros Hp Hc Hf Hle. cbn [step]. rewrite Hf.
  unfold updateProgress, clearFrame. cbn. rewrite Hp, Hc, Hle.
  apply progressEffect_same; cbn; auto.
Qed.

Lemma step_frame_beyond (now : float) (st : Player) (ctx : AudioContext) :
  isPlaying st = true -> audioContextRef st = Some ctx -> animationFrame st = true ->
  (now - startTimeRef st <=? duration st)%float = false ->
  step st (Frame now) =
  {| isPlaying := false; audioContextRef := audioContextRef st;
     audioSourceRef := audioSourceRef st; startTimeRef := startTimeRef st;
     currentTime := duration st; duration := duration st;
     audioBuffer := audioBuffer st; animationFrame := false |}.
Proof.
  intros Hp Hc Hf Hle. cbn [step]. rewrite Hf.
  unfold updateProgress, clearFrame. cbn. rewrite Hp, Hc, Hle.
  unfold progressEffect. cbn. rewrite Hp. reflexivity.
Qed.

Lemma step_play (now : float) (st : Player) (b : AudioBuffer) (ctx : AudioContext) :
  audioBuffer st = Some b -> audioContextRef st = Some ctx -> isPlaying st = false ->
  startAccepts (playOffset st) = true ->
  step st (Play now) =
  {| isPlaying := true; audioContextRef := Some (resume ctx);
     audioSourceRef :=
       Some {| buffer := b; startWhen := 0%float; startOffset := playOffset st |};
     startTimeRef := (now - playOffset st)%float;
     currentTime := currentTime st; duration := duration st;
     audioBuffer := Some b; animationFrame := true |}.
Proof.
  intros Hb Hc Hp Ha. cbn [step]. unfold handlePlay. rewrite Hb, Hc, Ha.
  unfold progressEffect. cbn. rewrite Hp. reflexivity.
Qed.

Lemma step_pause (st : Player) (src : AudioBufferSourceNode) :
  audioSourceRef st = Some src -> isPlaying st = true ->
  step st Pause =
  {| isPlaying := false; audioContextRef := audioContextRef st;
     audioSourceRef := None; startTimeRef := startTimeRef st;
     currentTime := currentTime st; duration := duration st;
     audioBuffer := audioBuffer st; animationFrame := false |}.
Proof.
  intros Hs Hp. cbn [step]. unfold handlePause. rewrite Hs.
  unfold progressEffect. cbn. rewrite Hp. reflexivity.
Qed.

(** Leaving the playing state takes a pause or a frame that finds the elapsed
    time not within the duration. *)
Lemma stop_only_by_frame (st : Player) (ev : Event) :
  isPlaying st = true -> isPlaying (step st ev) = false ->
  ev = Pause \/
  exists now, ev = Frame now /\
              (now - startTimeRef st <=? duration st)%float = false.
Proof.
  intros Hp Hs. destruct ev as [now| |now]; [exfalso|now left|right].
  - cbn [step] in Hs. rewrite isPlaying_progressEffect in Hs.
    unfold handlePlay in Hs.
    destruct (audioBuffer st), (audioContextRef st); try congruence.
    destruct (startAccepts (playOffset st)); cbn in Hs; congruence.
  - exists now. split; [reflexivity|].
    cbn [step] in Hs. destruct (animationFrame st); [|congruence].
    rewrite isPlaying_progressEffect in Hs.
    unfold updateProgress, clearFrame in Hs. cbn in Hs. rewrite Hp in Hs.
    destruct (audioContextRef st); [|cbn in Hs; congruence].
    destruct (now - startTimeRef st <=? duration st)%float; [|reflexivity].
    cbn in Hs. congruence.
Qed.

(** C4: a frame while playing, with a frame request pending, samples
    [elapsed = now - startTimeRef].  If [elapsed <= duration] it publishes
    [currentTime = min(elapsed, duration)], stays playing and requests the
    next frame.  If [elapsed] exceeds [duration] it leaves the playing state,
    publishes [currentTime = duration] and requests no frame; nothing else is
    written, and from then on frames neither change the state nor sample the
    clock.  No other event ends playback on its own: leaving the playing
    state takes a pause or such a frame. *)
Theorem frame_step (now : float) (st : Player) (ctx : AudioContext) :
  isPlaying st = true ->
  audioContextRef st = Some ctx ->
  animationFrame st = true ->
  let elapsed := (now - startTimeRef st)%float in
  ((elapsed <=? duration st)%float = true ->
   step st (Frame now) =
   {| isPlaying := true; audioContextRef := audioContextRef st;
      audioSourceRef := audioSourceRef st; startTimeRef := startTimeRef st;
      currentTime := JS.min elapsed (duration st); duration := duration st;
      audioBuffer := audioBuffer st; animationFrame := true |}) /\
  ((duration st <? elapsed)%float = true ->
   step st (Frame now) =
   {| isPlaying := false; audioContextRef := audioContextRef st;
      audioSourceRef := audioSourceRef st; startTimeRef := startTimeRef st;
      currentTime := duration st; duration := duration st;
      audioBuffer := audioBuffer st; animationFrame := false |} /\
   forall nows : list float,
     run (step st (Frame now)) (map Frame nows) = step st (Frame now) /\
     samples (step st (Frame now)) (map Frame nows) = 0%nat) /\
  (forall (st' : Player) (ev : Event),
      isPlaying st' = true -> isPlaying (step st' ev) = false ->
      ev = Pause \/
      exists now', ev = Frame now' /\
                   (now' - startTimeRef st' <=? duration st')%float = false).
Proof.
  intros Hp Hc Hf elapsed. split; [|split].
  - intros Hcmp. exact (step_frame_within now st ctx Hp Hc Hf Hcmp).
  - intros Hcmp.
    pose proof (step_frame_beyond now st ctx Hp Hc Hf (ltb_not_leb _ _ Hcmp)) as E.
    split; [exact E|]. intros nows. apply frames_idle. now rewrite E.
  - exact stop_only_by_frame.
Qed.

Lemma frame_step_witness :
  isPlaying (step (loaded 2400) (Play 1%float)) = true /\
  currentTime (step (step (loaded 2400) (Play 1%float)) (Frame 4%float))
  = duration (loaded 2400).
Proof.
  split; [reflexivity|].
  pose proof (frame_step 4%float (step (loaded 2400) (Play 1%float))
                {| ctxSampleRate := 24000; state := running |}
                eq_refl eq_refl eq_refl) as [_ H].
  cbv zeta in H. rewrite (proj1 (proj1 H eq_refl)). reflexivity.
Defined.

(** C3 (as the code computes it): play at offset 0 with the clock at [c0]; a
    frame at [c1] publishes [p = c1 - c0], the double nearest to the advance
    of the clock; pausing keeps that position; resuming with the clock at
    [c2] records the anchor [c2 - p], and a frame at [c3] publishes
    [c3 - (c2 - p)]: the position continues from [p], it is not reset.  That
    number is [p + (c3 - c2)] exactly whenever the two subtractions are exact
    in double precision, and within their rounding otherwise.  When the clock
    reads [0] at the first play and has not moved during the pause, nothing is
    rounded: the positions published are the clock readings [c1] and [c3]
    themselves. *)
Theorem pause_resume_position
        (st : Player) (b : AudioBuffer) (ctx : AudioContext) (c0 c1 c2 c3 : float) :
  audioBuffer st = Some b ->
  audioContextRef st = Some ctx ->
  isPlaying st = false ->
  currentTime st = 0%float ->
  let p := (c1 - c0)%float in
  let anchor := (c2 - p)%float in
  let elapsed := (c3 - anchor)%float in
  (0 <=? p)%float = true ->
  (p <? duration st)%float = true ->
  (elapsed <=? duration st)%float = true ->
  currentTime (run st [Play c0; Frame c1]) = p /\
  currentTime (run st [Play c0; Frame c1; Pause]) = p /\
  isPlaying (run st [Play c0; Frame c1; Pause]) = false /\
  startTimeRef (run st [Play c0; Frame c1; Pause; Play c2]) = anchor /\
  currentTime (run st [Play c0; Frame c1; Pause; Play c2; Frame c3]) = elapsed /\
  (valueOf anchor == valueOf c2 - valueOf p ->
   valueOf elapsed == valueOf c3 - valueOf anchor ->
   valueOf elapsed == valueOf p + (valueOf c3 - valueOf c2))%Q /\
  (c0 = 0%float -> c2 = c1 -> p = c1 /\ elapsed = c3).
Proof.
  intros Hb Hc Hp Ht p anchor elapsed H0 Hlt Hle.
  subst p anchor elapsed.
  assert (Hd : (0 <? duration st)%float = true) by exact (pos_of_between _ _ H0 Hlt).
  assert (Hoff : playOffset st = 0%float).
  { unfold playOffset. rewrite Ht. now destruct (JS.geb _ _). }
  (* first play *)
  assert (E1 := step_play c0 st b ctx Hb Hc Hp).
  rewrite Hoff in E1. specialize (E1 eq_refl). rewrite sub_0_r in E1.
  (* first frame *)
  lazymatch type of E1 with _ = ?s1 =>
    assert (E2 := step_frame_within c1 s1 (resume ctx) eq_refl eq_refl eq_refl
                                    (ltb_leb _ _ Hlt))
  end.
  cbn -[step JS.min] in E2. rewrite (min_le _ _ Hd (ltb_leb _ _ Hlt)) in E2.
  (* pause *)
  lazymatch type of E2 with _ = ?s2 =>
    assert (E3 := step_pause s2 _ eq_refl eq_refl)
  end.
  cbn -[step] in E3.
  (* resume *)
  lazymatch type of E3 with _ = ?s3 =>
    assert (Hoff3 : playOffset s3 = (c1 - c0)%float)
      by (unfold playOffset, JS.geb; cbn; now rewrite (ltb_not_leb _ _ Hlt));
    assert (E4 := step_play c2 s3 b (resume ctx) eq_refl eq_refl eq_refl)
  end.
  rewrite Hoff3 in E4.
  assert (Hacc : startAccepts (c1 - c0)%float = true).
  { unfold startAccepts. now rewrite (between_is_finite _ _ H0 Hlt), H0. }
  specialize (E4 Hacc). cbn -[step] in E4.
  (* second frame *)
  lazymatch type of E4 with _ = ?s4 =>
    assert (E5 := step_frame_within c3 s4 (resume (resume ctx)) eq_refl eq_refl eq_refl Hle)
  end.
  cbn -[step JS.min] in E5. rewrite (min_le _ _ Hd Hle) in E5.
  unfold run. cbn [fold_left].
  rewrite E1, E2, E3, E4, E5. cbn.
  repeat split; try reflexivity.
  - intros Ha He. rewrite He, Ha. ring.
  - subst. apply sub_0_r.
  - subst. rewrite sub_0_r in *.
    rewrite (sub_diag _ (between_is_finite _ _ H0 Hlt)). apply sub_0_r.
Qed.

Lemma pause_resume_position_witness :
  (0 <=? 1.0625 - 1)%float = true /\
  currentTime (run (loaded 2400)
                   [Play 1%float; Frame 1.0625%float; Pause; Play 2%float;
                    Frame 2.03125%float])
  = (2.03125 - (2 - (1.0625 - 1)))%float.
Proof.
  split; [reflexivity|].
  exact (proj1 (proj2 (proj2 (proj2 (proj2
           (pause_resume_position (loaded 2400) (silence 2400)
              {| ctxSampleRate := 24000; state := running |}
              1%float 1.0625%float 2%float 2.03125%float
              eq_refl eq_refl eq_refl eq_refl eq_refl eq_refl eq_refl)))))).
Defined.

(** Pause and resume in double precision: with the clock read at render
    quanta 1, 3, 4 and 14 (128 frames each, at 24 kHz), the position published
    after the first frame is not the exact advance of the clock, and the
    position published after the resume is neither the exact sum of the two
    advances nor their double-precision sum. *)
Lemma pause_resume_rounding :
  currentTime (run (loaded 2400) [Play (clockAt 1); Frame (clockAt 3)])
  = 0.010666666666666668%float /\
  ~ (valueOf 0.010666666666666668%float
     == valueOf (clockAt 3) - valueOf (clockAt 1))%Q /\
  currentTime (run (loaded 2400)
                   [Play (clockAt 1); Frame (clockAt 3); Pause;
                    Play (clockAt 4); Frame (clockAt 14)])
  = 0.064%float /\
  ~ (valueOf 0.064%float
     == valueOf 0.010666666666666668%float
        + (valueOf (clockAt 14) - valueOf (clockAt 4)))%Q /\
  0.064%float <> (0.010666666666666668 + (clockAt 14 - clockAt 4))%float.
Proof.
  split; [vm_compute; reflexivity|].
  split; [apply Qeq_bool_neq; vm_compute; reflexivity|].
  split; [vm_compute; reflexivity|].
  split; [apply Qeq_bool_neq; vm_compute; reflexivity|].
  apply float_neq. vm_compute. reflexivity.
Qed.

(** ** Decoder *)

Lemma int16_of_range (lo hi : byte) : -32768 <= int16_of lo hi <= 32767.
Proof.
  unfold int16_of.
  pose proof (Byte.to_N_bounded lo). pose proof (Byte.to_N_bounded hi).
  destruct (Z.ltb_spec (Z.of_N (Byte.to_N lo) + 256 * Z.of_N (Byte.to_N hi)) 32768); lia.
Qed.

Lemma int16_elements_range (bytes : list byte) :
  Forall (fun v => -32768 <= v <= 32767) (int16_elements bytes).
Proof.
  assert (forall n (l : list byte), (List.length l <= n)%nat ->
            Forall (fun v => -32768 <= v <= 32767) (int16_elements l)) as H.
  { induction n as [|n IH]; intros [|lo [|hi rest]] Hl; cbn in *;
      try constructor; try lia.
    - apply int16_of_range.
    - destruct n; [lia|]. apply IH. apply le_S_n in Hl.
      destruct rest as [|x [|y r]]; cbn in *; lia. }
  exact (H _ bytes (le_n _)).
Qed.

Lemma In_Zrange (count : nat) :
  forall start v, start <= v < start + Z.of_nat count -> In v (Zrange start count).
Proof.
  induction count as [|n IH]; intros start v Hv; [lia|].
  cbn [Zrange]. destruct (Z.eq_dec v start) as [->|Hne]; [now left|].
  right. apply IH. lia.
Qed.

Lemma all_samples_exact : forallb sample_exact int16_values = true.
Proof. vm_compute. reflexivity. Qed.

Lemma sample_exact_int16 (v : Z) :
  -32768 <= v <= 32767 -> sample_exact v = true.
Proof.
  intros Hv. apply (proj1 (forallb_forall sample_exact int16_values) all_samples_exact).
  unfold int16_values. apply In_Zrange. lia.
Qed.

Lemma sample_exact_sound (v : Z) :
  sample_exact v = true ->
  sampleOfInt16 v = (JS.of_Z v / 32768)%float /\
  (valueOf (JS.of_Z v / 32768)%float == inject_Z v / 32768)%Q.
Proof.
  unfold sample_exact, sampleOfInt16, fround, valueOf. cbv zeta.
  destruct (Prim2SF (JS.of_Z v / 32768)%float) as [s|s| |s m e]; try discriminate.
  - intros ->%Z.eqb_eq. split; reflexivity.
  - intros [[[H1 H2]%andb_true_iff H3]%andb_true_iff H4]%andb_true_iff.
    apply FloatAxioms.Leibniz.eqb_spec in H1. apply Z.leb_le in H2.
    apply Z.eqb_eq in H3. apply Bool.eqb_prop in H4.
    split; [exact H1|]. unfold SF2Q.
    assert (inject_Z (if s then Z.neg m else Z.pos m)
            == inject_Z v * 2 ^ (- (e + 15)))%Q as ->.
    { change 2%Q with (inject_Z 2).
      rewrite <- (Zpower_Qpower 2 (- (e + 15))) by lia. rewrite <- inject_Z_mult.
      apply inject_Z_injective. subst s.
      destruct (Z.ltb_spec v 0); [|lia].
      change (Z.neg m) with (- Z.pos m). lia. }
    rewrite <- Qmult_assoc, <- Qpower_plus by exact Q2_neq_0.
    replace (- (e + 15) + e) with (-15) by lia. reflexivity.
Qed.

Lemma decodeBytes_Ok (bytes : list byte) (buf : AudioBuffer) :
  decodeBytes bytes = Ok buf ->
  Nat.even (List.length bytes) = true /\
  int16_elements bytes <> [] /\
  buf = {| numberOfChannels := 1; sampleRate := 24000;
           channelData := map sampleOfInt16 (int16_elements bytes) |}.
Proof.
  unfold decodeBytes, newInt16Array.
  destruct (Nat.even (List.length bytes)); [|discriminate]. cbn [bind].
  unfold createBuffer. destruct (int16_elements bytes) as [|v l]; [discriminate|].
  cbn. intros [= <-]. repeat split. discriminate.
Qed.

(** C7: in a decoded buffer, the sample at every index is the double
    [v / 32768.0] of the 16-bit element [v] at that index (storing it in the
    [Float32Array] loses nothing), and its value is exactly [v / 32768].  So
    [-32768] decodes to [-1.0], [0] to [0.0] and [32767] to [32767 / 32768],
    which is not [1.0] as a division by [32767] would give. *)
Theorem decoded_sample
        (bytes : list byte) (buf : AudioBuffer) (i : nat) (v : Z) :
  decodeBytes bytes = Ok buf ->
  nth_error (int16_elements bytes) i = Some v ->
  (-32768 <= v <= 32767) /\
  nth_error (channelData buf) i = Some (JS.of_Z v / 32768)%float /\
  (forall x, nth_error (channelData buf) i = Some x ->
             (valueOf x == inject_Z v / 32768)%Q) /\
  sampleOfInt16 (-32768) = (-1)%float /\
  sampleOfInt16 0 = 0%float /\
  sampleOfInt16 32767 = (32767 / 32768)%float /\
  sampleOfInt16 32767 <> (32767 / 32767)%float.
Proof.
  intros Hd Hv.
  apply decodeBytes_Ok in Hd as (_ & _ & ->). cbn [channelData].
  assert (-32768 <= v <= 32767) as Hr.
  { apply nth_error_In in Hv.
    exact (proj1 (Forall_forall _ _) (int16_elements_range bytes) v Hv). }
  destruct (sample_exact_sound v (sample_exact_int16 v Hr)) as [He1 He2].
  assert (nth_error (map sampleOfInt16 (int16_elements bytes)) i
          = Some (JS.of_Z v / 32768)%float) as Hn.
  { rewrite nth_error_map, Hv. cbn. now rewrite He1. }
  split; [exact Hr|]. split; [exact Hn|]. split.
  - intros x Hx. rewrite Hn in Hx. injection Hx as <-. exact He2.
  - repeat split; try (vm_compute; reflexivity).
    apply float_neq. vm_compute. reflexivity.
Qed.

Lemma decoded_sample_witness :
  decode "AID/f///"%string
  = Ok {| numberOfChannels := 1; sampleRate := 24000;
          channelData := [(-1)%float; 0.999969482421875%float;
                          (-3.0517578125e-05)%float] |} /\
  nth_error [(-1)%float; 0.999969482421875%float; (-3.0517578125e-05)%float] 1
  = Some (JS.of_Z 32767 / 32768)%float.
Proof.
  split; [vm_compute; reflexivity|].
  exact (proj1 (proj2 (decoded_sample
                         ["000"%byte; "128"%byte; "255"%byte; "127"%byte;
                          "255"%byte; "255"%byte]
                         {| numberOfChannels := 1; sampleRate := 24000;
                            channelData := [(-1)%float; 0.999969482421875%float;
                                            (-3.0517578125e-05)%float] |}
                         1%nat 32767 eq_refl eq_refl))).
Defined.

(** C8 (as the code has it): a payload whose decoded byte length is odd is
    not truncated.  The 16-bit view over the bytes cannot be made, the
    constructor throws a [RangeError], and [initAudio] catches it: no buffer
    and no duration are set. *)
Theorem odd_length_throws (bytes : list byte) :
  Nat.odd (List.length bytes) = true ->
  decodeBytes bytes = Throw RangeError /\
  forall (base64Audio : string) (ctxState : AudioContextState) (st : Player),
    Base64.atob base64Audio = Ok bytes ->
    decode base64Audio = Throw RangeError /\
    audioBuffer (initAudio ctxState base64Audio st) = audioBuffer st /\
    duration (initAudio ctxState base64Audio st) = duration st.
Proof.
  intros Hodd.
  assert (decodeBytes bytes = Throw RangeError) as E.
  { unfold decodeBytes, newInt16Array. rewrite <- Nat.negb_odd, Hodd. reflexivity. }
  split; [exact E|]. intros payload cs st Ha.
  assert (decode payload = Throw RangeError) as E' by (unfold decode; now rewrite Ha).
  unfold initAudio. rewrite E'. auto.
Qed.

Lemma odd_length_throws_witness :
  Base64.atob "AAAA"%string = Ok ["000"%byte; "000"%byte; "000"%byte] /\
  audioBuffer (initAudio running "AAAA"%string initialPlayer) = None.
Proof.
  split; [reflexivity|].
  exact (proj1 (proj2 (proj2 (odd_length_throws
                                ["000"%byte; "000"%byte; "000"%byte] eq_refl)
                             "AAAA"%string running initialPlayer eq_refl))).
Defined.

(** Three bytes are not decoded to one sample: the decoder fails. *)
Lemma odd_length_not_truncated :
  Base64.atob "AAAA"%string = Ok ["000"%byte; "000"%byte; "000"%byte] /\
  decode "AAAA"%string = Throw RangeError /\
  ~ (exists buf : AudioBuffer,
        decode "AAAA"%string = Ok buf /\
        List.length (channelData buf) = Nat.div2 3).
Proof.
  split; [reflexivity|]. split; [reflexivity|].
  intros [buf [H _]]. vm_compute in H. discriminate.
Qed.

(** * Further properties *)

(** ** Decoder: buffers, samples and failures *)

Lemma int16_elements_pairs (bytes : list byte) :
  List.length (int16_elements bytes) = Nat.div2 (List.length bytes) /\
  forall (i : nat) (lo hi : byte),
    nth_error bytes (2 * i) = Some lo -> nth_error bytes (2 * i + 1) = Some hi ->
    nth_error (int16_elements bytes) i = Some (int16_of lo hi).
Proof.
  assert (forall n (l : list byte), (List.length l <= n)%nat ->
            List.length (int16_elements l) = Nat.div2 (List.length l) /\
            forall (i : nat) (lo hi : byte),
              nth_error l (2 * i) = Some lo -> nth_error l (2 * i + 1) = Some hi ->
              nth_error (int16_elements l) i = Some (int16_of lo hi)) as H.
  { induction n as [|n IH]; intros [|a [|b rest]] Hl; cbn [List.length] in Hl; try lia.
    - split; [reflexivity|]. intros [|i] lo hi H; discriminate.
    - split; [reflexivity|]. intros [|i] lo hi H; discriminate.
    - split; [reflexivity|]. intros [|i] lo hi H1 H2; cbn in *; try discriminate.
      destruct (i + S (i + 0))%nat; discriminate.
    - destruct (IH rest ltac:(lia)) as [IHl IHn].
      split; [cbn [int16_elements List.length Nat.div2]; now rewrite IHl|].
      intros [|i] lo hi H1 H2.
      + cbn in H1, H2. injection H1 as <-. injection H2 as <-. reflexivity.
      + replace (2 * S i)%nat with (S (S (2 * i))) in H1 by lia.
        replace (2 * S i + 1)%nat with (S (S (2 * i + 1))) in H2 by lia.
        cbn [nth_error] in H1, H2. cbn [int16_elements nth_error].
        now apply IHn. }
  exact (H _ bytes (le_n _)).
Qed.

Lemma decodeBytes_even (bytes : list byte) :
  Nat.even (List.length bytes) = true -> bytes <> [] ->
  decodeBytes bytes
  = Ok {| numberOfChannels := 1; sampleRate := 24000;
          channelData := map sampleOfInt16 (int16_elements bytes) |}.
Proof.
  intros He Hne. unfold decodeBytes, newInt16Array. rewrite He. cbn [bind].
  destruct bytes as [|a [|b rest]]; [congruence|discriminate|].
  reflexivity.
Qed.

(** X1: a payload of an even, positive number of bytes decodes: the buffer has
    one channel at 24 kHz and one sample for every two bytes, and the
    duration the component stores is that number of samples over 24000. *)
Theorem decode_even_length
        (base64Audio : string) (bytes : list byte)
        (ctxState : AudioContextState) (st : Player) :
  Base64.atob base64Audio = Ok bytes ->
  Nat.even (List.length bytes) = true -> bytes <> [] ->
  exists buf : AudioBuffer,
    decode base64Audio = Ok buf /\
    numberOfChannels buf = 1 /\ sampleRate buf = 24000 /\
    List.length (channelData buf) = Nat.div2 (List.length bytes) /\
    audioBuffer (initAudio ctxState base64Audio st) = Some buf /\
    duration (initAudio ctxState base64Audio st)
    = (JS.of_nat (Nat.div2 (List.length bytes)) / 24000)%float /\
    audioContextRef (initAudio ctxState base64Audio st)
    = Some {| ctxSampleRate := 24000; state := ctxState |}.
Proof.
  intros Ha He Hne. eexists.
  assert (decode base64Audio
          = Ok {| numberOfChannels := 1; sampleRate := 24000;
                  channelData := map sampleOfInt16 (int16_elements bytes) |}) as E.
  { unfold decode. rewrite Ha. cbn [bind]. now apply decodeBytes_even. }
  split; [exact E|]. cbn [numberOfChannels sampleRate channelData].
  rewrite length_map, (proj1 (int16_elements_pairs bytes)).
  unfold initAudio. rewrite E. cbn [audioBuffer duration audioContextRef].
  unfold bufferDuration. cbn [channelData sampleRate].
  rewrite length_map, (proj1 (int16_elements_pairs bytes)).
  repeat split; reflexivity.
Qed.

Lemma decode_even_length_witness :
  Base64.atob "AID/f///"%string
  = Ok ["000"%byte; "128"%byte; "255"%byte; "127"%byte; "255"%byte; "255"%byte] /\
  exists buf : AudioBuffer,
    decode "AID/f///"%string = Ok buf /\
    numberOfChannels buf = 1 /\ sampleRate buf = 24000 /\
    List.length (channelData buf) = 3%nat /\
    audioBuffer (initAudio running "AID/f///"%string initialPlayer) = Some buf /\
    duration (initAudio running "AID/f///"%string initialPlayer) = 0.000125%float /\
    audioContextRef (initAudio running "AID/f///"%string initialPlayer)
    = Some {| ctxSampleRate := 24000; state := running |}.
Proof.
  split; [reflexivity|].
  exact (decode_even_length
           "AID/f///"%string
           ["000"%byte; "128"%byte; "255"%byte; "127"%byte; "255"%byte; "255"%byte]
           running initialPlayer eq_refl eq_refl ltac:(discriminate)).
Defined.

(** X2: the sample at index [i] of a decoded buffer is made of the bytes at
    [2 i] (low) and [2 i + 1] (high), read as a 16-bit two's complement
    number. *)
Theorem sample_bytes (bytes : list byte) (buf : AudioBuffer) (i : nat) (lo hi : byte) :
  decodeBytes bytes = Ok buf ->
  nth_error bytes (2 * i) = Some lo -> nth_error bytes (2 * i + 1) = Some hi ->
  exists x : float,
    nth_error (channelData buf) i = Some x /\
    x = (JS.of_Z (int16_of lo hi) / 32768)%float /\
    (valueOf x == inject_Z (int16_of lo hi) / 32768)%Q /\
    (int16_of lo hi < 0 <-> (128 <= Z.of_N (Byte.to_N hi))).
Proof.
  intros Hd Hlo Hhi.
  apply decodeBytes_Ok in Hd as (_ & _ & ->). cbn [channelData].
  pose proof (proj2 (int16_elements_pairs bytes) i lo hi Hlo Hhi) as Hn.
  destruct (sample_exact_sound _ (sample_exact_int16 _ (int16_of_range lo hi)))
    as [He1 He2].
  exists (JS.of_Z (int16_of lo hi) / 32768)%float. repeat split.
  - rewrite nth_error_map, Hn. cbn. now rewrite He1.
  - exact He2.
  - unfold int16_of. pose proof (Byte.to_N_bounded lo). pose proof (Byte.to_N_bounded hi).
    destruct (Z.ltb_spec (Z.of_N (Byte.to_N lo) + 256 * Z.of_N (Byte.to_N hi)) 32768); lia.
  - unfold int16_of. pose proof (Byte.to_N_bounded lo). pose proof (Byte.to_N_bounded hi).
    destruct (Z.ltb_spec (Z.of_N (Byte.to_N lo) + 256 * Z.of_N (Byte.to_N hi)) 32768); lia.
Qed.

Lemma sample_bytes_witness :
  exists x : float,
    nth_error [(-1)%float; 0.999969482421875%float; (-3.0517578125e-05)%float] 1 = Some x /\
    x = (JS.of_Z (int16_of "255"%byte "127"%byte) / 32768)%float /\
    (valueOf x == inject_Z (int16_of "255"%byte "127"%byte) / 32768)%Q /\
    (int16_of "255"%byte "127"%byte < 0 <-> (128 <= Z.of_N (Byte.to_N "127"%byte))).
Proof.
  exact (sample_bytes
           ["000"%byte; "128"%byte; "255"%byte; "127"%byte; "255"%byte; "255"%byte]
           {| numberOfChannels := 1; sampleRate := 24000;
              channelData := [(-1)%float; 0.999969482421875%float;
                              (-3.0517578125e-05)%float] |}
           1%nat "255"%byte "127"%byte eq_refl eq_refl eq_refl).
Defined.

Lemma sample_range (v : Z) :
  -32768 <= v <= 32767 ->
  (-1 <=? sampleOfInt16 v)%float = true /\ (sampleOfInt16 v <? 1)%float = true.
Proof.
  intros Hv. pose proof (sample_exact_int16 v Hv) as Hx.
  destruct (sample_exact_sound v Hx) as [-> _].
  unfold sample_exact in Hx. cbv zeta in Hx.
  rewrite leb_spec, ltb_spec.
  change (Prim2SF (-1)) with (S754_finite true 4503599627370496 (-52)).
  change (Prim2SF 1) with (S754_finite false 4503599627370496 (-52)).
  pose proof (Prim2SF_valid (JS.of_Z v / 32768)%float) as V.
  destruct (Prim2SF (JS.of_Z v / 32768)%float) as [s|s| |s m e]; try discriminate.
  - destruct s; split; reflexivity.
  - apply andb_true_iff in Hx as [[[_ H2]%andb_true_iff H3]%andb_true_iff H4].
    apply Z.leb_le in H2. apply Z.eqb_eq in H3. apply Bool.eqb_prop in H4.
    change prec with 53 in V. change emax with 1024 in V. cbn [valid_binary] in V.
    destruct (bounded_cell m e V) as ((_ & Hm) & He & Hn).
    assert (0 < 2 ^ (- (e + 15))) as Hp by (apply Z.pow_pos_nonneg; lia).
    assert (e < -52 \/ (e = -52 /\ Z.abs v = 32768)) as Hcase.
    { destruct (Z.lt_ge_cases e (-52)) as [|Hge]; [now left|right].
      destruct Hn as [->|Hn]; [lia|].
      assert (2 ^ (- (e + 15)) <= 2 ^ 37) as Hle by (apply Z.pow_le_mono_r; lia).
      change (2 ^ 52) with (32768 * 2 ^ 37) in Hn.
      assert (Z.abs v <= 32768) by lia.
      assert (Z.abs v = 32768 /\ 2 ^ (- (e + 15)) = 2 ^ 37) as [Ha Hb] by nia.
      split; [|exact Ha].
      apply Z.pow_inj_r in Hb; lia. }
    unfold SFleb, SFltb, SFcompare. destruct s.
    + split; [|reflexivity].
      destruct Hcase as [Hlt | [-> Ha]].
      * destruct (Z.compare_spec (-52) e); try reflexivity; lia.
      * rewrite Ha in H3. change (- (-52 + 15)) with 37 in H3.
        change (32768 * 2 ^ 37) with (Zpos 4503599627370496) in H3.
        injection H3 as <-. reflexivity.
    + split; [reflexivity|].
      destruct (Z.ltb_spec v 0); [discriminate|].
      destruct Hcase as [Hlt | [_ Ha]]; [|lia].
      destruct (Z.compare_spec e (-52)); try reflexivity; lia.
Qed.

(** X3: every sample of a decoded buffer lies in [[-1, 1)]. *)
Theorem samples_in_range (bytes : list byte) (buf : AudioBuffer) (x : float) :
  decodeBytes bytes = Ok buf -> In x (channelData buf) ->
  (-1 <=? x)%float = true /\ (x <? 1)%float = true.
Proof.
  intros Hd Hx. apply decodeBytes_Ok in Hd as (_ & _ & ->). cbn [channelData] in Hx.
  apply in_map_iff in Hx as (v & <- & Hv).
  apply sample_range.
  exact (proj1 (Forall_forall _ _) (int16_elements_range bytes) v Hv).
Qed.

Lemma samples_in_range_witness :
  (-1 <=? -1)%float = true /\ (-1 <? 1)%float = true.
Proof.
  exact (samples_in_range
           ["000"%byte; "128"%byte; "255"%byte; "127"%byte]
           {| numberOfChannels := 1; sampleRate := 24000;
              channelData := [(-1)%float; 0.999969482421875%float] |}
           (-1)%float eq_refl (or_introl eq_refl)).
Defined.

Lemma initAudio_throw (e : Exception) (ctxState : AudioContextState)
      (base64Audio : string) (st : Player) :
  decode base64Audio = Throw e ->
  initAudio ctxState base64Audio st
  = {| isPlaying := isPlaying st;
       audioContextRef := Some {| ctxSampleRate := 24000; state := ctxState |};
       audioSourceRef := audioSourceRef st; startTimeRef := startTimeRef st;
       currentTime := currentTime st; duration := duration st;
       audioBuffer := audioBuffer st; animationFrame := animationFrame st |}.
Proof. intros E. unfold initAudio. now rewrite E. Qed.

(** X4: a payload that decodes to no byte at all (white space only) gives no
    frames: [createBuffer] refuses a buffer of length 0, the exception is
    caught, and the component is left with the new context and nothing
    else. *)
Theorem no_bytes_no_buffer
        (base64Audio : string) (ctxState : AudioContextState) (st : Player) :
  Base64.atob base64Audio = Ok [] ->
  decode base64Audio = Throw NotSupportedError /\
  initAudio ctxState base64Audio st
  = {| isPlaying := isPlaying st;
       audioContextRef := Some {| ctxSampleRate := 24000; state := ctxState |};
       audioSourceRef := audioSourceRef st; startTimeRef := startTimeRef st;
       currentTime := currentTime st; duration := duration st;
       audioBuffer := audioBuffer st; animationFrame := animationFrame st |}.
Proof.
  intros Ha.
  assert (decode base64Audio = Throw NotSupportedError) as E
      by (unfold decode; now rewrite Ha).
  split; [exact E|]. now apply initAudio_throw with (e := NotSupportedError).
Qed.

Lemma no_bytes_no_buffer_witness :
  Base64.atob " "%string = Ok [] /\
  decode " "%string = Throw NotSupportedError /\
  audioBuffer (initAudio running " "%string initialPlayer) = None.
Proof.
  split; [reflexivity|].
  destruct (no_bytes_no_buffer " "%string running initialPlayer eq_refl) as [E1 E2].
  split; [exact E1|]. rewrite E2. reflexivity.
Defined.

Lemma ascii_match_other {A} (a : ascii) (x y : A) :
  a <> "="%char ->
  match a with "="%char => x | _ => y end = y.
Proof.
  intros H. destruct a as [[] [] [] [] [] [] [] []]; try reflexivity.
  exfalso. now apply H.
Qed.

Lemma strip_padding_keeps (c : ascii) (cs : list ascii) :
  c <> "="%char -> In c cs -> In c (Base64.strip_padding cs).
Proof.
  intros Hc Hin. unfold Base64.strip_padding.
  destruct (List.length cs mod 4 =? 0)%nat; [|exact Hin].
  assert (In c (rev cs)) as Hr by now apply in_rev in Hin.
  destruct (rev cs) as [|a l]; [exact Hin|].
  destruct (Ascii.eqb_spec a "="%char) as [->|Ha].
  - destruct Hr as [Hr|Hr]; [congruence|].
    destruct l as [|b r]; [destruct Hr|].
    destruct (Ascii.eqb_spec b "="%char) as [->|Hb].
    + destruct Hr as [Hr|Hr]; [congruence|]. now apply in_rev in Hr.
    + rewrite (ascii_match_other b _ (rev (b :: r)) Hb).
      apply -> in_rev. exact Hr.
  - now rewrite (ascii_match_other a _ cs Ha).
Qed.

Lemma values_invalid (c : ascii) (cs : list ascii) :
  Base64.value c = None -> In c cs -> Base64.values cs = None.
Proof.
  intros Hv. induction cs as [|a cs IH]; intros Hin; [destruct Hin|].
  cbn [Base64.values]. destruct Hin as [->|Hin].
  - now rewrite Hv.
  - rewrite (IH Hin). now destruct (Base64.value a).
Qed.

(** X5: a payload with a character that is neither of the base64 alphabet, nor
    white space, nor [=] is not decoded: [atob] throws, the exception is
    caught, and the component is left with the new context and nothing
    else. *)
Theorem invalid_character_caught
        (base64Audio : string) (c : ascii)
        (ctxState : AudioContextState) (st : Player) :
  In c (list_ascii_of_string base64Audio) ->
  Base64.value c = None -> Base64.is_whitespace c = false -> c <> "="%char ->
  Base64.atob base64Audio = Throw InvalidCharacterError /\
  decode base64Audio = Throw InvalidCharacterError /\
  initAudio ctxState base64Audio st
  = {| isPlaying := isPlaying st;
       audioContextRef := Some {| ctxSampleRate := 24000; state := ctxState |};
       audioSourceRef := audioSourceRef st; startTimeRef := startTimeRef st;
       currentTime := currentTime st; duration := duration st;
       audioBuffer := audioBuffer st; animationFrame := animationFrame st |}.
Proof.
  intros Hin Hv Hw Hc.
  assert (Base64.atob base64Audio = Throw InvalidCharacterError) as Ea.
  { unfold Base64.atob. cbv zeta.
    destruct (_ =? 1)%nat; [reflexivity|].
    rewrite (values_invalid c); [reflexivity|exact Hv|].
    apply strip_padding_keeps; [exact Hc|].
    apply filter_In. split; [exact Hin|]. now rewrite Hw. }
  assert (decode base64Audio = Throw InvalidCharacterError) as E
      by (unfold decode; now rewrite Ea).
  split; [exact Ea|]. split; [exact E|].
  now apply initAudio_throw with (e := InvalidCharacterError).
Qed.

Lemma invalid_character_caught_witness :
  decode "AA*A"%string = Throw InvalidCharacterError /\
  audioBuffer (initAudio running "AA*A"%string initialPlayer) = None.
Proof.
  destruct (invalid_character_caught "AA*A"%string "*"%char running initialPlayer
              (or_intror (or_intror (or_introl eq_refl))) eq_refl eq_refl
              ltac:(discriminate)) as (_ & E1 & E2).
  split; [exact E1|]. rewrite E2. reflexivity.
Defined.

Lemma value_not_whitespace (c : ascii) :
  Base64.value c <> None -> Base64.is_whitespace c = false /\ c <> "="%char.
Proof.
  destruct c as [[] [] [] [] [] [] [] []]; vm_compute; intros H; split;
    try reflexivity; try discriminate; try (exfalso; now apply H).
Qed.

Lemma values_length (cs : list ascii) :
  Forall (fun c => Base64.value c <> None) cs ->
  exists vs : list N, Base64.values cs = Some vs /\ List.length vs = List.length cs.
Proof.
  induction 1 as [|c cs Hc _ (vs & E & L)]; [now exists []|].
  cbn [Base64.values]. destruct (Base64.value c) as [v|]; [|congruence].
  rewrite E. exists (v :: vs). split; [reflexivity|cbn; now rewrite L].
Qed.

Lemma bytes_of_length (vs : list N) :
  List.length (Base64.bytes_of vs)
  = (3 * (List.length vs / 4)
     + match List.length vs mod 4 with 2 => 1 | 3 => 2 | _ => 0 end)%nat.
Proof.
  assert (forall n (l : list N), (List.length l <= n)%nat ->
            List.length (Base64.bytes_of l)
            = (3 * (List.length l / 4)
               + match List.length l mod 4 with 2 => 1 | 3 => 2 | _ => 0 end)%nat) as H.
  { induction n as [|n IH]; intros l Hl.
    - destruct l; [reflexivity|cbn in Hl; lia].
    - destruct l as [|a [|b [|c [|d rest]]]]; try reflexivity.
      cbn [Base64.bytes_of List.length].
      rewrite IH by (cbn in Hl; lia).
      replace (S (S (S (S (List.length rest))))) with (List.length rest + 1 * 4)%nat by lia.
      rewrite Nat.div_add, Nat.Div0.mod_add by lia. lia. }
  exact (H _ vs (le_n _)).
Qed.

Lemma strip_padding_body (body : list ascii) (pad : nat) :
  Forall (fun c => Base64.value c <> None) body -> (pad <= 2)%nat ->
  ((List.length body + pad) mod 4 = 0)%nat ->
  Base64.strip_padding (body ++ repeat "="%char pad) = body.
Proof.
  intros Hb Hp Hm. unfold Base64.strip_padding.
  rewrite length_app, repeat_length, Hm. cbn [Nat.eqb].
  rewrite rev_app_distr, rev_repeat.
  assert (forall r, rev body = r ->
            match r with
            | [] => True
            | c :: _ => c <> "="%char
            end) as Hhead.
  { intros r <-. destruct (rev body) as [|c r] eqn:E; [exact I|].
    assert (In c body) as Hin by (apply in_rev; rewrite E; now left).
    exact (proj2 (value_not_whitespace c (proj1 (Forall_forall _ _) Hb c Hin))). }
  specialize (Hhead (rev body) eq_refl).
  destruct pad as [|[|[|pad]]]; [| | |lia]; cbn [repeat app].
  - rewrite app_nil_r.
    destruct (rev body) as [|c r] eqn:E; [reflexivity|].
    now rewrite (ascii_match_other c _ _ Hhead).
  - destruct (rev body) as [|c r] eqn:E.
    + apply (f_equal (@List.length ascii)) in E. rewrite length_rev in E.
      cbn in E. rewrite E in Hm. discriminate.
    + rewrite (ascii_match_other c _ (rev (c :: r)) Hhead).
      now rewrite <- E, rev_involutive.
  - now rewrite rev_involutive.
Qed.

(** The bytes of a payload: [atob] of base64 text of [4 k] characters, the
    last [pad <= 2] of them [=], gives [3 k - pad] bytes. *)
Lemma atob_length (base64Audio : string) (body : list ascii) (pad : nat) :
  list_ascii_of_string base64Audio = body ++ repeat "="%char pad ->
  Forall (fun c => Base64.value c <> None) body -> (pad <= 2)%nat ->
  ((List.length body + pad) mod 4 = 0)%nat ->
  exists bytes : list byte,
    Base64.atob base64Audio = Ok bytes /\
    List.length bytes = (3 * ((List.length body + pad) / 4) - pad)%nat.
Proof.
  intros E Hb Hp Hm. unfold Base64.atob. rewrite E.
  assert (filter (fun c => negb (Base64.is_whitespace c)) (body ++ repeat "="%char pad)
          = body ++ repeat "="%char pad) as ->.
  { apply forallb_filter_id. rewrite forallb_app. apply andb_true_iff. split.
    - apply forallb_forall. intros c Hc.
      now rewrite (proj1 (value_not_whitespace c (proj1 (Forall_forall _ _) Hb c Hc))).
    - apply forallb_forall. intros c Hc. apply repeat_spec in Hc. now subst c. }
  cbv zeta. rewrite (strip_padding_body body pad Hb Hp Hm).
  pose proof (Nat.div_mod_eq (List.length body) 4) as Hd.
  pose proof (Nat.div_mod_eq (List.length body + pad) 4) as Hd'.
  pose proof (Nat.mod_upper_bound (List.length body) 4 ltac:(lia)) as Hu.
  rewrite Hm in Hd'.
  assert ((List.length body mod 4 =? 1)%nat = false) as ->
      by (apply Nat.eqb_neq; lia).
  destruct (values_length body Hb) as (vs & -> & L).
  eexists. split; [reflexivity|]. rewrite bytes_of_length, L.
  destruct (List.length body mod 4)%nat as [|[|[|[|r]]]] eqn:Er; lia.
Qed.

(** X6: which payloads decode: base64 text of [4 k] characters of which the last
    [pad <= 2] are [=] holds [3 k - pad] bytes.  When that number is even and
    positive, the buffer has half as many samples; when it is odd, the 16-bit
    view throws [RangeError]; when it is [0], [createBuffer] throws
    [NotSupportedError]. *)
Theorem payload_samples
        (base64Audio : string) (body : list ascii) (pad : nat) :
  list_ascii_of_string base64Audio = body ++ repeat "="%char pad ->
  Forall (fun c => Base64.value c <> None) body -> (pad <= 2)%nat ->
  ((List.length body + pad) mod 4 = 0)%nat ->
  (Nat.even (3 * ((List.length body + pad) / 4) - pad) = true ->
   (3 * ((List.length body + pad) / 4) - pad <> 0)%nat ->
   exists buf : AudioBuffer,
     decode base64Audio = Ok buf /\
     List.length (channelData buf)
     = Nat.div2 (3 * ((List.length body + pad) / 4) - pad)) /\
  (Nat.odd (3 * ((List.length body + pad) / 4) - pad) = true ->
   decode base64Audio = Throw RangeError) /\
  ((3 * ((List.length body + pad) / 4) - pad = 0)%nat ->
   decode base64Audio = Throw NotSupportedError).
Proof.
  intros E Hb Hp Hm.
  destruct (atob_length base64Audio body pad E Hb Hp Hm) as (bytes & Ea & <-).
  unfold decode. rewrite Ea. cbn [bind]. split; [|split].
  - intros He Hn. eexists. rewrite decodeBytes_even; [|exact He|].
    + split; [reflexivity|]. cbn [channelData].
      now rewrite length_map, (proj1 (int16_elements_pairs bytes)).
    + intros ->. now apply Hn.
  - intros Ho. unfold decodeBytes, newInt16Array. rewrite <- Nat.negb_odd, Ho. reflexivity.
  - intros Hz. destruct bytes; [reflexivity|discriminate].
Qed.

Lemma payload_samples_witness :
  exists buf : AudioBuffer,
    decode "AID/fw=="%string = Ok buf /\ List.length (channelData buf) = 2%nat.
Proof.
  exact (proj1 (payload_samples
                  "AID/fw=="%string
                  ["A"; "I"; "D"; "/"; "f"; "w"]%char 2
                  eq_refl
                  ltac:(repeat constructor; discriminate) ltac:(lia) eq_refl)
               eq_refl ltac:(discriminate)).
Defined.

(** ** Numbers: values, differences and quotients *)

Lemma of_nat_le_pow63 (n : nat) : (JS.of_nat n <=? 9223372036854775808)%float = true.
Proof.
  unfold JS.of_nat. rewrite leb_spec, of_uint63_spec.
  change (Prim2SF 9223372036854775808) with (S754_finite false 4503599627370496 11).
  change prec with 53. change emax with 1024.
  pose proof (Uint63.to_Z_bounded (Uint63.of_Z (Z.of_nat n))) as [H0 H1].
  change Uint63.wB with (2 ^ 63) in H1.
  destruct (Uint63.to_Z (Uint63.of_Z (Z.of_nat n))) as [|p|p]; [reflexivity| |lia].
  cbn [binary_normalize].
  destruct (binary_round_cell false p 0) as (m1 & e1 & l1 & Hl & C & ->).
  rewrite <- (rounded_valid 4503599627370496 11 eq_refl).
  apply (rounded_mono m1 e1 (Zpos 4503599627370496) 11 l1 loc_Exact
                      (F2Q (Zpos p) 0) (F2Q (Zpos 4503599627370496) 11)).
  - apply Qle_trans with (F2Q (2 ^ 63) 0); [apply F2Q_le; lia|].
    unfold F2Q. apply Qle_lteq. right. reflexivity.
  - exact Hl.
  - exact C.
  - cbn. reflexivity.
  - apply bounded_cell. reflexivity.
Qed.

(** The duration of a buffer at 24 kHz is a finite number, not negative. *)
Lemma startAccepts_duration (n : nat) :
  startAccepts (JS.of_nat n / 24000)%float = true.
Proof.
  pose proof (of_nat_nonneg n) as H0. pose proof (of_nat_le_pow63 n) as H1.
  assert ((JS.of_nat n / 24000 <=? 9223372036854775808 / 24000)%float = true) as Hle.
  { destruct (div_mono (JS.of_nat n) 9223372036854775808 24000 H0 H1 eq_refl) as [H|H];
      [exact H|discriminate]. }
  assert ((0 <=? JS.of_nat n / 24000)%float = true) as Hge.
  { destruct (div_mono 0 (JS.of_nat n) 24000 eq_refl H0 eq_refl) as [H|H]; [exact H|].
    apply leb_is_nan_l in Hle. congruence. }
  exact (startAccepts_between _ _ Hge Hle eq_refl).
Qed.

Lemma startAccepts_of_nat (n : nat) : startAccepts (JS.of_nat n) = true.
Proof.
  exact (startAccepts_between _ _ (of_nat_nonneg n) (of_nat_le_pow63 n) eq_refl).
Qed.

Lemma startAccepts_add_0 (y : float) :
  startAccepts y = true -> startAccepts (0 + y)%float = true.
Proof.
  intros Hy. apply startAccepts_spec in Hy. apply startAccepts_spec.
  rewrite add_spec. change (Prim2SF 0) with (S754_zero false). unfold SF64add.
  destruct Hy as [[s ->] | (m & e & ->)]; [left|right]; cbn; eauto.
  destruct s; eauto.
Qed.

Lemma div_nonneg (x d : float) :
  startAccepts x = true -> (0 <? d)%float = true -> (0 <=? x / d)%float = true.
Proof.
  intros Hx. apply startAccepts_spec in Hx.
  rewrite leb_spec, ltb_spec, div_spec. change (Prim2SF 0) with (S754_zero false).
  unfold SF64div. change prec with 53. change emax with 1024.
  destruct (Prim2SF d) as [sd|sd| |sd md ed]; try discriminate;
    destruct sd; try discriminate; intros _;
    destruct Hx as [[sx ->] | (mx & ex & ->)]; try (destruct sx; reflexivity);
    try reflexivity.
  destruct (SFdiv_finite false false mx md ex ed) as (a & b & l & _ & C & E).
  rewrite E. cbn [xorb].
  destruct (rounded_nonneg a b l ltac:(destruct C as ((?&_)&_); lia))
    as [-> | [-> | (p & e' & ->)]]; reflexivity.
Qed.

Lemma div_zero_pos (t d : float) :
  (t =? 0)%float = true -> (0 <? d)%float = true -> (t / d =? 0)%float = true.
Proof.
  rewrite !eqb_spec, ltb_spec, div_spec. change (Prim2SF 0) with (S754_zero false).
  unfold SF64div.
  destruct (Prim2SF t) as [s|[]| |[] m e]; try discriminate.
  intros _.
  destruct (Prim2SF d) as [sd|sd| |sd md ed]; try discriminate;
    destruct sd; try discriminate; intros _; destruct s; reflexivity.
Qed.

Lemma zero_le (p r : float) :
  (p =? 0)%float = true -> (0 <=? r)%float = true -> (p <=? r)%float = true.
Proof.
  rewrite eqb_spec, !leb_spec. change (Prim2SF 0) with (S754_zero false).
  destruct (Prim2SF p) as [s|[]| |[] m e]; try discriminate.
  intros _. destruct (Prim2SF r) as [sr|sr| |sr mr er]; try discriminate; auto.
Qed.

Lemma SF2Q_neg (m : positive) (e : Z) :
  (SF2Q (S754_finite true m e) == - F2Q (Zpos m) e)%Q.
Proof.
  unfold SF2Q, F2Q. change (inject_Z (Zneg m)) with (- inject_Z (Zpos m))%Q. ring.
Qed.

Lemma SFleb_neg (m1 m2 : positive) (e1 e2 : Z) :
  SFleb (S754_finite true m1 e1) (S754_finite true m2 e2)
  = SFleb (S754_finite false m2 e2) (S754_finite false m1 e1).
Proof.
  unfold SFleb, SFcompare.
  change (Pos.compare_cont Eq) with Pos.compare.
  rewrite (Z.compare_antisym e1 e2), (Pos.compare_antisym m1 m2).
  destruct (e1 ?= e2); cbn; try reflexivity.
Qed.

Lemma is_finite_spec (x : float) :
  is_finite x = true ->
  (exists s, Prim2SF x = S754_zero s) \/ (exists s m e, Prim2SF x = S754_finite s m e).
Proof.
  unfold is_finite, is_nan, is_infinity. rewrite !eqb_spec, abs_spec.
  change (Prim2SF infinity) with (S754_infinity false).
  destruct (Prim2SF x) as [s|[]| |s m e]; cbn; try discriminate; intros _; eauto 6.
Qed.

Lemma is_finite_of_SF (x : float) :
  (exists s, Prim2SF x = S754_zero s) \/ (exists s m e, Prim2SF x = S754_finite s m e) ->
  is_finite x = true.
Proof.
  unfold is_finite, is_nan, is_infinity. rewrite !eqb_spec, abs_spec.
  change (Prim2SF infinity) with (S754_infinity false).
  intros [[s ->] | (s & m & e & ->)]; cbn.
  - now destruct s.
  - rewrite Z.compare_refl, Pos.compare_cont_refl. now destruct s.
Qed.

(** Finite numbers compare as their values do. *)
Lemma leb_values (x y : float) :
  is_finite x = true -> is_finite y = true ->
  (x <=? y)%float = true -> (valueOf x <= valueOf y)%Q.
Proof.
  intros Fx Fy. apply is_finite_spec in Fx, Fy. unfold valueOf. rewrite leb_spec.
  pose proof (Prim2SF_valid x) as Vx. pose proof (Prim2SF_valid y) as Vy.
  change prec with 53 in *. change emax with 1024 in *.
  destruct Fx as [[sx Ex] | (sx & mx & ex & Ex)], Fy as [[sy Ey] | (sy & my & ey & Ey)];
    rewrite Ex, Ey in *; cbn [valid_binary] in Vx, Vy.
  - intros _. apply Qle_refl.
  - destruct sy; try discriminate; intros _; cbn [SF2Q];
      apply Qlt_le_weak, (F2Q_pos (Zpos my) ey); lia.
  - destruct sx; try discriminate; intros _; rewrite SF2Q_neg; cbn [SF2Q];
      pose proof (F2Q_pos (Zpos mx) ex ltac:(lia)); lra.
  - destruct sx, sy; try discriminate.
    + rewrite SFleb_neg. intros H.
      apply SFleb_value in H; try (now apply bounded_cell).
      rewrite !SF2Q_neg. lra.
    + intros _. rewrite SF2Q_neg.
      pose proof (F2Q_pos (Zpos mx) ex ltac:(lia)).
      pose proof (F2Q_pos (Zpos my) ey ltac:(lia)).
      change (SF2Q (S754_finite false my ey)) with (F2Q (Zpos my) ey). lra.
    + intros H. apply SFleb_value in H; try (now apply bounded_cell). exact H.
Qed.

(** Numbers that are finite and not negative compare as their values do. *)
Lemma leb_of_values (x y : float) :
  startAccepts x = true -> startAccepts y = true ->
  (valueOf x <= valueOf y)%Q -> (x <=? y)%float = true.
Proof.
  intros Hx Hy. apply startAccepts_spec in Hx, Hy. unfold valueOf.
  rewrite leb_spec.
  pose proof (Prim2SF_valid x) as Bx. pose proof (Prim2SF_valid y) as By.
  change prec with 53 in *. change emax with 1024 in *.
  destruct Hx as [[sx Ex] | (mx & ex & Ex)], Hy as [[sy Ey] | (my & ey & Ey)];
    rewrite Ex, Ey in *; cbn [SF2Q valid_binary] in *; intros H.
  - destruct sx, sy; reflexivity.
  - destruct sx; reflexivity.
  - exfalso. pose proof (F2Q_pos (Zpos mx) ex ltac:(lia)) as Hp. unfold F2Q in Hp.
    apply (Qlt_irrefl 0). now apply Qlt_le_trans with (1 := Hp).
  - rewrite <- (rounded_valid mx ex Bx), <- (rounded_valid my ey By).
    apply (rounded_mono _ _ _ _ _ _ (F2Q (Zpos mx) ex) (F2Q (Zpos my) ey));
      try (now apply bounded_cell); try (cbn; reflexivity).
    exact H.
Qed.

Lemma ltb_of_value (t : float) :
  startAccepts t = true -> (0 < valueOf t)%Q -> (0 <? t)%float = true.
Proof.
  intros Ht. apply startAccepts_spec in Ht. unfold valueOf. rewrite ltb_spec.
  change (Prim2SF 0) with (S754_zero false).
  destruct Ht as [[s E] | (m & e & E)]; rewrite E; cbn [SF2Q]; intros H.
  - now apply Qlt_irrefl in H.
  - reflexivity.
Qed.

(** The difference of a non-negative finite number and a finite number that
    is not larger: a zero, or the rounding of the exact difference. *)
Lemma sub_cell (x y : float) :
  startAccepts x = true -> is_finite y = true -> (valueOf y <= valueOf x)%Q ->
  ((valueOf x - valueOf y == 0)%Q /\ exists s, Prim2SF (x - y) = S754_zero s) \/
  exists (m e : Z) (l : location) (v : Q),
    (v == valueOf x - valueOf y)%Q /\ (0 < v)%Q /\
    located m e l v /\ cell m e /\ Prim2SF (x - y) = rounded false m e l.
Proof.
  intros Hx Hy. apply startAccepts_spec in Hx. apply is_finite_spec in Hy.
  unfold valueOf. rewrite sub_spec. unfold SF64sub.
  pose proof (Prim2SF_valid x) as Vx. pose proof (Prim2SF_valid y) as Vy.
  change prec with 53 in *. change emax with 1024 in *.
  destruct Hx as [[sx Ex] | (mx & ex & Ex)], Hy as [[sy Ey] | (sy & my & ey & Ey)];
    rewrite Ex, Ey in *; cbn [valid_binary] in Vx, Vy; intros Hle.
  - left. split; [cbn; ring|]. destruct sx, sy; cbn; eauto.
  - destruct sy.
    + right. exists (Zpos my), ey, loc_Exact, (F2Q (Zpos my) ey).
      split; [rewrite SF2Q_neg; cbn [SF2Q]; ring|].
      split; [apply F2Q_pos; lia|]. split; [cbn; reflexivity|].
      split; [now apply bounded_cell|].
      cbn [SFsub negb]. symmetry. now apply rounded_valid.
    + exfalso. cbn [SF2Q] in Hle.
      pose proof (F2Q_pos (Zpos my) ey ltac:(lia)) as Hp. unfold F2Q in Hp. lra.
  - right. exists (Zpos mx), ex, loc_Exact, (F2Q (Zpos mx) ex).
    split; [cbn [SF2Q]; unfold F2Q; ring|].
    split; [apply F2Q_pos; lia|]. split; [cbn; reflexivity|].
    split; [now apply bounded_cell|].
    cbn [SFsub]. symmetry. now apply rounded_valid.
  - cbn [SFsub cond_Zopp].
    destruct (shl_align_spec mx ex (Z.min ex ey)) as (Vmx & Emx & _).
    destruct (shl_align_spec my ey (Z.min ex ey)) as (Vmy & Emy & _).
    set (mx' := fst (shl_align mx ex (Z.min ex ey))) in *.
    set (my' := fst (shl_align my ey (Z.min ex ey))) in *.
    replace (Z.min ex (Z.min ex ey)) with (Z.min ex ey) in Emx by lia.
    replace (Z.min ey (Z.min ex ey)) with (Z.min ex ey) in Emy by lia.
    rewrite Emx in Vmx. rewrite Emy in Vmy.
    assert (F2Q (Zpos mx' - cond_Zopp sy (Zpos my')) (Z.min ex ey)
            == SF2Q (S754_finite false mx ex) - SF2Q (S754_finite sy my ey))%Q as Hv.
    { change (SF2Q (S754_finite false mx ex)) with (F2Q (Zpos mx) ex).
      rewrite <- Vmx. destruct sy.
      - rewrite SF2Q_neg, <- Vmy. unfold F2Q. cbn [cond_Zopp].
        change (Zpos mx' - - Zpos my') with (Zpos mx' + Zpos my').
        rewrite inject_Z_plus. ring.
      - change (SF2Q (S754_finite false my ey)) with (F2Q (Zpos my) ey).
        rewrite <- Vmy. unfold F2Q. cbn [cond_Zopp].
        unfold Z.sub. rewrite inject_Z_plus, inject_Z_opp. ring. }
    destruct (Zpos mx' - cond_Zopp sy (Zpos my')) as [|p|p] eqn:Ed; cbn [binary_normalize].
    + left. split; [|eauto]. rewrite <- Hv. unfold F2Q. ring.
    + right.
      destruct (binary_round_cell false p (Z.min ex ey)) as (m1 & e1 & l1 & Hl & C & ->).
      exists m1, e1, l1, (F2Q (Zpos p) (Z.min ex ey)).
      split; [exact Hv|]. split; [apply F2Q_pos; lia|].
      split; [exact Hl|]. split; [exact C|reflexivity].
    + exfalso.
      assert (F2Q (Zneg p) (Z.min ex ey) < 0)%Q as Hn.
      { unfold F2Q. change (inject_Z (Zneg p)) with (- inject_Z (Zpos p))%Q.
        pose proof (F2Q_pos (Zpos p) (Z.min ex ey) ltac:(lia)) as Hp.
        unfold F2Q in Hp. lra. }
      rewrite Hv in Hn. lra.
Qed.

(** Subtraction is monotone in its first argument (for results that are not
    negative). *)
Lemma sub_mono (x1 x2 y : float) :
  startAccepts x1 = true -> startAccepts x2 = true -> is_finite y = true ->
  (y <=? x1)%float = true -> (x1 <=? x2)%float = true ->
  (x1 - y <=? x2 - y)%float = true.
Proof.
  intros H1 H2 Hy Hy1 H12.
  assert (is_finite x1 = true) as F1
      by (unfold startAccepts in H1; now apply andb_true_iff in H1 as [? _]).
  assert (is_finite x2 = true) as F2
      by (unfold startAccepts in H2; now apply andb_true_iff in H2 as [? _]).
  pose proof (leb_values _ _ Hy F1 Hy1) as L1.
  pose proof (leb_values _ _ F1 F2 H12) as L2.
  rewrite leb_spec.
  destruct (sub_cell x1 y H1 Hy L1)
    as [[Z1 [s1 ->]] | (m1 & e1 & l1 & v1 & E1 & P1 & Hl1 & C1 & ->)];
    destruct (sub_cell x2 y H2 Hy (Qle_trans _ _ _ L1 L2))
      as [[Z2 [s2 ->]] | (m2 & e2 & l2 & v2 & E2 & P2 & Hl2 & C2 & ->)].
  - destruct s1, s2; reflexivity.
  - destruct (rounded_nonneg m2 e2 l2 ltac:(destruct C2 as ((?&_)&_); lia))
      as [-> | [-> | (p & e' & ->)]]; destruct s1; reflexivity.
  - exfalso. lra.
  - apply (rounded_mono m1 e1 m2 e2 l1 l2 v1 v2); auto. lra.
Qed.

Lemma rounded_flip (m e : Z) (l : location) (p : positive) (e' : Z) :
  rounded false m e l = S754_finite false p e' ->
  rounded true m e l = S754_finite true p e'.
Proof.
  unfold rounded. destruct (renorm (round_nearest_even m l) e) as [r e1].
  unfold finish. destruct r as [|q|q]; try discriminate.
  destruct (e1 <=? 971); [|discriminate]. now intros [= -> ->].
Qed.

Lemma rounded_below (m e : Z) (l : location) (v : Q) (my : positive) (ey : Z) (s : bool) :
  located m e l v -> cell m e -> (0 < v)%Q -> (v <= F2Q (Zpos my) ey)%Q ->
  bounded 53 1024 my ey = true ->
  (exists s', rounded s m e l = S754_zero s') \/
  (exists p e', rounded s m e l = S754_finite s p e').
Proof.
  intros Hl C Hv Hle B.
  assert (SFleb (rounded false m e l) (S754_finite false my ey) = true) as H.
  { rewrite <- (rounded_valid my ey B).
    apply (rounded_mono m e (Zpos my) ey l loc_Exact v (F2Q (Zpos my) ey)); auto.
    - cbn. reflexivity.
    - now apply bounded_cell. }
  destruct (rounded_nonneg m e l ltac:(destruct C as ((?&_)&_); lia))
    as [E | [E | (p & e' & E)]].
  - left. unfold rounded in *. destruct (renorm (round_nearest_even m l) e) as [r e1].
    unfold finish in *. destruct r as [|q|q]; try discriminate; eauto.
    destruct (e1 <=? 971); discriminate.
  - rewrite E in H. discriminate.
  - right. destruct s; [|eauto]. exists p, e'. now apply rounded_flip.
Qed.

(** The difference of two finite numbers that are not negative is finite. *)
Lemma sub_finite (x y : float) :
  startAccepts x = true -> startAccepts y = true -> is_finite (x - y) = true.
Proof.
  intros Hx Hy. apply is_finite_of_SF.
  apply startAccepts_spec in Hx, Hy. rewrite sub_spec. unfold SF64sub.
  pose proof (Prim2SF_valid x) as Vx. pose proof (Prim2SF_valid y) as Vy.
  change prec with 53 in *. change emax with 1024 in *.
  destruct Hx as [[sx Ex] | (mx & ex & Ex)], Hy as [[sy Ey] | (my & ey & Ey)];
    rewrite Ex, Ey in *; cbn [valid_binary] in Vx, Vy.
  - left. destruct sx, sy; cbn; eauto.
  - right. cbn. eauto.
  - right. cbn. eauto.
  - cbn [SFsub cond_Zopp].
    destruct (shl_align_spec mx ex (Z.min ex ey)) as (Vmx & Emx & _).
    destruct (shl_align_spec my ey (Z.min ex ey)) as (Vmy & Emy & _).
    set (mx' := fst (shl_align mx ex (Z.min ex ey))) in *.
    set (my' := fst (shl_align my ey (Z.min ex ey))) in *.
    replace (Z.min ex (Z.min ex ey)) with (Z.min ex ey) in Emx by lia.
    replace (Z.min ey (Z.min ex ey)) with (Z.min ex ey) in Emy by lia.
    rewrite Emx in Vmx. rewrite Emy in Vmy.
    destruct (Zpos mx' - Zpos my') as [|p|p] eqn:Ed; cbn [binary_normalize].
    + left. eauto.
    + destruct (binary_round_cell false p (Z.min ex ey)) as (m1 & e1 & l1 & Hl & C & ->).
      destruct (rounded_below m1 e1 l1 _ mx ex false Hl C) as [[s' ->] | (q & e' & ->)];
        eauto 6.
      * apply F2Q_pos. lia.
      * rewrite <- Vmx. apply F2Q_le. lia.
    + destruct (binary_round_cell true p (Z.min ex ey)) as (m1 & e1 & l1 & Hl & C & ->).
      destruct (rounded_below m1 e1 l1 _ my ey true Hl C) as [[s' ->] | (q & e' & ->)];
        eauto 6.
      * apply F2Q_pos. lia.
      * rewrite <- Vmy. apply F2Q_le. lia.
Qed.

Lemma F2Q_scale (N e : Z) : e <= 0 -> (F2Q (N * 2 ^ (- e)) e == inject_Z N)%Q.
Proof.
  intros He. unfold F2Q. rewrite inject_Z_mult, pow2_inject by lia.
  rewrite <- Qmult_assoc, <- pow2_add. replace (- e + e) with 0 by lia.
  change (2 ^ 0)%Q with 1%Q. ring.
Qed.

(** Rounding a cell that holds an integer below [2^53] gives that
    integer. *)
Lemma rounded_integer (m e : Z) (l : location) (x : Q) (N : Z) :
  cell m e -> located m e l x -> (x == inject_Z N)%Q -> 0 < N < 2 ^ 53 ->
  exists p : positive,
    rounded false m e l = S754_finite false p e /\ (F2Q (Zpos p) e == inject_Z N)%Q.
Proof.
  intros ((Hm0 & Hm) & He & Hn) Hl Hx HN.
  assert (F2Q m e <= inject_Z N)%Q as Hle.
  { rewrite <- Hx. destruct l as [|c]; cbn in Hl.
    - rewrite Hl. apply Qle_refl.
    - apply Qlt_le_weak. apply Hl. }
  assert (e <= 0) as He0.
  { destruct (Z.le_gt_cases e 0) as [|Hgt]; [assumption|exfalso].
    destruct Hn as [->|Hn]; [lia|].
    assert (inject_Z (2 ^ 53) <= F2Q m e)%Q as H1.
    { apply Qle_trans with (F2Q (2 ^ 52) 1); [apply Qle_lteq; right; reflexivity|].
      apply Qle_trans with (F2Q (2 ^ 52) e); [apply F2Q_exp_le; lia|].
      now apply F2Q_le. }
    pose proof (Qle_trans _ _ _ H1 Hle) as H2. rewrite <- Zle_Qle in H2. lia. }
  pose proof (F2Q_scale N e He0) as Hs.
  assert (0 < 2 ^ (- e)) as Hp by (apply Z.pow_pos_nonneg; lia).
  assert (l = loc_Exact /\ m = N * 2 ^ (- e)) as [-> ->].
  { destruct l as [|c]; cbn in Hl.
    - split; [reflexivity|].
      rewrite Hx, <- Hs in Hl.
      apply Z.le_antisymm; apply (F2Q_le_inv _ _ e); rewrite Hl; apply Qle_refl.
    - exfalso. destruct Hl as (H1 & H2 & _).
      rewrite Hx, <- Hs in H1, H2.
      apply F2Q_lt_inv in H1. apply F2Q_lt_inv in H2. lia. }
  unfold rounded, renorm. cbn [round_nearest_even].
  destruct (Z.ltb_spec (N * 2 ^ (- e)) (2 ^ 53)); [|lia].
  unfold finish.
  destruct (N * 2 ^ (- e)) as [|p|p] eqn:E; [nia| |nia].
  destruct (Z.leb_spec e 971); [|lia].
  exists p. split; [reflexivity|]. exact Hs.
Qed.

Lemma value_zero (x : float) (s : bool) : Prim2SF x = S754_zero s -> (valueOf x == 0)%Q.
Proof. intros E. unfold valueOf. rewrite E. reflexivity. Qed.

(** A length below [2^53] converts to the number of that value. *)
Lemma of_nat_value (n : nat) :
  Z.of_nat n < 2 ^ 53 ->
  (valueOf (JS.of_nat n) == inject_Z (Z.of_nat n))%Q.
Proof.
  intros Hn. unfold valueOf, JS.of_nat. rewrite of_uint63_spec.
  rewrite Uint63.of_Z_spec. change Uint63.wB with (2 ^ 63).
  rewrite Z.mod_small by lia.
  change prec with 53. change emax with 1024.
  destruct (Z.of_nat n) as [|p|p] eqn:E; [reflexivity| |lia].
  cbn [binary_normalize].
  destruct (binary_round_cell false p 0) as (m1 & e1 & l1 & Hl & C & ->).
  destruct (rounded_integer m1 e1 l1 (F2Q (Zpos p) 0) (Zpos p) C Hl) as (q & -> & Hq);
    [unfold F2Q; change (2 ^ 0)%Q with 1%Q; ring|lia|].
  exact Hq.
Qed.

(** The sum of two non-negative numbers of integer values is the number of
    the sum of the values, below [2^53]. *)
Lemma add_value (x y : float) (a b : Z) :
  startAccepts x = true -> startAccepts y = true ->
  (valueOf x == inject_Z a)%Q -> (valueOf y == inject_Z b)%Q ->
  a + b < 2 ^ 53 ->
  startAccepts (x + y)%float = true /\ (valueOf (x + y)%float == inject_Z (a + b))%Q.
Proof.
  intros Hx Hy Va Vb Hs.
  rewrite startAccepts_spec. apply startAccepts_spec in Hx, Hy.
  unfold valueOf in *. rewrite add_spec. unfold SF64add.
  change prec with 53. change emax with 1024.
  pose proof (Prim2SF_valid x) as Bx. pose proof (Prim2SF_valid y) as By.
  change prec with 53 in *. change emax with 1024 in *.
  destruct Hx as [[sx Ex] | (mx & ex & Ex)], Hy as [[sy Ey] | (my & ey & Ey)];
    rewrite Ex, Ey in *; cbn [SF2Q] in Va, Vb.
  - assert (a = 0) as -> by (apply inject_Z_injective; now rewrite <- Va).
    assert (b = 0) as -> by (apply inject_Z_injective; now rewrite <- Vb).
    destruct sx, sy; cbn; (split; [left; eauto|reflexivity]).
  - assert (a = 0) as -> by (apply inject_Z_injective; now rewrite <- Va).
    cbn [SFadd]. split; [right; eauto|]. cbn [SF2Q]. now rewrite Vb.
  - assert (b = 0) as -> by (apply inject_Z_injective; now rewrite <- Vb).
    cbn [SFadd]. split; [right; eauto|]. cbn [SF2Q]. rewrite Va.
    now rewrite Z.add_0_r.
  - cbn [valid_binary] in Bx, By.
    assert (0 < a) as Ha.
    { rewrite Zlt_Qlt, <- Va. apply (F2Q_pos (Zpos mx) ex). lia. }
    assert (0 < b) as Hb.
    { rewrite Zlt_Qlt, <- Vb. apply (F2Q_pos (Zpos my) ey). lia. }
    cbn [SFadd cond_Zopp].
    destruct (shl_align_spec mx ex (Z.min ex ey)) as (Vx & Exx & _).
    destruct (shl_align_spec my ey (Z.min ex ey)) as (Vy & Eyy & _).
    set (mx' := fst (shl_align mx ex (Z.min ex ey))) in *.
    set (my' := fst (shl_align my ey (Z.min ex ey))) in *.
    replace (Z.min ex (Z.min ex ey)) with (Z.min ex ey) in Exx by lia.
    replace (Z.min ey (Z.min ex ey)) with (Z.min ex ey) in Eyy by lia.
    rewrite Exx in Vx. rewrite Eyy in Vy.
    change (Zpos mx' + Zpos my') with (Zpos (mx' + my')). cbn [binary_normalize].
    destruct (binary_round_cell false (mx' + my') (Z.min ex ey))
      as (m1 & e1 & l1 & Hl & C & ->).
    destruct (rounded_integer m1 e1 l1 _ (a + b) C Hl) as (q & -> & Hq); [|lia|].
    + rewrite inject_Z_plus, <- Va, <- Vb.
      change (inject_Z (Zpos mx) * 2 ^ ex)%Q with (F2Q (Zpos mx) ex).
      change (inject_Z (Zpos my) * 2 ^ ey)%Q with (F2Q (Zpos my) ey).
      rewrite <- Vx, <- Vy. unfold F2Q.
      rewrite Pos2Z.inj_add, inject_Z_plus. ring.
    + split; [right; eauto|]. exact Hq.
Qed.

Lemma below_one_bound (p T : Z) :
  0 <= p < T -> T < 2 ^ 53 ->
  (inject_Z p / inject_Z T <= F2Q (2 ^ 53 - 1) (-53))%Q.
Proof.
  intros Hp HT.
  assert (F2Q (2 ^ 53 - 1) (-53) == inject_Z (2 ^ 53 - 1) / inject_Z (2 ^ 53))%Q as ->
      by reflexivity.
  assert (0 < inject_Z T)%Q as HT0 by (rewrite <- (Zlt_Qlt 0); lia).
  assert (0 < inject_Z (2 ^ 53))%Q as HB by (rewrite <- (Zlt_Qlt 0); lia).
  apply Qle_shift_div_r; [exact HT0|].
  assert (inject_Z (2 ^ 53 - 1) / inject_Z (2 ^ 53) * inject_Z T
          == inject_Z ((2 ^ 53 - 1) * T) / inject_Z (2 ^ 53))%Q as ->.
  { rewrite inject_Z_mult. field. intros H. rewrite H in HB. now apply Qlt_irrefl in HB. }
  apply Qle_shift_div_l; [exact HB|].
  rewrite <- inject_Z_mult, <- Zle_Qle. lia.
Qed.

(** The quotient of two numbers of integer values [p < T] is below [1]. *)
Lemma div_below_one (x t : float) (p T : Z) :
  startAccepts x = true -> startAccepts t = true ->
  (valueOf x == inject_Z p)%Q -> (valueOf t == inject_Z T)%Q ->
  0 <= p < T -> T < 2 ^ 53 ->
  (1 <=? x / t)%float = false.
Proof.
  intros Hx Ht Vp VT Hp HT.
  apply startAccepts_spec in Hx, Ht. unfold valueOf in *.
  rewrite leb_spec, div_spec. unfold SF64div.
  change prec with 53. change emax with 1024.
  change (Prim2SF 1) with (S754_finite false 4503599627370496 (-52)).
  destruct Ht as [[st Et] | (mt & et & Et)]; rewrite Et in *; cbn [SF2Q] in VT.
  { exfalso. assert (T = 0) by (apply inject_Z_injective; now rewrite <- VT). lia. }
  destruct Hx as [[sx Ex] | (mx & ex & Ex)]; rewrite Ex in *; cbn [SF2Q] in Vp.
  { destruct sx; reflexivity. }
  destruct (SFdiv_finite false false mx mt ex et) as (m & e & l & Hl & C & ->).
  cbn [xorb].
  destruct (SFleb (S754_finite false 4503599627370496 (-52)) (rounded false m e l)) eqn:E;
    [exfalso|reflexivity].
  assert (SFleb (rounded false m e l)
                (rounded false (2 ^ 53 - 1) (-53) loc_Exact) = true) as H1.
  { apply (rounded_mono m e (2 ^ 53 - 1) (-53) l loc_Exact
                        (F2Q (Zpos mx) ex / F2Q (Zpos mt) et) (F2Q (2 ^ 53 - 1) (-53))).
    - unfold F2Q at 1 2. rewrite Vp, VT. now apply below_one_bound.
    - exact Hl.
    - exact C.
    - cbn. reflexivity.
    - apply (bounded_cell 9007199254740991 (-53)). reflexivity. }
  change (2 ^ 53 - 1) with (Zpos 9007199254740991) in H1.
  rewrite (rounded_valid 9007199254740991 (-53) eq_refl) in H1.
  pose proof (SFleb_trans _ _ _ E H1) as H2. discriminate.
Qed.

Lemma one_le_rounded (m e : Z) (l : location) (x : Q) :
  cell m e -> located m e l x -> (x == 1)%Q ->
  SFleb (S754_finite false 4503599627370496 (-52)) (rounded false m e l) = true /\
  SFleb (rounded false m e l) (S754_finite false 4503599627370496 (-52)) = true.
Proof.
  intros C Hl Hx.
  rewrite <- (rounded_valid 4503599627370496 (-52) eq_refl).
  assert (located (Zpos 4503599627370496) (-52) loc_Exact 1) as H1 by (cbn; reflexivity).
  pose proof (bounded_cell 4503599627370496 (-52) eq_refl) as C1.
  split.
  - apply (rounded_mono _ _ _ _ _ _ 1%Q x); auto. rewrite Hx. apply Qle_refl.
  - apply (rounded_mono _ _ _ _ _ _ x 1%Q); auto. rewrite Hx. apply Qle_refl.
Qed.

(** The quotient of two numbers of the same positive integer value is at
    least [1]. *)
Lemma div_one (x t : float) (T : Z) :
  startAccepts x = true -> startAccepts t = true ->
  (valueOf x == inject_Z T)%Q -> (valueOf t == inject_Z T)%Q -> 0 < T ->
  (1 <=? x / t)%float = true.
Proof.
  intros Hx Ht Vx VT HT.
  apply startAccepts_spec in Hx, Ht. unfold valueOf in *.
  rewrite leb_spec, div_spec. unfold SF64div.
  change prec with 53. change emax with 1024.
  change (Prim2SF 1) with (S754_finite false 4503599627370496 (-52)).
  destruct Ht as [[st Et] | (mt & et & Et)]; rewrite Et in *; cbn [SF2Q] in VT.
  { exfalso. assert (T = 0) by (apply inject_Z_injective; now rewrite <- VT). lia. }
  destruct Hx as [[sx Ex] | (mx & ex & Ex)]; rewrite Ex in *; cbn [SF2Q] in Vx.
  { exfalso. assert (T = 0) by (apply inject_Z_injective; now rewrite <- Vx). lia. }
  destruct (SFdiv_finite false false mx mt ex et) as (m & e & l & Hl & C & ->).
  cbn [xorb]. apply (one_le_rounded m e l _ C Hl).
  unfold F2Q. rewrite Vx, VT. field.
  intros H. apply (inject_Z_injective T 0) in H. lia.
Qed.

(** A finite positive number divided by itself is [1]. *)
Lemma div_self (d : float) :
  (0 <? d)%float = true -> is_finite d = true ->
  (d / d <=? 1)%float = true /\ (1 <=? d / d)%float = true.
Proof.
  intros Hd Hf.
  assert (startAccepts d = true) as Ha
      by (unfold startAccepts; rewrite Hf; now apply ltb_leb).
  apply startAccepts_spec in Ha.
  rewrite !leb_spec, div_spec. rewrite ltb_spec in Hd. unfold SF64div.
  change prec with 53. change emax with 1024.
  change (Prim2SF 1) with (S754_finite false 4503599627370496 (-52)).
  change (Prim2SF 0) with (S754_zero false) in Hd.
  destruct Ha as [[s E] | (m & e & E)]; rewrite E in *.
  { destruct s; discriminate. }
  destruct (SFdiv_finite false false m m e e) as (m1 & e1 & l1 & Hl & C & ->).
  cbn [xorb].
  destruct (one_le_rounded m1 e1 l1 _ C Hl) as [H1 H2]; [|now split].
  field. intros H. pose proof (F2Q_pos (Zpos m) e ltac:(lia)) as Hp.
  rewrite H in Hp. now apply Qlt_irrefl in Hp.
Qed.

(** ** Transport: what every run keeps *)

Lemma scheduled_step (st : Player) (ev : Event) : scheduled st -> scheduled (step st ev).
Proof.
  intros Hsch. pose proof Hsch as [Hf Hp]. destruct ev as [now| |now].
  - cbn [step]. unfold handlePlay.
    destruct (audioBuffer st) as [b|] eqn:Eb, (audioContextRef st) as [ctx|] eqn:Ec;
      cbv beta iota;
      try (rewrite progressEffect_same by reflexivity; exact Hsch).
    destruct (startAccepts (playOffset st)).
    + unfold progressEffect, scheduled. cbn.
      destruct (isPlaying st) eqn:E; cbn.
      * rewrite leibniz_eqb_refl. cbn. split; [exact Hf|].
        intros _. repeat split; congruence.
      * split; [reflexivity|]. intros _. repeat split; congruence.
    + rewrite progressEffect_same by reflexivity. unfold scheduled. cbn.
      split; [assumption|].
      intros H. destruct (Hp H) as (_ & ? & _). repeat split; congruence.
  - cbn [step]. unfold handlePause. destruct (audioSourceRef st) as [src|] eqn:Es.
    + unfold progressEffect, scheduled. cbn.
      destruct (isPlaying st) eqn:E; cbn.
      * split; [reflexivity|]. discriminate.
      * rewrite leibniz_eqb_refl. cbn. split; [exact Hf|]. discriminate.
    + rewrite progressEffect_same by reflexivity. exact Hsch.
  - destruct (animationFrame st) eqn:Ea; [|cbn [step]; rewrite Ea; exact Hsch].
    symmetry in Hf. destruct (Hp Hf) as (Hc & Hs & Hb).
    destruct (audioContextRef st) as [ctx|] eqn:Ec; [|congruence].
    destruct (now - startTimeRef st <=? duration st)%float eqn:E.
    + rewrite (step_frame_within now st ctx Hf Ec Ea E). unfold scheduled. cbn.
      split; [reflexivity|]. intros _. repeat split; congruence.
    + rewrite (step_frame_beyond now st ctx Hf Ec Ea E). unfold scheduled. cbn.
      split; [reflexivity|]. discriminate.
Qed.

Lemma scheduled_run (evs : list Event) (st : Player) :
  scheduled st -> scheduled (run st evs).
Proof.
  revert st. induction evs as [|ev evs IH]; intros st H; [exact H|].
  apply (IH (step st ev)). now apply scheduled_step.
Qed.

Lemma scheduled_initial : scheduled initialPlayer.
Proof. split; [reflexivity|discriminate]. Qed.

Lemma scheduled_mounted (ctxState : AudioContextState) (base64Audio : option string) :
  scheduled (mounted ctxState base64Audio).
Proof.
  unfold mounted. destruct base64Audio as [s|]; [|exact scheduled_initial].
  destruct (String.length s =? 0)%nat; [exact scheduled_initial|].
  unfold initAudio. destruct (decode s); split; try reflexivity; discriminate.
Qed.

Lemma currentTime_progressEffect (before after : Player) :
  currentTime (progressEffect before after) = currentTime after /\
  duration (progressEffect before after) = duration after /\
  audioBuffer (progressEffect before after) = audioBuffer after /\
  audioContextRef (progressEffect before after) = audioContextRef after /\
  audioSourceRef (progressEffect before after) = audioSourceRef after /\
  startTimeRef (progressEffect before after) = startTimeRef after.
Proof. unfold progressEffect. destruct (_ && _); repeat split. Qed.

Lemma position_handlePlay (now : float) (st : Player) :
  currentTime (handlePlay now st) = currentTime st /\
  duration (handlePlay now st) = duration st.
Proof.
  unfold handlePlay. destruct (audioBuffer st), (audioContextRef st); try (now split).
  destruct (startAccepts (playOffset st)); now split.
Qed.

Lemma position_handlePause (st : Player) :
  currentTime (handlePause st) = currentTime st /\
  duration (handlePause st) = duration st.
Proof. unfold handlePause. destruct (audioSourceRef st); now split. Qed.

Lemma position_updateProgress (now : float) (st : Player) :
  startAccepts (duration st) = true ->
  (currentTime st <=? duration st)%float = true ->
  (currentTime (updateProgress now st) <=? duration (updateProgress now st))%float = true.
Proof.
  intros Hd Hle. unfold updateProgress.
  destruct (isPlaying st), (audioContextRef st); try exact Hle.
  pose proof (leb_refl_nonneg _ (startAccepts_nonneg _ Hd)) as Hr.
  destruct (now - startTimeRef st <=? duration st)%float eqn:E; cbn; [|exact Hr].
  destruct (min_not_nan (now - startTimeRef st) (duration st)
              (leb_is_nan_l _ _ E) (leb_is_nan_r _ _ E)) as [-> | ->]; assumption.
Qed.

Lemma anchor_handlePlay (now : float) (st : Player) :
  startAccepts now = true -> startAccepts (currentTime st) = true ->
  is_finite (startTimeRef st) = true ->
  is_finite (startTimeRef (handlePlay now st)) = true.
Proof.
  intros Hn Hc Hf. unfold handlePlay.
  destruct (audioBuffer st), (audioContextRef st); try exact Hf.
  destruct (startAccepts (playOffset st)) eqn:E; cbn; [|exact Hf].
  now apply sub_finite.
Qed.

Lemma anchor_kept (now : float) (st : Player) :
  startTimeRef (handlePause st) = startTimeRef st /\
  startTimeRef (updateProgress now st) = startTimeRef st.
Proof.
  unfold handlePause, updateProgress. split.
  - now destruct (audioSourceRef st).
  - destruct (isPlaying st), (audioContextRef st); try reflexivity.
    now destruct (_ <=? _)%float.
Qed.

Lemma inTrack_step (c : float) (st : Player) (ev : Event) :
  inTrack c st ->
  match reading ev with
  | Some now => is_finite now = true -> (c <=? now)%float = true ->
                inTrack now (step st ev)
  | None => inTrack c (step st ev)
  end.
Proof.
  intros (W & Hle & Hfa). pose proof W as (H0 & Hct & Hd & _).
  destruct ev as [now| |now]; cbn [reading step].
  - intros Hf Hc. split; [|split].
    + apply wellTimed_progressEffect. now apply (wellTimed_handlePlay c).
    + destruct (currentTime_progressEffect st (handlePlay now st)) as (-> & -> & _).
      destruct (position_handlePlay now st) as [-> ->]. exact Hle.
    + destruct (currentTime_progressEffect st (handlePlay now st))
        as (_ & _ & _ & _ & _ & ->).
      apply anchor_handlePlay; [|exact Hct|exact Hfa].
      unfold startAccepts. rewrite Hf. exact (leb_trans _ _ _ H0 Hc).
  - split; [|split].
    + apply wellTimed_progressEffect. now apply wellTimed_handlePause.
    + destruct (currentTime_progressEffect st (handlePause st)) as (-> & -> & _).
      destruct (position_handlePause st) as [-> ->]. exact Hle.
    + destruct (currentTime_progressEffect st (handlePause st))
        as (_ & _ & _ & _ & _ & ->).
      now rewrite (proj1 (anchor_kept 0%float st)).
  - intros Hf Hc. destruct (animationFrame st).
    + split; [|split].
      * apply wellTimed_progressEffect.
        apply (wellTimed_updateProgress c); [assumption|assumption|].
        now apply wellTimed_clearFrame.
      * destruct (currentTime_progressEffect st (updateProgress now (clearFrame st)))
          as (-> & -> & _).
        now apply position_updateProgress.
      * destruct (currentTime_progressEffect st (updateProgress now (clearFrame st)))
          as (_ & _ & _ & _ & _ & ->).
        now rewrite (proj2 (anchor_kept now (clearFrame st))).
    + split; [now apply (wellTimed_later c)|now split].
Qed.

Lemma inTrack_run (evs : list Event) (c : float) (st : Player) :
  inTrack c st -> clockAdvances c evs = true ->
  inTrack (lastReading c evs) (run st evs).
Proof.
  revert c st. induction evs as [|ev evs IH]; intros c st W H; [exact W|].
  unfold lastReading, run. cbn [fold_left].
  change (fold_left step evs (step st ev)) with (run (step st ev) evs).
  cbn [clockAdvances] in H. pose proof (inTrack_step c st ev W) as S.
  destruct (reading ev) as [now|].
  - apply andb_true_iff in H as [[Hf Hle]%andb_true_iff H].
    exact (IH now _ (S Hf Hle) H).
  - exact (IH c _ S H).
Qed.

Lemma clockAdvances_app (l1 l2 : list Event) :
  forall c, clockAdvances c (l1 ++ l2)
            = clockAdvances c l1 && clockAdvances (lastReading c l1) l2.
Proof.
  induction l1 as [|ev l1 IH]; intros c; [reflexivity|].
  unfold lastReading. cbn [app clockAdvances fold_left].
  destruct (reading ev) as [now|].
  - rewrite IH. unfold lastReading. now rewrite andb_assoc.
  - apply IH.
Qed.

Lemma inTrack_mounted (ctxState : AudioContextState) (base64Audio : option string) :
  inTrack 0 (mounted ctxState base64Audio).
Proof.
  assert (inTrack 0 initialPlayer) as Hi by (repeat split).
  unfold mounted. destruct base64Audio as [s|]; [|exact Hi].
  destruct (String.length s =? 0)%nat; [exact Hi|].
  unfold initAudio. destruct (decode s) as [b|e] eqn:E; [|exact Hi].
  unfold decode in E. destruct (Base64.atob s) as [bytes|]; [|discriminate].
  cbn [bind] in E. apply decodeBytes_Ok in E as (_ & _ & ->).
  unfold inTrack, wellTimed, bufferDuration. cbn.
  pose proof (startAccepts_duration
                (List.length (map sampleOfInt16 (int16_elements bytes)))) as Hd.
  change (JS.of_Z 24000) with 24000%float.
  repeat split; try exact Hd. now apply startAccepts_nonneg.
Qed.

Lemma audioBuffer_step (st : Player) (ev : Event) :
  audioBuffer (step st ev) = audioBuffer st /\
  (audioContextRef st <> None -> audioContextRef (step st ev) <> None).
Proof.
  destruct ev as [now| |now]; cbn [step].
  - destruct (currentTime_progressEffect st (handlePlay now st)) as (_ & _ & -> & -> & _).
    unfold handlePlay.
    destruct (audioBuffer st) eqn:Eb, (audioContextRef st) eqn:Ec; cbv beta iota;
      try (rewrite ?Eb, ?Ec; split; [reflexivity|auto]).
    destruct (startAccepts (playOffset st)); cbn; split; auto; discriminate.
  - destruct (currentTime_progressEffect st (handlePause st)) as (_ & _ & -> & -> & _).
    unfold handlePause. destruct (audioSourceRef st); cbn; split; auto.
  - destruct (animationFrame st); [|split; auto].
    destruct (currentTime_progressEffect st (updateProgress now (clearFrame st)))
      as (_ & _ & -> & -> & _).
    unfold updateProgress, clearFrame. cbn.
    destruct (isPlaying st), (audioContextRef st); cbn; try (split; [reflexivity|auto]).
    destruct (_ <=? _)%float; cbn; split; auto.
Qed.

Lemma audioBuffer_run (evs : list Event) (st : Player) :
  audioBuffer (run st evs) = audioBuffer st /\
  (audioContextRef st <> None -> audioContextRef (run st evs) <> None).
Proof.
  revert st. induction evs as [|ev evs IH]; intros st; [split; auto|].
  cbn [run fold_left]. change (fold_left step evs (step st ev)) with (run (step st ev) evs).
  destruct (IH (step st ev)) as [-> H]. destruct (audioBuffer_step st ev) as [-> H'].
  split; auto.
Qed.

(** X7: without a decoded buffer nothing moves: no event starts playback,
    publishes a position or samples the clock. *)
Theorem inert_without_buffer (st : Player) (evs : list Event) :
  audioBuffer st = None -> audioSourceRef st = None -> animationFrame st = false ->
  run st evs = st /\ samples st evs = 0%nat.
Proof.
  intros Hb Hs Hf. induction evs as [|ev evs [IH1 IH2]]; [now split|].
  assert (step st ev = st) as E.
  { destruct ev as [now| |now]; cbn [step].
    - unfold handlePlay. rewrite Hb. now apply progressEffect_same.
    - unfold handlePause. rewrite Hs. now apply progressEffect_same.
    - now rewrite Hf. }
  cbn [run fold_left samples]. change (fold_left step evs (step st ev)) with (run (step st ev) evs).
  rewrite E, IH1, IH2. split; [reflexivity|].
  destruct ev; try reflexivity. now rewrite Hf.
Qed.

Lemma inert_without_buffer_witness :
  run (mounted running (Some "AAAA"%string)) [Play 1%float; Frame 2%float; Pause; Play 3%float]
  = mounted running (Some "AAAA"%string) /\
  samples (mounted running (Some "AAAA"%string))
          [Play 1%float; Frame 2%float; Pause; Play 3%float] = 0%nat.
Proof.
  exact (inert_without_buffer (mounted running (Some "AAAA"%string))
                              [Play 1%float; Frame 2%float; Pause; Play 3%float]
                              eq_refl eq_refl eq_refl).
Defined.

(** X8: whatever the payload and the events, a frame is requested exactly while
    the component is playing, and playing goes with a started source; so
    while it is not playing, frames change nothing and do not sample the
    clock. *)
Theorem frame_pending_while_playing
        (ctxState : AudioContextState) (base64Audio : option string) (evs : list Event) :
  animationFrame (run (mounted ctxState base64Audio) evs)
  = isPlaying (run (mounted ctxState base64Audio) evs) /\
  (isPlaying (run (mounted ctxState base64Audio) evs) = true ->
   audioSourceRef (run (mounted ctxState base64Audio) evs) <> None) /\
  (isPlaying (run (mounted ctxState base64Audio) evs) = false ->
   forall nows : list float,
     run (run (mounted ctxState base64Audio) evs) (map Frame nows)
     = run (mounted ctxState base64Audio) evs /\
     samples (run (mounted ctxState base64Audio) evs) (map Frame nows) = 0%nat).
Proof.
  destruct (scheduled_run evs _ (scheduled_mounted ctxState base64Audio)) as [Hf Hp].
  split; [exact Hf|]. split.
  - intros H. now destruct (Hp H) as (_ & ? & _).
  - intros H nows. apply frames_idle. congruence.
Qed.

(** X9: with clock readings that are finite and do not go back, the published
    position is always a finite number between [0] and the duration, and the
    offset of the next play is one [start] accepts. *)
Theorem position_in_track
        (ctxState : AudioContextState) (base64Audio : option string) (evs : list Event) :
  clockAdvances 0 evs = true ->
  (0 <=? currentTime (run (mounted ctxState base64Audio) evs))%float = true /\
  (currentTime (run (mounted ctxState base64Audio) evs)
   <=? duration (run (mounted ctxState base64Audio) evs))%float = true /\
  is_finite (currentTime (run (mounted ctxState base64Audio) evs)) = true /\
  startAccepts (playOffset (run (mounted ctxState base64Audio) evs)) = true.
Proof.
  intros H.
  destruct (inTrack_run evs 0 _ (inTrack_mounted ctxState base64Audio) H)
    as ((_ & Hc & _ & _) & Hle & _).
  split; [now apply startAccepts_nonneg|]. split; [exact Hle|]. split.
  - unfold startAccepts in Hc. now apply andb_true_iff in Hc as [? _].
  - now apply startAccepts_playOffset.
Qed.

Lemma position_in_track_witness :
  clockAdvances 0 [Play 1%float; Frame 1.00005%float; Pause; Play 2%float; Frame 3%float]
  = true /\
  (currentTime (run (mounted running (Some "AID/f///"%string))
                    [Play 1%float; Frame 1.00005%float; Pause; Play 2%float; Frame 3%float])
   <=? duration (run (mounted running (Some "AID/f///"%string))
                     [Play 1%float; Frame 1.00005%float; Pause; Play 2%float; Frame 3%float]))%float
  = true.
Proof.
  split; [reflexivity|].
  exact (proj1 (proj2 (position_in_track
                         running (Some "AID/f///"%string)
                         [Play 1%float; Frame 1.00005%float; Pause; Play 2%float; Frame 3%float]
                         eq_refl))).
Defined.

Lemma mounted_buffer (ctxState : AudioContextState) (base64Audio : option string)
      (b : AudioBuffer) :
  audioBuffer (mounted ctxState base64Audio) = Some b ->
  noPayload base64Audio = false /\ audioContextRef (mounted ctxState base64Audio) <> None.
Proof.
  unfold mounted, noPayload. destruct base64Audio as [s|]; [|discriminate].
  destruct (String.length s =? 0)%nat; [discriminate|].
  intros _. split; [reflexivity|]. unfold initAudio. destruct (decode s); discriminate.
Qed.

(** X10: once a payload is decoded, [togglePlay] never asks for audio again and
    always toggles: it pauses when playing and starts when not (with clock
    readings that are finite and do not go back), and the published position
    is as before. *)
Theorem toggle_flips
        (ctxState : AudioContextState) (base64Audio : option string) (evs : list Event)
        (isLoading : bool) (now : float) (b : AudioBuffer) :
  clockAdvances 0 evs = true ->
  audioBuffer (run (mounted ctxState base64Audio) evs) = Some b ->
  exists st' : Player,
    togglePlay base64Audio isLoading now (run (mounted ctxState base64Audio) evs)
    = Transported st' /\
    isPlaying st' = negb (isPlaying (run (mounted ctxState base64Audio) evs)) /\
    currentTime st' = currentTime (run (mounted ctxState base64Audio) evs).
Proof.
  intros Hclk Hb. set (st0 := mounted ctxState base64Audio) in *.
  destruct (audioBuffer_run evs st0) as [Eb Hctx]. rewrite Eb in Hb.
  destruct (mounted_buffer ctxState base64Audio b Hb) as [Hn Hc0].
  specialize (Hctx Hc0). rewrite <- Eb in Hb.
  destruct (scheduled_run evs st0 (scheduled_mounted ctxState base64Audio)) as [_ Hp].
  destruct (inTrack_run evs 0 st0 (inTrack_mounted ctxState base64Audio) Hclk)
    as ((_ & Hc & _ & _) & _).
  unfold togglePlay. rewrite Hn. cbn [andb].
  set (st := run st0 evs) in *.
  destruct (isPlaying st) eqn:E; eexists; (split; [reflexivity|]).
  - destruct (Hp eq_refl) as (_ & Hs & _).
    destruct (audioSourceRef st) as [src|] eqn:Es; [|congruence].
    rewrite (step_pause st src Es E). split; reflexivity.
  - destruct (audioContextRef st) as [ctx|] eqn:Ec; [|congruence].
    rewrite (step_play now st b ctx Hb Ec E (startAccepts_playOffset st Hc)).
    split; reflexivity.
Qed.

Lemma toggle_flips_witness :
  exists st' : Player,
    togglePlay (Some "AID/f///"%string) false 2%float
               (run (mounted running (Some "AID/f///"%string))
                    [Play 1%float; Frame 1.00005%float])
    = Transported st' /\
    isPlaying st' = negb (isPlaying (run (mounted running (Some "AID/f///"%string))
                                         [Play 1%float; Frame 1.00005%float])) /\
    currentTime st' = currentTime (run (mounted running (Some "AID/f///"%string))
                                       [Play 1%float; Frame 1.00005%float]).
Proof.
  exact (toggle_flips running (Some "AID/f///"%string) [Play 1%float; Frame 1.00005%float]
                      false 2%float
                      {| numberOfChannels := 1; sampleRate := 24000;
                         channelData := [(-1)%float; 0.999969482421875%float;
                                         (-3.0517578125e-05)%float] |}
                      eq_refl eq_refl).
Defined.

(** X11: replaying a finished track: the frame that finds the elapsed time beyond
    the duration stops playback at [currentTime = duration]; the next play
    starts the source at offset [0] with the clock reading as anchor, and a
    frame at that same reading publishes position [0]. *)
Theorem replay_after_end
        (now now' : float) (st : Player) (b : AudioBuffer) (ctx : AudioContext) :
  isPlaying st = true -> animationFrame st = true ->
  audioContextRef st = Some ctx -> audioBuffer st = Some b ->
  (0 <? duration st)%float = true ->
  (now - startTimeRef st <=? duration st)%float = false ->
  is_finite now' = true ->
  isPlaying (run st [Frame now]) = false /\
  currentTime (run st [Frame now]) = duration st /\
  isPlaying (run st [Frame now; Play now']) = true /\
  audioSourceRef (run st [Frame now; Play now'])
  = Some {| buffer := b; startWhen := 0%float; startOffset := 0%float |} /\
  startTimeRef (run st [Frame now; Play now']) = now' /\
  currentTime (run st [Frame now; Play now'; Frame now']) = 0%float /\
  isPlaying (run st [Frame now; Play now'; Frame now']) = true.
Proof.
  intros Hp Hf Hc Hb Hd Hle Hn.
  unfold run. cbn [fold_left].
  rewrite (step_frame_beyond now st ctx Hp Hc Hf Hle).
  set (s1 := {| isPlaying := false; audioContextRef := audioContextRef st;
                audioSourceRef := audioSourceRef st; startTimeRef := startTimeRef st;
                currentTime := duration st; duration := duration st;
                audioBuffer := audioBuffer st; animationFrame := false |}).
  assert (JS.geb (currentTime s1) (duration s1) = true) as Hge.
  { unfold JS.geb. cbn. apply leb_refl_nonneg. now apply ltb_leb. }
  assert (playOffset s1 = 0%float) as Ho by (unfold playOffset; now rewrite Hge).
  assert (step s1 (Play now')
          = {| isPlaying := true; audioContextRef := Some (resume ctx);
               audioSourceRef :=
                 Some {| buffer := b; startWhen := 0%float; startOffset := 0%float |};
               startTimeRef := now';
               currentTime := duration st; duration := duration st;
               audioBuffer := Some b; animationFrame := true |}) as E2.
  { rewrite (step_play now' s1 b ctx Hb Hc eq_refl) by (now rewrite Ho).
    rewrite Ho, sub_0_r. reflexivity. }
  rewrite E2. repeat split.
  - erewrite step_frame_within; try reflexivity; cbn.
    + rewrite (sub_diag now' Hn). apply min_le; [exact Hd|now apply ltb_leb].
    + rewrite (sub_diag now' Hn). now apply ltb_leb.
  - erewrite step_frame_within; try reflexivity; cbn.
    rewrite (sub_diag now' Hn). now apply ltb_leb.
Qed.

Lemma replay_after_end_witness :
  currentTime (run (step (loaded 2400) (Play 1%float)) [Frame 4%float]) = 0.1%float /\
  startTimeRef (run (step (loaded 2400) (Play 1%float)) [Frame 4%float; Play 9%float])
  = 9%float /\
  currentTime (run (step (loaded 2400) (Play 1%float))
                   [Frame 4%float; Play 9%float; Frame 9%float]) = 0%float.
Proof.
  pose proof (replay_after_end
                4%float 9%float (step (loaded 2400) (Play 1%float)) (silence 2400)
                {| ctxSampleRate := 24000; state := running |}
                eq_refl eq_refl eq_refl eq_refl eq_refl eq_refl eq_refl)
    as (_ & H1 & _ & _ & H2 & H3 & _).
  split; [exact H1|]. split; [exact H2|exact H3].
Defined.

Lemma frames_keep_going (d a : float) (nows : list float) :
  (0 <? d)%float = true -> is_finite a = true ->
  forall (s : Player) (n lo : float),
    isPlaying s = true -> animationFrame s = true -> audioContextRef s <> None ->
    startTimeRef s = a -> duration s = d ->
    currentTime s = (n - a)%float -> (n - a <=? d)%float = true ->
    startAccepts n = true -> (a <=? n)%float = true ->
    (lo <=? currentTime s)%float = true ->
    clockAdvances n (map Frame nows) = true ->
    (lo <=? currentTime (run s (map Frame nows)))%float = true /\
    duration (run s (map Frame nows)) = d.
Proof.
  intros Hd Ha. induction nows as [|n' nows IH];
    intros s n lo Hp Hf Hc Hsa Hsd Hct Hin Hn Han Hlo Hclk; [now split|].
  cbn [map clockAdvances reading] in Hclk.
  apply andb_true_iff in Hclk as [[Hf' Hle]%andb_true_iff Hclk].
  assert (startAccepts n' = true) as Hn'.
  { unfold startAccepts. rewrite Hf'. cbn.
    exact (leb_trans _ _ _ (startAccepts_nonneg _ Hn) Hle). }
  pose proof (sub_mono n n' a Hn Hn' Ha Han Hle) as Hmono.
  unfold run. cbn [map fold_left].
  change (fold_left step (map Frame nows) (step s (Frame n')))
    with (run (step s (Frame n')) (map Frame nows)).
  destruct (audioContextRef s) as [ctx|] eqn:Ec; [|congruence].
  destruct (n' - startTimeRef s <=? duration s)%float eqn:E.
  - rewrite (step_frame_within n' s ctx Hp Ec Hf E).
    rewrite Hsa, Hsd in E |- *.
    apply (IH _ n' lo);
      cbn [isPlaying animationFrame audioContextRef startTimeRef duration currentTime];
      [ reflexivity | reflexivity | congruence | reflexivity | reflexivity
      | now apply min_le | exact E | exact Hn' | exact (leb_trans _ _ _ Han Hle)
      | | exact Hclk ].
    rewrite (min_le _ _ Hd E). rewrite Hct in Hlo. exact (leb_trans _ _ _ Hlo Hmono).
  - rewrite (step_frame_beyond n' s ctx Hp Ec Hf E).
    match goal with
    | |- context [run ?s0 (map Frame nows)] =>
        rewrite (proj1 (frames_idle s0 nows eq_refl))
    end.
    cbn [currentTime duration]. split; [|exact Hsd].
    rewrite Hct in Hlo. rewrite Hsd. exact (leb_trans _ _ _ Hlo Hin).
Qed.

(** X12: during uninterrupted playback the published position does not go back:
    of the frames that follow one another while playing (the clock not going
    back), a later one publishes a position at least as large, and the active
    segment of a script does not move backwards. *)
Theorem position_never_goes_back
        (ctxState : AudioContextState) (base64Audio : option string)
        (evs : list Event) (now : float) (nows : list float) (script : list string) :
  clockAdvances 0 (evs ++ Frame now :: map Frame nows) = true ->
  isPlaying (run (mounted ctxState base64Audio) evs) = true ->
  (0 <? duration (run (mounted ctxState base64Audio) evs))%float = true ->
  (currentTime (run (mounted ctxState base64Audio) (evs ++ [Frame now]))
   <=? currentTime (run (mounted ctxState base64Audio)
                        (evs ++ Frame now :: map Frame nows)))%float = true /\
  (script <> [] ->
   activeParagraphIndex
     (currentTime (run (mounted ctxState base64Audio) (evs ++ [Frame now])))
     (duration (run (mounted ctxState base64Audio) (evs ++ [Frame now]))) script
   <= activeParagraphIndex
        (currentTime (run (mounted ctxState base64Audio)
                          (evs ++ Frame now :: map Frame nows)))
        (duration (run (mounted ctxState base64Audio)
                       (evs ++ Frame now :: map Frame nows))) script).
Proof.
  intros Hclk Hp Hd.
  rewrite clockAdvances_app in Hclk. apply andb_true_iff in Hclk as [Hc1 Hc2].
  pose proof (inTrack_run evs 0 _ (inTrack_mounted ctxState base64Audio) Hc1)
    as ((H0 & Hct & Hda & Hanc) & Hle & Hfa).
  destruct (scheduled_run evs _ (scheduled_mounted ctxState base64Audio)) as [Hf Hs].
  unfold run in *. rewrite !fold_left_app. cbn [fold_left].
  set (st := fold_left step evs (mounted ctxState base64Audio)) in *.
  set (c := lastReading 0 evs) in *.
  rewrite Hp in Hf. destruct (Hs Hp) as (Hctx & _).
  destruct (audioContextRef st) as [ctx|] eqn:Ec; [|congruence].
  cbn [clockAdvances reading] in Hc2.
  apply andb_true_iff in Hc2 as [[Hfn Hcn]%andb_true_iff Hc2].
  assert (startAccepts now = true) as Hn
      by (unfold startAccepts; rewrite Hfn; exact (leb_trans _ _ _ H0 Hcn)).
  pose proof (leb_trans _ _ _ Hanc Hcn) as Han.
  pose proof (sub_nonneg now (startTimeRef st) Hn Han) as He0.
  assert ((currentTime (step st (Frame now))
           <=? currentTime (fold_left step (map Frame nows) (step st (Frame now))))%float
          = true /\
          duration (fold_left step (map Frame nows) (step st (Frame now))) = duration st /\
          duration (step st (Frame now)) = duration st /\
          (0 <=? currentTime (step st (Frame now)))%float = true) as (R1 & R2 & R3 & R4).
  { destruct (now - startTimeRef st <=? duration st)%float eqn:E.
    - rewrite (step_frame_within now st ctx Hp Ec Hf E). cbn [currentTime duration].
      rewrite (min_le _ _ Hd E).
      destruct (frames_keep_going (duration st) (startTimeRef st) nows Hd Hfa
                  {| isPlaying := true; audioContextRef := audioContextRef st;
                     audioSourceRef := audioSourceRef st; startTimeRef := startTimeRef st;
                     currentTime := JS.min (now - startTimeRef st)%float (duration st);
                     duration := duration st;
                     audioBuffer := audioBuffer st; animationFrame := true |}
                  now (now - startTimeRef st)%float
                  eq_refl eq_refl ltac:(rewrite Ec; discriminate) eq_refl eq_refl
                  (min_le _ _ Hd E) E Hn Han) as [G1 G2]; [|exact Hc2|].
      + cbn [currentTime]. rewrite (min_le _ _ Hd E). now apply leb_refl_nonneg.
      + unfold run in G1, G2. rewrite (min_le _ _ Hd E) in G1, G2.
        repeat split; assumption.
    - rewrite (step_frame_beyond now st ctx Hp Ec Hf E).
      pose proof (proj1 (frames_idle
                           {| isPlaying := false; audioContextRef := audioContextRef st;
                              audioSourceRef := audioSourceRef st;
                              startTimeRef := startTimeRef st;
                              currentTime := duration st; duration := duration st;
                              audioBuffer := audioBuffer st; animationFrame := false |}
                           nows eq_refl)) as Hidle.
      unfold run in Hidle. rewrite Hidle. cbn [currentTime duration].
      pose proof (leb_refl_nonneg _ (ltb_leb _ _ Hd)). repeat split; auto.
      now apply ltb_leb. }
  split; [exact R1|]. intros Hne. rewrite R2, R3.
  apply (walk_mono script
           (currentTime (step st (Frame now)) / duration st)%float
           (currentTime (fold_left step (map Frame nows) (step st (Frame now)))
            / duration st)%float).
  - exact Hne.
  - now apply activeParagraphIndex_walk.
  - now apply activeParagraphIndex_walk.
  - now apply div_mono.
Qed.

Lemma position_never_goes_back_witness :
  (currentTime (run (mounted running (Some "AID/f///"%string))
                    ([Play 1%float] ++ [Frame 1.00005%float]))
   <=? currentTime (run (mounted running (Some "AID/f///"%string))
                        ([Play 1%float] ++ Frame 1.00005%float
                                        :: map Frame [1.0001%float; 2%float])))%float
  = true.
Proof.
  exact (proj1 (position_never_goes_back
                  running (Some "AID/f///"%string) [Play 1%float] 1.00005%float
                  [1.0001%float; 2%float] ["ab"%string]
                  eq_refl eq_refl eq_refl)).
Defined.

(** ** Locator: rows and the ends of the track *)

Lemma activeIndex_any (script : list string) (currentTime duration : float) :
  script <> [] ->
  0 <= activeParagraphIndex currentTime duration script <= Z.of_nat (List.length script) - 1.
Proof.
  intros Hne.
  assert (0 < List.length script)%nat by (destruct script; [congruence|cbn; lia]).
  unfold activeParagraphIndex.
  destruct (JS.not duration || JS.strict_eq duration 0%float); [lia|].
  destruct (locate_walk (currentTime / duration)%float script script 0 eq_refl)
    as [i Hi Hr _ _ | Hr _]; cbn in Hr; lia.
Qed.

Lemma filter_index (i : nat) (n a : nat) :
  filter (fun j => Z.of_nat j =? Z.of_nat i) (seq a n)
  = if ((a <=? i) && (i <? a + n))%nat then [i] else [].
Proof.
  revert a. induction n as [|n IH]; intros a.
  - cbn [seq filter].
    destruct (Nat.leb_spec a i), (Nat.ltb_spec i (a + 0)); cbn [andb]; try reflexivity; lia.
  - cbn [seq filter]. rewrite IH.
    destruct (Z.eqb_spec (Z.of_nat a) (Z.of_nat i)) as [E|E].
    + apply Nat2Z.inj in E. subst a.
      destruct (Nat.leb_spec (S i) i); [lia|]. cbn [andb].
      destruct (Nat.leb_spec i i); [|lia].
      destruct (Nat.ltb_spec i (i + S n)); [reflexivity|lia].
    + assert (a <> i) by congruence.
      destruct (Nat.leb_spec (S a) i), (Nat.leb_spec a i),
               (Nat.ltb_spec i (S a + n)), (Nat.ltb_spec i (a + S n));
        cbn [andb]; try reflexivity; lia.
Qed.

Lemma activeRows_playing (st : Player) (script : list string) (i : nat) :
  isPlaying st = true ->
  activeParagraphIndex (currentTime st) (duration st) script = Z.of_nat i ->
  (i < List.length script)%nat ->
  activeRows st script = [i].
Proof.
  intros Hp Hr Hi. unfold activeRows, isActiveRow. rewrite Hp, Hr.
  rewrite (filter_ext (fun idx => (Z.of_nat idx =? Z.of_nat i) && true)
                      (fun j => Z.of_nat j =? Z.of_nat i))
    by (intros j; now rewrite andb_true_r).
  rewrite filter_index.
  destruct (Nat.ltb_spec i (0 + List.length script)); [reflexivity|lia].
Qed.

(** X13: while playing, exactly one row of a non-empty script is drawn as active,
    the one the locator returns, whatever the position and the duration are;
    while not playing, none is. *)
Theorem one_active_row (st : Player) (script : list string) :
  (isPlaying st = false -> activeRows st script = []) /\
  (isPlaying st = true -> script <> [] ->
   exists i : nat,
     (i < List.length script)%nat /\ activeRows st script = [i] /\
     Z.of_nat i = activeParagraphIndex (currentTime st) (duration st) script).
Proof.
  split.
  - unfold activeRows, isActiveRow. intros ->.
    induction (seq 0 (List.length script)) as [|a l IH]; [reflexivity|].
    cbn [filter]. rewrite andb_false_r. exact IH.
  - intros Hp Hne.
    pose proof (activeIndex_any script (currentTime st) (duration st) Hne) as Hr.
    exists (Z.to_nat (activeParagraphIndex (currentTime st) (duration st) script)).
    assert (Z.to_nat (activeParagraphIndex (currentTime st) (duration st) script)
            < List.length script)%nat as Hi by lia.
    split; [exact Hi|]. split; [|now rewrite Z2Nat.id by lia].
    apply activeRows_playing; [exact Hp| |exact Hi]. now rewrite Z2Nat.id by lia.
Qed.

(** X14: at position [0] of a track with characters, the first segment is the
    active one (even when it is empty). *)
Theorem activeIndex_at_start (script : list string) (currentTime duration : float) :
  (currentTime =? 0)%float = true ->
  (0 <? duration)%float = true ->
  (0 <? totalChars script)%float = true ->
  activeParagraphIndex currentTime duration script = 0.
Proof.
  intros Ht Hd Hc.
  destruct script as [|p script]; [discriminate|].
  unfold activeParagraphIndex. rewrite (ltb_pos_guard _ Hd). cbn [locate].
  rewrite (zero_le _ _ (div_zero_pos _ _ Ht Hd)); [reflexivity|].
  apply div_nonneg; [|exact Hc].
  apply startAccepts_add_0, startAccepts_of_nat.
Qed.

Lemma activeIndex_at_start_witness :
  activeParagraphIndex 0%float 2%float [""%string; "ab"%string; "c"%string] = 0.
Proof.
  exact (activeIndex_at_start [""%string; "ab"%string; "c"%string] 0%float 2%float
                              eq_refl eq_refl eq_refl).
Defined.

Lemma charCount_value (segs : list string) :
  forall (acc : float) (a : Z),
    startAccepts acc = true -> (valueOf acc == inject_Z a)%Q -> 0 <= a ->
    a + Z.of_nat (charsOf segs) < 2 ^ 53 ->
    startAccepts (charCount acc segs) = true /\
    (valueOf (charCount acc segs) == inject_Z (a + Z.of_nat (charsOf segs)))%Q.
Proof.
  induction segs as [|p segs IH]; intros acc a Hacc Va Ha Hs.
  - cbn. rewrite Z.add_0_r. now split.
  - unfold charsOf in *. cbn [map] in *. change (list_sum (String.length p :: map String.length segs)) with (String.length p + list_sum (map String.length segs))%nat in *. unfold charCount in *. cbn [fold_left].
    destruct (add_value acc (JS.of_nat (String.length p)) a (Z.of_nat (String.length p))
                        Hacc (startAccepts_of_nat _) Va
                        (of_nat_value (String.length p) ltac:(lia)) ltac:(lia)) as [H1 H2].
    destruct (IH _ _ H1 H2 ltac:(lia) ltac:(lia)) as [H3 H4].
    split; [exact H3|]. rewrite H4.
    replace (a + Z.of_nat (String.length p) + Z.of_nat (list_sum (map String.length segs)))
      with (a + Z.of_nat (String.length p + list_sum (map String.length segs))) by lia.
    reflexivity.
Qed.

Lemma charsOf_app (l1 l2 : list string) :
  charsOf (l1 ++ l2) = (charsOf l1 + charsOf l2)%nat.
Proof. unfold charsOf. now rewrite map_app, list_sum_app. Qed.

Lemma charsOf_firstn_S (script : list string) (i : nat) (p : string) :
  nth_error script i = Some p ->
  charsOf (firstn (S i) script) = (charsOf (firstn i script) + String.length p)%nat.
Proof.
  intros H. rewrite (firstn_S_snoc _ _ _ H), charsOf_app. unfold charsOf. cbn. lia.
Qed.

Lemma charsOf_firstn_le (script : list string) (k : nat) :
  (charsOf (firstn k script) <= charsOf script)%nat.
Proof.
  rewrite <- (firstn_skipn k script) at 2. rewrite charsOf_app. lia.
Qed.

Lemma charsOf_firstn_mono (script : list string) (k k' : nat) :
  (k <= k')%nat -> (charsOf (firstn k script) <= charsOf (firstn k' script))%nat.
Proof.
  intros H. replace (firstn k script) with (firstn k (firstn k' script)).
  - apply charsOf_firstn_le.
  - rewrite firstn_firstn. now rewrite Nat.min_l.
Qed.

(** With character counts below [2^53], the end ratio of segment [j] reaches
    [1] exactly when no character comes after that segment. *)
Lemma pEndRatio_one (script : list string) (j : nat) :
  (0 < charsOf script)%nat -> Z.of_nat (charsOf script) < 2 ^ 53 ->
  (j < List.length script)%nat ->
  (1 <=? pEndRatio script j)%float
  = (charsOf (firstn (S j) script) =? charsOf script)%nat.
Proof.
  intros H0 HN Hj.
  destruct (nth_error script j) as [p|] eqn:Hn; [|apply nth_error_None in Hn; lia].
  unfold pEndRatio. rewrite (nth_error_nth _ _ _ Hn).
  assert ((charCountSoFar script j + JS.of_nat (String.length p))%float
          = charCount 0%float (firstn (S j) script)) as ->.
  { unfold charCountSoFar. rewrite (firstn_S_snoc _ _ _ Hn), charCount_app. reflexivity. }
  pose proof (charsOf_firstn_le script (S j)) as Hle.
  destruct (charCount_value (firstn (S j) script) 0%float 0 eq_refl
                            ltac:(reflexivity) ltac:(lia) ltac:(lia)) as [A1 V1].
  destruct (charCount_value script 0%float 0 eq_refl
                            ltac:(reflexivity) ltac:(lia) ltac:(lia)) as [A2 V2].
  rewrite Z.add_0_l in V1, V2. fold (totalChars script) in A2, V2.
  destruct (Nat.eqb_spec (charsOf (firstn (S j) script)) (charsOf script)) as [E|E].
  - rewrite E in V1. apply (div_one _ _ _ A1 A2 V1 V2). lia.
  - apply (div_below_one _ _ _ _ A1 A2 V1 V2); lia.
Qed.

(** X15: at the end of the track ([currentTime = duration]) the active segment is
    the last one that has characters: it is not empty, and every segment
    after it is. *)
Theorem activeIndex_at_end (script : list string) (duration : float) :
  (0 <? duration)%float = true -> is_finite duration = true ->
  (0 < charsOf script)%nat -> Z.of_nat (charsOf script) < 2 ^ 53 ->
  exists i : nat,
    activeParagraphIndex duration duration script = Z.of_nat i /\
    (i < List.length script)%nat /\
    String.length (nth i script ""%string) <> 0%nat /\
    forall j : nat, (i < j < List.length script)%nat ->
                    String.length (nth j script ""%string) = 0%nat.
Proof.
  intros Hd Hf H0 HN.
  destruct (div_self duration Hd Hf) as [P1 P2].
  assert (forall j, (j < List.length script)%nat ->
            (duration / duration <=? pEndRatio script j)%float
            = (charsOf (firstn (S j) script) =? charsOf script)%nat) as Hcmp.
  { intros j Hj. rewrite <- (pEndRatio_one script j H0 HN Hj).
    destruct (1 <=? pEndRatio script j)%float eqn:E.
    - exact (leb_trans _ _ _ P1 E).
    - destruct (duration / duration <=? pEndRatio script j)%float eqn:E'; [|reflexivity].
      rewrite (leb_trans _ _ _ P2 E') in E. discriminate. }
  assert (0 < List.length script)%nat as Hlen
      by (destruct script; [cbn in H0; lia|cbn; lia]).
  assert (forall j p, nth_error script j = Some p ->
            String.length (nth j script ""%string) = String.length p) as Hnth
      by (intros j p H; now rewrite (nth_error_nth _ _ _ H)).
  destruct (activeParagraphIndex_walk script duration duration Hd)
    as [i Hi Hr Hp Hb | Hr Hb].
  - exists i. split; [exact Hr|]. split; [lia|].
    rewrite Hcmp in Hp by lia. apply Nat.eqb_eq in Hp.
    destruct (nth_error script i) as [p|] eqn:Hn; [|apply nth_error_None in Hn; lia].
    pose proof (charsOf_firstn_S script i p Hn) as Hs.
    split.
    + rewrite (Hnth i p Hn). intros Hz.
      destruct i as [|k].
      * change (charsOf (firstn 0 script)) with 0%nat in Hs. lia.
      * specialize (Hb k ltac:(lia)). rewrite Hcmp in Hb by lia.
        apply Nat.eqb_neq in Hb. lia.
    + intros j Hj.
      destruct (nth_error script j) as [q|] eqn:Hq; [|apply nth_error_None in Hq; lia].
      rewrite (Hnth j q Hq).
      pose proof (charsOf_firstn_S script j q Hq) as Hsj.
      pose proof (charsOf_firstn_mono script (S i) j ltac:(lia)).
      pose proof (charsOf_firstn_le script (S j)). lia.
  - exfalso.
    specialize (Hb (List.length script - 1)%nat ltac:(lia)).
    rewrite Hcmp in Hb by lia. apply Nat.eqb_neq in Hb.
    replace (S (List.length script - 1)) with (List.length script) in Hb by lia.
    now rewrite firstn_all in Hb.
Qed.

Lemma activeIndex_at_end_witness :
  exists i : nat,
    activeParagraphIndex 2%float 2%float ["ab"%string; "c"%string; ""%string] = Z.of_nat i /\
    (i < 3)%nat /\
    String.length (nth i ["ab"%string; "c"%string; ""%string] ""%string) <> 0%nat /\
    forall j : nat, (i < j < 3)%nat ->
                    String.length (nth j ["ab"%string; "c"%string; ""%string] ""%string)
                    = 0%nat.
Proof.
  exact (activeIndex_at_end ["ab"%string; "c"%string; ""%string] 2%float
                            eq_refl eq_refl (Nat.lt_0_succ 2) eq_refl).
Defined.

(** X16: within the track, the active segment has characters, unless it is the
    first one: an empty segment after the first is never the active one.  So
    while the mounted component plays (the clock not going back), the one row
    drawn as active is the first row or a row with characters. *)
Theorem active_segment_has_chars (script : list string) :
  (0 < charsOf script)%nat -> Z.of_nat (charsOf script) < 2 ^ 53 ->
  (forall currentTime duration : float,
     (0 <? duration)%float = true -> is_finite duration = true ->
     (0 <=? currentTime)%float = true -> (currentTime <=? duration)%float = true ->
     exists i : nat,
       activeParagraphIndex currentTime duration script = Z.of_nat i /\
       (i < List.length script)%nat /\
       (i = 0%nat \/ String.length (nth i script ""%string) <> 0%nat)) /\
  (forall (ctxState : AudioContextState) (base64Audio : option string)
          (evs : list Event),
     clockAdvances 0 evs = true ->
     isPlaying (run (mounted ctxState base64Audio) evs) = true ->
     (0 <? duration (run (mounted ctxState base64Audio) evs))%float = true ->
     exists i : nat,
       activeRows (run (mounted ctxState base64Audio) evs) script = [i] /\
       (i < List.length script)%nat /\
       (i = 0%nat \/ String.length (nth i script ""%string) <> 0%nat)).
Proof.
  intros H0 HN.
  assert (forall currentTime duration : float,
            (0 <? duration)%float = true -> is_finite duration = true ->
            (0 <=? currentTime)%float = true -> (currentTime <=? duration)%float = true ->
            exists i : nat,
              activeParagraphIndex currentTime duration script = Z.of_nat i /\
              (i < List.length script)%nat /\
              (i = 0%nat \/ String.length (nth i script ""%string) <> 0%nat)) as Hpure.
  { intros currentTime duration Hd Hf Ht0 Ht.
    destruct (div_self duration Hd Hf) as [P1 P2].
    assert ((currentTime / duration <=? 1)%float = true) as Hp1.
    { destruct (div_mono currentTime duration duration Ht0 Ht Hd) as [H|H].
      - exact (leb_trans _ _ _ H P1).
      - apply leb_is_nan_l in P1. congruence. }
    assert (0 < List.length script)%nat as Hlen
        by (destruct script; [cbn in H0; lia|cbn; lia]).
    destruct (charCount_value script 0%float 0 eq_refl
                              ltac:(reflexivity) ltac:(lia) ltac:(lia)) as [AT VT].
    rewrite Z.add_0_l in VT. fold (totalChars script) in AT, VT.
    assert ((0 <? totalChars script)%float = true) as HT.
    { apply ltb_of_value; [exact AT|]. rewrite VT, <- (Zlt_Qlt 0). lia. }
    destruct (activeParagraphIndex_walk script currentTime duration Hd)
      as [i Hi Hr Hp Hb | Hr Hb].
    - exists i. split; [exact Hr|]. split; [lia|].
      destruct i as [|k]; [now left|right]. intros Hz.
      destruct (nth_error script (S k)) as [p|] eqn:Hn; [|apply nth_error_None in Hn; lia].
      rewrite (nth_error_nth _ _ _ Hn) in Hz.
      destruct (nth_error script k) as [q|] eqn:Hq; [|apply nth_error_None in Hq; lia].
      assert (forall j r, nth_error script j = Some r ->
                pEndRatio script j
                = (charCount 0%float (firstn (S j) script) / totalChars script)%float) as Hratio.
      { intros j r Hj. unfold pEndRatio. rewrite (nth_error_nth _ _ _ Hj).
        unfold charCountSoFar. now rewrite (firstn_S_snoc _ _ _ Hj), charCount_app. }
      rewrite (Hratio _ _ Hn) in Hp. specialize (Hb k ltac:(lia)).
      rewrite (Hratio _ _ Hq) in Hb.
      pose proof (charsOf_firstn_le script (S (S k))) as L1.
      pose proof (charsOf_firstn_le script (S k)) as L2.
      destruct (charCount_value (firstn (S (S k)) script) 0%float 0 eq_refl
                                ltac:(reflexivity) ltac:(lia) ltac:(lia)) as [A1 V1].
      destruct (charCount_value (firstn (S k) script) 0%float 0 eq_refl
                                ltac:(reflexivity) ltac:(lia) ltac:(lia)) as [A2 V2].
      rewrite Z.add_0_l in V1, V2.
      rewrite (charsOf_firstn_S script (S k) p Hn), Hz, Nat.add_0_r in V1.
      assert ((charCount 0 (firstn (S (S k)) script)
               <=? charCount 0 (firstn (S k) script))%float = true) as Hnum.
      { apply leb_of_values; [exact A1|exact A2|]. rewrite V1, V2. apply Qle_refl. }
      destruct (div_mono _ _ (totalChars script) (startAccepts_nonneg _ A1) Hnum HT)
        as [H|H].
      + rewrite (leb_trans _ _ _ Hp H) in Hb. discriminate.
      + pose proof (div_nonneg _ _ A2 HT) as Hnn. apply leb_is_nan_r in Hnn. congruence.
    - exfalso.
      specialize (Hb (List.length script - 1)%nat ltac:(lia)).
      assert ((1 <=? pEndRatio script (List.length script - 1))%float = true) as H1.
      { rewrite (pEndRatio_one script _ H0 HN) by lia.
        replace (S (List.length script - 1)) with (List.length script) by lia.
        rewrite firstn_all. apply Nat.eqb_refl. }
      rewrite (leb_trans _ _ _ Hp1 H1) in Hb. discriminate. }
  split; [exact Hpure|].
  intros ctxState base64Audio evs Hclk Hp Hd.
  pose proof (inTrack_run evs 0 _ (inTrack_mounted ctxState base64Audio) Hclk)
    as ((_ & Hct & Hda & _) & Hle & _).
  assert (is_finite (duration (run (mounted ctxState base64Audio) evs)) = true) as Hf
      by (unfold startAccepts in Hda; now apply andb_true_iff in Hda as [? _]).
  destruct (Hpure _ _ Hd Hf (startAccepts_nonneg _ Hct) Hle) as (i & Hr & Hi & Hc).
  exists i. split; [|now split]. now apply activeRows_playing.
Qed.

Lemma active_segment_has_chars_witness :
  exists i : nat,
    activeParagraphIndex 1%float 2%float ["ab"%string; ""%string; "cd"%string] = Z.of_nat i /\
    (i < 3)%nat /\
    (i = 0%nat \/
     String.length (nth i ["ab"%string; ""%string; "cd"%string] ""%string) <> 0%nat).
Proof.
  exact (proj1 (active_segment_has_chars ["ab"%string; ""%string; "cd"%string]
                                         (Nat.lt_0_succ 3) eq_refl)
               1%float 2%float eq_refl eq_refl eq_refl eq_refl).
Defined.

(** ** Lesson view *)







Lemma unitsBefore_S (s : Syllabus) (c : nat) (chapter : Chapter) :
  nth_error (chapters s) c = Some chapter ->
  unitsBefore s (S c) = (unitsBefore s c + List.length (units chapter))%nat.
Proof.
  intros H. unfold unitsBefore.
  rewrite (firstn_S_snoc _ _ _ H), map_app, list_sum_app. cbn. lia.
Qed.

(** X20: [handleNextUnit] walks the syllabus in reading order: from a unit that
    exists, in a syllabus without empty chapter, it enters the unit that
    comes next (which exists, and whose audio is yet to be made), and from
    the last unit it goes back to the syllabus screen. *)
Theorem next_unit_in_order (app : App) (s : Syllabus) :
  syllabus app = Some s ->
  Forall (fun chapter => units chapter <> []) (chapters s) ->
  unitAt s (currentChapterIdx app) (currentUnitIdx app) ->
  (S (placeOf s (currentChapterIdx app) (currentUnitIdx app))
   = unitsBefore s (List.length (chapters s)) /\
   handleNextUnit app = Some (setScreen SYLLABUS app)) \/
  exists c u : nat,
    handleNextUnit app = Some (enterUnit c u app) /\
    unitAt s c u /\
    placeOf s c u = S (placeOf s (currentChapterIdx app) (currentUnitIdx app)) /\
    audioData (enterUnit c u app) = None.
Proof.
  intros Hs Hne (ch & un & Hc & Hu).
  unfold handleNextUnit. rewrite Hs, Hc. cbv zeta.
  assert (currentUnitIdx app < List.length (units ch))%nat as Hlt
      by (apply nth_error_Some; congruence).
  assert (currentChapterIdx app < List.length (chapters s))%nat as Hcl
      by (apply nth_error_Some; congruence).
  destruct (Nat.leb_spec (List.length (units ch)) (currentUnitIdx app + 1)) as [Hlast|Hin];
    cbn [fst snd].
  - pose proof (unitsBefore_S s _ ch Hc) as Hb.
    destruct (Nat.ltb_spec (currentChapterIdx app + 1) (List.length (chapters s)))
      as [Hnext|Hend].
    + right. exists (currentChapterIdx app + 1)%nat, 0%nat.
      split; [reflexivity|].
      destruct (nth_error (chapters s) (currentChapterIdx app + 1)) as [ch'|] eqn:Hc';
        [|apply nth_error_None in Hc'; lia].
      assert (units ch' <> []) as Hne'
          by (apply (proj1 (Forall_forall _ _) Hne); eapply nth_error_In; eauto).
      destruct (units ch') as [|un' rest] eqn:Eu; [congruence|].
      split; [exists ch', un'; split; [exact Hc'|now rewrite Eu]|].
      split; [|reflexivity].
      unfold placeOf. rewrite Nat.add_1_r, Hb. lia.
    + left. split; [|reflexivity].
      unfold placeOf. replace (List.length (chapters s)) with (S (currentChapterIdx app)) by lia.
      rewrite Hb. lia.
  - destruct (Nat.ltb_spec (currentChapterIdx app) (List.length (chapters s))); [|lia].
    right. exists (currentChapterIdx app), (currentUnitIdx app + 1)%nat.
    split; [reflexivity|].
    destruct (nth_error (units ch) (currentUnitIdx app + 1)) as [un'|] eqn:Hu';
      [|apply nth_error_None in Hu'; lia].
    split; [exists ch, un'; now split|]. split; [|reflexivity].
    unfold placeOf. lia.
Qed.

Lemma next_unit_in_order_witness :
  exists c u : nat,
    handleNextUnit
      {| screen := LESSON;
         syllabus := Some {| chapters := [{| units := [{| unitId := "u1" |}] |};
                                          {| units := [{| unitId := "u2" |}] |}] |};
         courseContent := [];
         currentChapterIdx := 0; currentUnitIdx := 0; lessonMode := LISTEN;
         audioData := Some "AAAA"%string; isAudioLoading := false;
         quizSelectedId := None; isQuizSubmitted := false;
         examAnswers := []; isExamSubmitted := false; flashcardFlipped := [] |}
    = Some (enterUnit c u
              {| screen := LESSON;
                 syllabus := Some {| chapters := [{| units := [{| unitId := "u1" |}] |};
                                                  {| units := [{| unitId := "u2" |}] |}] |};
                 courseContent := [];
                 currentChapterIdx := 0; currentUnitIdx := 0; lessonMode := LISTEN;
                 audioData := Some "AAAA"%string; isAudioLoading := false;
                 quizSelectedId := None; isQuizSubmitted := false;
                 examAnswers := []; isExamSubmitted := false; flashcardFlipped := [] |}).
Proof.
  destruct (next_unit_in_order
              {| screen := LESSON;
                 syllabus := Some {| chapters := [{| units := [{| unitId := "u1" |}] |};
                                                  {| units := [{| unitId := "u2" |}] |}] |};
                 courseContent := [];
                 currentChapterIdx := 0; currentUnitIdx := 0; lessonMode := LISTEN;
                 audioData := Some "AAAA"%string; isAudioLoading := false;
                 quizSelectedId := None; isQuizSubmitted := false;
                 examAnswers := []; isExamSubmitted := false; flashcardFlipped := [] |}
              _ eq_refl
              ltac:(repeat constructor; discriminate)
              (ex_intro _ _ (ex_intro _ _ (conj eq_refl eq_refl))))
    as [[E _] | (c & u & E & _)]; [discriminate|].
  exists c, u. exact E.
Defined.
